(** * The TUN dispatcher of telepresence (pkg/tun/dispatcher.go)

    A shallow embedding of [Dispatcher]: its packet classification
    ([handlePacket], [tcp], [udp]), its shutdown sequence ([Stop]), the
    device writer and reader loops of [Run], and [SetManagerInfo].

    Go statements become computations in a small state monad over a
    [World]: the dispatcher struct together with the history of observable
    effects (log lines, channel sends, buffer releases, handler hand-overs).
    A computation can also block (a send on a full channel, [Wait] on a
    non-zero wait group) or panic (a failed type assertion).

    The development also covers [AddSubnets], the shell quoting of
    pkg/client/logging/shellstring.go ([ShellString], [ShellArgsString],
    [quoteArg]) and the trimming of a function name to its package in the
    test helper [callerPackage]; Go strings are lists of bytes there, and a
    computation that can panic returns an option. *)

From Stdlib Require Import ZArith List Bool Lia Ascii String.
From stdpp Require Import base option list gmap strings.

Local Open Scope Z_scope.

(** ** Go's standard [net.IP] *)

Module net.

(** [net.IP] is a byte slice of length 4 or 16. *)
Definition IP := list Z.

Definition IPv4len : nat := 4.
Definition IPv6len : nat := 16.

(** [ip[i]]; every caller below checks the length first. *)
Definition idx (ip : IP) (i : nat) : Z := nth i ip 0.

Definition isZeros (p : IP) : bool := forallb (Z.eqb 0) p.

Definition v4InV6Prefix : IP := [0; 0; 0; 0; 0; 0; 0; 0; 0; 0; 255; 255].

Definition bytesEqual (a b : IP) : bool := bool_decide (a = b).

Definition To4 (ip : IP) : option IP :=
  if Nat.eqb (length ip) IPv4len then Some ip
  else if Nat.eqb (length ip) IPv6len && isZeros (take 10 ip)
          && (idx ip 10 =? 255) && (idx ip 11 =? 255)
  then Some (take 4 (drop 12 ip))
  else None.

Definition IsLinkLocalUnicast (ip : IP) : bool :=
  match To4 ip with
  | Some ip4 => (idx ip4 0 =? 169) && (idx ip4 1 =? 254)
  | None => Nat.eqb (length ip) IPv6len && (idx ip 0 =? 254)
            && (Z.land (idx ip 1) 192 =? 128)
  end.

Definition IsLinkLocalMulticast (ip : IP) : bool :=
  match To4 ip with
  | Some ip4 => (idx ip4 0 =? 224) && (idx ip4 1 =? 0) && (idx ip4 2 =? 0)
  | None => Nat.eqb (length ip) IPv6len && (idx ip 0 =? 255)
            && (Z.land (idx ip 1) 15 =? 2)
  end.

Definition Equal (ip x : IP) : bool :=
  if Nat.eqb (length ip) (length x) then bytesEqual ip x
  else if Nat.eqb (length ip) IPv4len && Nat.eqb (length x) IPv6len
  then bytesEqual (take 12 x) v4InV6Prefix && bytesEqual ip (drop 12 x)
  else if Nat.eqb (length ip) IPv6len && Nat.eqb (length x) IPv4len
  then bytesEqual (take 12 ip) v4InV6Prefix && bytesEqual (drop 12 ip) x
  else false.

End net.

Abbreviation IP := net.IP.

(** ** Constants of [golang.org/x/sys/unix] and [golang.org/x/net/ipv4] *)

Module unix.
Definition IPPROTO_ICMP : Z := 1.
Definition IPPROTO_TCP : Z := 6.
Definition IPPROTO_UDP : Z := 17.
Definition IPPROTO_ICMPV6 : Z := 58.
End unix.

Module ipv4.
Definition Version : Z := 4.
Definition MoreFragments : Z := 1.
Definition DontFragment : Z := 2.
End ipv4.

(** Go's conversion [uint16(n)]. *)
Definition uint16 (n : Z) : Z := n mod 65536.

(** ** Packets

    The packages [buffer], [ip], [tcp], [udp] and [icmp] are imported by the
    dispatcher; it only reads a packet through their accessors.  A header is
    the record of what those accessors return. *)

(** Modelled from the spec: [ip.Header], the parsed header view of section 3
    (IP version, header length, payload length, protocol, addresses,
    fragmentation flags, offset and ID). *)
Record Header := mkHeader {
  Version : Z;
  HeaderLen : Z;
  PayloadLen : Z;
  L4Protocol : Z;
  Source : IP;
  Destination : IP;
  Flags : Z;
  FragmentOffset : Z;
  ID : Z
}.

(** Modelled from the spec: [tcp.Header] and [udp.Header], as far as the
    dispatcher reads them: the ports of either, and the SYN and RST flags of
    a TCP header. *)
Record L4Header := mkL4 {
  SourcePort : Z;
  DestinationPort : Z;
  SYN : bool;
  RST : bool
}.

(** Modelled from the spec: [buffer.Data], a pooled byte buffer.  [bufId]
    identifies the buffer; [ParseHeader] is the outcome of
    [ip.ParseHeader(data.Buf())] ([None] is the parse error) and [l4] what
    the transport header at its payload reads as. *)
Record Data := mkData {
  bufId : nat;
  ParseHeader : option Header;
  l4 : L4Header
}.

(** Modelled from the spec: [tcp.Packet] and [udp.Datagram], a buffer seen
    through the IP header it was parsed with, built by
    [tcp.PacketFromData(ipHdr, data)] and [udp.DatagramFromData(ipHdr, data)]. *)
Record L4Packet := PacketFromData {
  IPHeader : Header;
  pktData : Data
}.

Definition DatagramFromData := PacketFromData.
Definition L4HeaderOf (p : L4Packet) : L4Header := l4 (pktData p).

Inductive UnreachableCode :=
| MustFragment
| HostUnreachable
| PortUnreachable
| ProtocolUnreachable.

(** Modelled from the spec: [ip.Packet], what travels on [toTunCh]: the
    destination-unreachable replies of section 4.3, the reset [pkt.Reset()]
    answering a TCP packet, and the packets the flow handlers produce. *)
Inductive Packet :=
| ICMPUnreachable (mtu : Z) (orig : Header) (code : UnreachableCode)
| Reset (pkt : L4Packet)
| FromHandler (buf : nat) (dst : IP).

(** Modelled from the spec: [icmp.DestinationUnreachablePacket], section 4.3:
    a destination-unreachable reply addressed back to the original sender,
    carrying the sub-code chosen by the caller. *)
Definition DestinationUnreachablePacket (mtu : Z) (origHdr : Header)
    (code : UnreachableCode) : Packet :=
  ICMPUnreachable mtu origHdr code.

(** The address a queued packet is sent to. *)
Definition addressedTo (p : Packet) : IP :=
  match p with
  | ICMPUnreachable _ orig _ => Source orig
  | Reset pkt => Source (IPHeader pkt)
  | FromHandler _ dst => dst
  end.

(** ** Flow identifiers and handlers *)

(** Modelled from the spec: [connpool.ConnID], the flow identifier of
    section 3: the tuple (protocol, source, destination, source port,
    destination port). *)
Definition ConnID : Type := Z * IP * IP * Z * Z.

Definition NewConnID (proto : Z) (src dst : IP) (srcPort dstPort : Z) : ConnID :=
  (proto, src, dst, srcPort, dstPort).

Inductive HandlerKind := TCPHandler | UDPHandler | DnsInterceptor.

(** Modelled from the spec: [connpool.Handler], the flow handler of section
    3, in its three variants.  [hTask] is the identity of the instance (and
    of the task it owns); [closeRequested] is set once the handler has been
    signalled to close. *)
Record Handler := mkHandler {
  hKind : HandlerKind;
  hConn : ConnID;
  hTask : nat;
  closeRequested : bool
}.

Inductive error :=
| errors_New (msg : string)
| ctx_Err
| dns_Err
| dial_Err
| timeout_Err
| io_Err.

(** ** The dispatcher *)

(** The device, as far as the dispatcher changes it: open or closed. *)
Record Device := mkDevice { devClosed : bool }.

(** [manager.NewManagerClient(conn)], for the connection dialled to a port. *)
Inductive ManagerClient := NewManagerClient (grpcPort : Z).

(** The struct [Dispatcher].  [handlersWg] is the counter of the wait group;
    [closing] is 0 (running), 1 (closing) or 2 (closed).  The channel
    [mgrConfigured], on which the reader waits before its loop, carries no
    state and is left out. *)
Record Dispatcher := mkDispatcher {
  dev : Device;
  managerClient : option ManagerClient;
  connStream : option nat;
  handlers : gmap ConnID Handler;
  handlersWg : nat;
  toTunCh : list Packet;
  fragmentMap : gmap Z (list Data);
  dnsIP : IP;
  dnsPort : Z;
  dnsLocalAddr : option (IP * Z);
  closing : Z
}.

(** [make(chan ip.Packet, 100)] *)
Definition toTunChCap : nat := 100.

Definition NewDispatcher (dev0 : Device) : Dispatcher :=
  {| dev := dev0; managerClient := None; connStream := None;
     handlers := ∅; handlersWg := 0%nat; toTunCh := [];
     fragmentMap := ∅; dnsIP := []; dnsPort := 0; dnsLocalAddr := None;
     closing := 0 |}.

(** The two debug lines of the dispatcher: a packet read from the device
    and a packet about to be written to it. *)
Inductive DebugMsg :=
| FromTUN (buf : nat)
| ToTUN (p : Packet).

(** Observable effects, in the order they happen. *)
Inductive Event :=
| EvLogError (e : error)
| EvLogDebug (m : DebugMsg)
| EvSend (p : Packet)
| EvGet (buf : nat)
| EvPut (buf : nat)
| EvHandlePacket (task : nat) (buf : nat)
| EvNewDatagram (task : nat) (buf : nat)
| EvCreated (h : Handler)
| EvTaskExit (task : nat)
| EvStoreClosing (v : Z)
| EvCloseAll (signalled : list nat)
| EvWaitReturned
| EvDevClose
| EvDevWrite (p : Packet) (ok : bool)
| EvSoftRelease (p : Packet)
| EvDial (grpcPort : Z).

(** The dispatcher, the history of its effects and the handler tasks that
    are running ([tasks] maps a task to the flow it serves). *)
Record World := mkWorld {
  disp : Dispatcher;
  trace : list Event;
  tasks : gmap nat ConnID;
  nextTask : nat
}.

(** What the runtime decides for one call: whether the context is already
    cancelled, which ready case a [select] picks when both are ready, and
    whether [udp.NewDnsInterceptor] fails. *)
Record Env := mkEnv {
  ctxDone : bool;
  pickDone : bool;
  dnsInterceptorFails : bool
}.

(** The packet buffer pool's MTU and the IPv4 reassembler
    [V4Header.ConcatFragments], which returns the reassembled buffer (or nil
    while fragments are missing) and updates the fragment map. *)
Record Config := mkConfig {
  MTU : Z;
  ConcatFragments : Header -> Data -> gmap Z (list Data) ->
                    option Data * gmap Z (list Data)
}.

(** ** The monad of dispatcher code *)

Inductive Result (A : Type) :=
| Ret (a : A) (w : World)
| Blocked
| Panic.

Arguments Ret {A} a w.
Arguments Blocked {A}.
Arguments Panic {A}.

Definition M (A : Type) : Type := World -> Result A.

#[export] Instance M_ret : MRet M := fun A a w => Ret a w.

#[export] Instance M_bind : MBind M := fun A B f m w =>
  match m w with
  | Ret a w' => f a w'
  | Blocked => Blocked
  | Panic => Panic
  end.

Definition getD : M Dispatcher := fun w => Ret (disp w) w.

Definition modifyD (f : Dispatcher -> Dispatcher) : M unit := fun w =>
  Ret tt {| disp := f (disp w); trace := trace w;
            tasks := tasks w; nextTask := nextTask w |}.

Definition emit (e : Event) : M unit := fun w =>
  Ret tt {| disp := disp w; trace := trace w ++ [e];
            tasks := tasks w; nextTask := nextTask w |}.

Definition block {A} : M A := fun _ => Blocked.
Definition panic {A} : M A := fun _ => Panic.

(** Field updates of the struct. *)
Definition set_dev (v : Device) (d : Dispatcher) : Dispatcher :=
  {| dev := v; managerClient := managerClient d; connStream := connStream d;
     handlers := handlers d; handlersWg := handlersWg d; toTunCh := toTunCh d;
     fragmentMap := fragmentMap d; dnsIP := dnsIP d; dnsPort := dnsPort d;
     dnsLocalAddr := dnsLocalAddr d; closing := closing d |}.

Definition set_managerClient (v : option ManagerClient) (d : Dispatcher) : Dispatcher :=
  {| dev := dev d; managerClient := v; connStream := connStream d;
     handlers := handlers d; handlersWg := handlersWg d; toTunCh := toTunCh d;
     fragmentMap := fragmentMap d; dnsIP := dnsIP d; dnsPort := dnsPort d;
     dnsLocalAddr := dnsLocalAddr d; closing := closing d |}.

Definition set_handlers (v : gmap ConnID Handler) (d : Dispatcher) : Dispatcher :=
  {| dev := dev d; managerClient := managerClient d; connStream := connStream d;
     handlers := v; handlersWg := handlersWg d; toTunCh := toTunCh d;
     fragmentMap := fragmentMap d; dnsIP := dnsIP d; dnsPort := dnsPort d;
     dnsLocalAddr := dnsLocalAddr d; closing := closing d |}.

Definition set_handlersWg (v : nat) (d : Dispatcher) : Dispatcher :=
  {| dev := dev d; managerClient := managerClient d; connStream := connStream d;
     handlers := handlers d; handlersWg := v; toTunCh := toTunCh d;
     fragmentMap := fragmentMap d; dnsIP := dnsIP d; dnsPort := dnsPort d;
     dnsLocalAddr := dnsLocalAddr d; closing := closing d |}.

Definition set_toTunCh (v : list Packet) (d : Dispatcher) : Dispatcher :=
  {| dev := dev d; managerClient := managerClient d; connStream := connStream d;
     handlers := handlers d; handlersWg := handlersWg d; toTunCh := v;
     fragmentMap := fragmentMap d; dnsIP := dnsIP d; dnsPort := dnsPort d;
     dnsLocalAddr := dnsLocalAddr d; closing := closing d |}.

Definition set_fragmentMap (v : gmap Z (list Data)) (d : Dispatcher) : Dispatcher :=
  {| dev := dev d; managerClient := managerClient d; connStream := connStream d;
     handlers := handlers d; handlersWg := handlersWg d; toTunCh := toTunCh d;
     fragmentMap := v; dnsIP := dnsIP d; dnsPort := dnsPort d;
     dnsLocalAddr := dnsLocalAddr d; closing := closing d |}.

Definition set_dns (ip : IP) (port : Z) (addr : option (IP * Z)) (d : Dispatcher) : Dispatcher :=
  {| dev := dev d; managerClient := managerClient d; connStream := connStream d;
     handlers := handlers d; handlersWg := handlersWg d; toTunCh := toTunCh d;
     fragmentMap := fragmentMap d; dnsIP := ip; dnsPort := port;
     dnsLocalAddr := addr; closing := closing d |}.

Definition set_closing (v : Z) (d : Dispatcher) : Dispatcher :=
  {| dev := dev d; managerClient := managerClient d; connStream := connStream d;
     handlers := handlers d; handlersWg := handlersWg d; toTunCh := toTunCh d;
     fragmentMap := fragmentMap d; dnsIP := dnsIP d; dnsPort := dnsPort d;
     dnsLocalAddr := dnsLocalAddr d; closing := v |}.

(** ** Primitive statements *)

(** [dlog.Error(c, err)] *)
Definition dlog_Error (e : error) : M unit := emit (EvLogError e).

(** [dlog.Debugf(c, "<- TUN %s", pkt)] and [dlog.Debugf(c, "-> TUN %s", pkt)] *)
Definition dlog_Debugf (m : DebugMsg) : M unit := emit (EvLogDebug m).

(** [buffer.DataPool.Put(data)] *)
Definition DataPool_Put (data : Data) : M unit := emit (EvPut (bufId data)).

(** [d.toTunCh <- p]: the send completes when the channel has room and
    blocks otherwise. *)
Definition chanSend (p : Packet) : M unit := fun w =>
  if (length (toTunCh (disp w)) <? toTunChCap)%nat
  then (modifyD (fun d => set_toTunCh (toTunCh d ++ [p]) d) ;; emit (EvSend p)) w
  else Blocked.

(** [select { case <-c.Done(): ...; case d.toTunCh <- p: }].  The result is
    [true] when the cancellation case ran.  With both cases ready the
    runtime picks one; with none ready the statement blocks. *)
Definition selectDoneOrSend (env : Env) (p : Packet) : M bool := fun w =>
  let room := (length (toTunCh (disp w)) <? toTunChCap)%nat in
  match ctxDone env, room with
  | true, true => if pickDone env then Ret true w else (chanSend p ;; mret false) w
  | true, false => Ret true w
  | false, true => (chanSend p ;; mret false) w
  | false, false => Blocked
  end.

(** [d.handlersWg.Add(n)]: the counter of a [sync.WaitGroup] is never
    negative; an [Add] that would make it so panics. *)
Definition handlersWg_Add (n : Z) : M unit := fun w =>
  if Z.of_nat (handlersWg (disp w)) + n <? 0 then Panic
  else modifyD (fun d => set_handlersWg (Z.to_nat (Z.of_nat (handlersWg d) + n)) d) w.

(** [d.handlersWg.Wait()] returns once the counter is zero. *)
Definition handlersWg_Wait : M unit := fun w =>
  if Nat.eqb (handlersWg (disp w)) 0 then emit EvWaitReturned w else Blocked.

(** [atomic.StoreInt32(&d.closing, v)] *)
Definition StoreClosing (v : Z) : M unit :=
  modifyD (set_closing v) ;; emit (EvStoreClosing v).

(** [d.dev.Close()] *)
Definition dev_Close : M unit :=
  modifyD (set_dev {| devClosed := true |}) ;; emit EvDevClose.

(** ** Collaborators of the dispatcher *)

(** Modelled from the spec: the constructors [tcp.NewHandler],
    [udp.NewHandler] and [udp.NewDnsInterceptor] of the flow handlers
    (section 4.7).  A handler owns a task of its own, which starts with it. *)
Definition NewHandler (k : HandlerKind) (id : ConnID) : M Handler := fun w =>
  let h := {| hKind := k; hConn := id; hTask := nextTask w;
              closeRequested := false |} in
  Ret h {| disp := disp w; trace := trace w ++ [EvCreated h];
           tasks := <[nextTask w := id]> (tasks w);
           nextTask := S (nextTask w) |}.

Definition NewDnsInterceptor (env : Env) (id : ConnID) : M (Handler + error) :=
  if dnsInterceptorFails env then mret (inr dns_Err)
  else h ← NewHandler DnsInterceptor id; mret (inl h).

(** Modelled from the spec: [connpool.Pool.Get], the get-or-create of
    section 4.4.  An existing entry is returned; otherwise the factory runs
    once and its handler is stored under the flow identifier.  A factory
    that fails creates no handler, so nothing is stored. *)
Definition Pool_Get (id : ConnID) (factory : M (Handler + error))
    : M (Handler + error) :=
  d ← getD;
  match handlers d !! id with
  | Some h => mret (inl h)
  | None =>
      r ← factory;
      match r with
      | inl h =>
          modifyD (fun d => set_handlers (<[id := h]> (handlers d)) d) ;;
          mret (inl h)
      | inr e => mret (inr e)
      end
  end.

Definition signalClose (h : Handler) : Handler :=
  {| hKind := hKind h; hConn := hConn h; hTask := hTask h;
     closeRequested := true |}.

(** Modelled from the spec: [connpool.Pool.CloseAll], section 4.4: every
    live handler is signalled to terminate; the call does not wait. *)
Definition Pool_CloseAll : M unit :=
  d ← getD;
  modifyD (set_handlers (signalClose <$> handlers d)) ;;
  emit (EvCloseAll (hTask <$> (map_to_list (handlers d)).*2)).

(** Modelled from the spec: the termination of a handler's task (sections 3
    and 4.4): it calls its removal callback, which deletes the registry
    entry of its flow, and it decrements the completion barrier. *)
Definition taskExit (t : nat) : M unit := fun w =>
  match tasks w !! t with
  | None => Blocked
  | Some id =>
      (modifyD (fun d => set_handlers (delete id (handlers d)) d) ;;
       handlersWg_Add (-1) ;;
       emit (EvTaskExit t))
        {| disp := disp w; trace := trace w;
           tasks := delete t (tasks w); nextTask := nextTask w |}
  end.

(** Modelled from the spec: [wf.(tcp.PacketHandler).HandlePacket(c, pkt)]
    (section 4.7): the packet, with its buffer, now belongs to the handler.
    The type assertion panics on a handler of another kind. *)
Definition HandlePacket (wf : Handler) (pkt : L4Packet) : M unit :=
  match hKind wf with
  | TCPHandler => emit (EvHandlePacket (hTask wf) (bufId (pktData pkt)))
  | _ => panic
  end.

(** Modelled from the spec: [uh.(udp.DatagramHandler).NewDatagram(c, dg)]
    (section 4.7). *)
Definition NewDatagram (uh : Handler) (dg : L4Packet) : M unit :=
  match hKind uh with
  | UDPHandler | DnsInterceptor => emit (EvNewDatagram (hTask uh) (bufId (pktData dg)))
  | TCPHandler => panic
  end.

(** ** dispatcher.go *)

Definition ConfigureDNS (ip : IP) (port : Z) (addr : option (IP * Z)) : M (option error) :=
  modifyD (set_dns ip port addr) ;; mret None.

Record ManagerInfo := mkManagerInfo { GrpcPort : Z }.

(** Modelled from the spec: [client.CheckTimeout(tc, &tos.TrafficManagerAPI,
    err)] (section 5): the dial error, or a timeout error when the deadline
    of [tc] has passed. *)
Definition CheckTimeout (deadlineExceeded : bool) (err : error) : error :=
  if deadlineExceeded then timeout_Err else err.

(** [dial] is what [grpc.DialContext] returns for this call: [None] for a
    connection, [Some err] for a failure. *)
Definition SetManagerInfo (dial : option error) (deadlineExceeded : bool)
    (mi : ManagerInfo) : M (option error) :=
  d ← getD;
  match managerClient d with
  | None =>
      emit (EvDial (GrpcPort mi)) ;;
      match dial with
      | Some err => mret (Some (CheckTimeout deadlineExceeded err))
      | None =>
          modifyD (set_managerClient (Some (NewManagerClient (GrpcPort mi)))) ;;
          mret None
      end
  | Some _ => mret None
  end.

Definition Stop : M unit :=
  StoreClosing 1 ;;
  Pool_CloseAll ;;
  handlersWg_Wait ;;
  StoreClosing 2 ;;
  dev_Close.

(** The five statements of [Stop], one at a time. *)
Definition StopStatements : list (M unit) :=
  [StoreClosing 1; Pool_CloseAll; handlersWg_Wait; StoreClosing 2; dev_Close].

Definition blockedUDPPorts : gmap Z bool :=
  {[ 137 := true; 138 := true; 139 := true ]}.

(** Indexing a Go map with an absent key gives the zero value. *)
Definition blocked (port : Z) : bool := default false (blockedUDPPorts !! port).

Definition tcp (env : Env) (pkt : L4Packet) : M unit :=
  dlog_Debugf (FromTUN (bufId (pktData pkt))) ;;
  let ipHdr := IPHeader pkt in
  let tcpHdr := L4HeaderOf pkt in
  let connID := NewConnID unix.IPPROTO_TCP (Source ipHdr) (Destination ipHdr)
                  (SourcePort tcpHdr) (DestinationPort tcpHdr) in
  r ← Pool_Get connID
        (if RST tcpHdr
         then mret (inr (errors_New "dispatching got RST without connection workflow"))
         else
           cancelled ← (if negb (SYN tcpHdr)
                         then selectDoneOrSend env (Reset pkt)
                         else mret false);
           if cancelled : bool then mret (inr ctx_Err)
           else
             handlersWg_Add 1 ;;
             h ← NewHandler TCPHandler connID;
             mret (inl h));
  match r with
  | inr err => dlog_Error err
  | inl wf => HandlePacket wf pkt
  end.

Definition udp (env : Env) (dg : L4Packet) : M unit :=
  dlog_Debugf (FromTUN (bufId (pktData dg))) ;;
  let ipHdr := IPHeader dg in
  let udpHdr := L4HeaderOf dg in
  let connID := NewConnID unix.IPPROTO_UDP (Source ipHdr) (Destination ipHdr)
                  (SourcePort udpHdr) (DestinationPort udpHdr) in
  r ← Pool_Get connID
        (handlersWg_Add 1 ;;
         d ← getD;
         if (DestinationPort udpHdr =? dnsPort d)
            && net.Equal (Destination ipHdr) (dnsIP d)
         then NewDnsInterceptor env connID
         else h ← NewHandler UDPHandler connID; mret (inl h));
  match r with
  | inr err => dlog_Error err
  | inl uh => NewDatagram uh dg
  end.

(** Does an IPv4 header announce a fragment?
    [v4Hdr.Flags()&ipv4.MoreFragments != 0 || v4Hdr.FragmentOffset() != 0] *)
Definition isFragment (v4Hdr : Header) : bool :=
  negb (Z.land (Flags v4Hdr) ipv4.MoreFragments =? 0)
  || negb (FragmentOffset v4Hdr =? 0).

(** [ip4 := dst.To4(); ip4 != nil && ip4[2] == 0 && ip4[3] == 0] *)
Definition isSubnetZero (dst : IP) : bool :=
  match net.To4 dst with
  | Some ip4 => (net.idx ip4 2 =? 0) && (net.idx ip4 3 =? 0)
  | None => false
  end.

Definition isLinkLocal (dst : IP) : bool :=
  net.IsLinkLocalUnicast dst || net.IsLinkLocalMulticast dst.

(** [data = v4Hdr.ConcatFragments(data, d.fragmentMap)] *)
Definition concatFragments (cfg : Config) (v4Hdr : Header) (data : Data)
    : M (option Data) :=
  d ← getD;
  let '(r, fm) := ConcatFragments cfg v4Hdr data (fragmentMap d) in
  modifyD (set_fragmentMap fm) ;;
  mret r.

(** The [switch ipHdr.L4Protocol()] of [handlePacket].  The result is the
    value of the variable [data] when the function returns: [None] is nil.
    In Go a case does not fall through to the next one, so the case of
    [IPPROTO_ICMP] is empty. *)
Definition dispatchL4 (cfg : Config) (env : Env) (ipHdr : Header) (data : Data)
    : M (option Data) :=
  let proto := L4Protocol ipHdr in
  if proto =? unix.IPPROTO_TCP then
    tcp env (PacketFromData ipHdr data) ;;
    mret None
  else if proto =? unix.IPPROTO_UDP then
    let dst := Destination ipHdr in
    if isLinkLocal dst then
      mret (Some data)
    else if isSubnetZero dst then
      chanSend (DestinationUnreachablePacket (uint16 (MTU cfg)) ipHdr HostUnreachable) ;;
      mret (Some data)
    else
      let dg := DatagramFromData ipHdr data in
      if blocked (SourcePort (L4HeaderOf dg)) || blocked (DestinationPort (L4HeaderOf dg))
      then
        chanSend (DestinationUnreachablePacket (uint16 (MTU cfg)) ipHdr PortUnreachable) ;;
        mret (Some data)
      else
        udp env dg ;;
        mret None
  else if proto =? unix.IPPROTO_ICMP then
    mret (Some data)
  else if proto =? unix.IPPROTO_ICMPV6 then
    dlog_Debugf (FromTUN (bufId data)) ;;
    mret (Some data)
  else
    chanSend (DestinationUnreachablePacket (uint16 (MTU cfg)) ipHdr ProtocolUnreachable) ;;
    mret (Some data).

(** The body of [handlePacket] up to its return, giving the final value of
    [data]. *)
Definition handlePacketBody (cfg : Config) (env : Env) (data : Data)
    : M (option Data) :=
  match ParseHeader data with
  | None =>
      dlog_Error (errors_New "Unable to parse package header") ;;
      mret (Some data)
  | Some ipHdr =>
      if PayloadLen ipHdr >? MTU cfg - HeaderLen ipHdr then
        chanSend (DestinationUnreachablePacket (uint16 (MTU cfg)) ipHdr MustFragment) ;;
        mret (Some data)
      else if (Version ipHdr =? ipv4.Version) && isFragment ipHdr then
        r ← concatFragments cfg ipHdr data;
        match r with
        | None => mret None
        | Some data' => dispatchL4 cfg env ipHdr data'
        end
      else dispatchL4 cfg env ipHdr data
  end.

(** [handlePacket]: the body, then the deferred function, which returns the
    buffer to the pool unless [data] is nil. *)
Definition handlePacket (cfg : Config) (env : Env) (data : Data) : M unit :=
  r ← handlePacketBody cfg env data;
  match r with
  | Some data' => DataPool_Put data'
  | None => mret tt
  end.

(** ** The loops of [Run] *)

Inductive LoopStep :=
| Continue
| Return (err : option error).

(** One iteration of the "TUN writer" loop.  [writeErr] is the error of
    [d.dev.Write], if any. *)
Definition writerIteration (env : Env) (writeErr : option error) : M LoopStep :=
  d ← getD;
  if closing d <? 2 then
    let receive (pkt : Packet) (rest : list Packet) : M LoopStep :=
      modifyD (set_toTunCh rest) ;;
      dlog_Debugf (ToTUN pkt) ;;
      emit (EvDevWrite pkt (bool_decide (writeErr = None))) ;;
      emit (EvSoftRelease pkt) ;;
      match writeErr with
      | Some err =>
          d' ← getD;
          if (closing d' =? 2) || ctxDone env
          then mret (Return None)
          else mret (Return (Some err))
      | None => mret Continue
      end in
    match ctxDone env, toTunCh d with
    | true, [] => mret (Return None)
    | true, pkt :: rest => if pickDone env then mret (Return None) else receive pkt rest
    | false, [] => block
    | false, pkt :: rest => receive pkt rest
    end
  else mret (Return None).

(** The loop condition of the "TUN reader": [atomic.LoadInt32(&d.closing) < 2]. *)
Definition readerGuard : M bool :=
  d ← getD; mret (closing d <? 2).

(** What the inner read loop of the "TUN reader" ends with, for the buffer
    it took from the pool: an error, or a packet in the buffer. *)
Inductive ReadOutcome :=
| ReadError (buf : nat)
| ReadPacket (data : Data).

(** The body of one iteration of the "TUN reader" loop, entered after the
    guard. *)
Definition readerBody (cfg : Config) (env : Env) (rd : ReadOutcome) : M LoopStep :=
  match rd with
  | ReadError buf =>
      emit (EvGet buf) ;;
      emit (EvPut buf) ;;
      d ← getD;
      if ctxDone env || (closing d =? 2)
      then mret (Return None)
      else mret (Return (Some io_Err))
  | ReadPacket data =>
      emit (EvGet (bufId data)) ;;
      handlePacket cfg env data ;;
      mret Continue
  end.

(** ** Vocabulary of the statements *)

(** The outbound queue can take one more packet. *)
Definition hasRoom (w : World) : Prop :=
  (length (toTunCh (disp w)) < toTunChCap)%nat.

(** The world [w] after the struct became [d] and the events [evs]
    happened; no handler task was started or ended. *)
Definition withTrace (evs : list Event) (d : Dispatcher) (w : World) : World :=
  {| disp := d; trace := trace w ++ evs; tasks := tasks w; nextTask := nextTask w |}.

(** The world [w] after [p] was queued on [toTunCh]. *)
Definition queued (p : Packet) (d : Dispatcher) : Dispatcher :=
  set_toTunCh (toTunCh d ++ [p]) d.

(** The header, buffer and world with which [handlePacket] enters its
    protocol switch, if it gets there: the header parses, the packet is not
    too large, and an IPv4 fragment completes its packet. *)
Definition entersSwitch (cfg : Config) (data : Data) (w : World)
    : option (Header * Data * World) :=
  match ParseHeader data with
  | None => None
  | Some ipHdr =>
      if PayloadLen ipHdr >? MTU cfg - HeaderLen ipHdr then None
      else if (Version ipHdr =? ipv4.Version) && isFragment ipHdr then
        match concatFragments cfg ipHdr data w with
        | Ret (Some data') w1 => Some (ipHdr, data', w1)
        | _ => None
        end
      else Some (ipHdr, data, w)
  end.

(** The flow identifier [tcp] and [udp] compute for a packet. *)
Definition connIDOf (proto : Z) (pkt : L4Packet) : ConnID :=
  NewConnID proto (Source (IPHeader pkt)) (Destination (IPHeader pkt))
    (SourcePort (L4HeaderOf pkt)) (DestinationPort (L4HeaderOf pkt)).

(** An event that forwards nothing: a log line or the return of a buffer to
    the pool. *)
Definition forwardsNothing (e : Event) : Prop :=
  match e with
  | EvLogDebug _ | EvLogError _ | EvPut _ => True
  | _ => False
  end.

(** The handler [tcp] creates for a packet in world [w]. *)
Definition newTCPHandler (pkt : L4Packet) (w : World) : Handler :=
  {| hKind := TCPHandler; hConn := connIDOf unix.IPPROTO_TCP pkt;
     hTask := nextTask w; closeRequested := false |}.

(** The world after [tcp] created the handler of a flow on its SYN. *)
Definition afterSYN (pkt : L4Packet) (w : World) : World :=
  let h := newTCPHandler pkt w in
  {| disp := set_handlers (<[hConn h := h]> (handlers (disp w)))
               (set_handlersWg (S (handlersWg (disp w))) (disp w));
     trace := trace w ++ [EvLogDebug (FromTUN (bufId (pktData pkt)));
                          EvCreated h;
                          EvHandlePacket (hTask h) (bufId (pktData pkt))];
     tasks := <[hTask h := hConn h]> (tasks w);
     nextTask := S (nextTask w) |}.

(** The world after [tcp] gave up on a packet because its context was
    cancelled: the error is logged and nothing else happened. *)
Definition afterCancel (pkt : L4Packet) (w : World) : World :=
  withTrace [EvLogDebug (FromTUN (bufId (pktData pkt))); EvLogError ctx_Err]
    (disp w) w.

(** The world after [tcp] answered a packet of an unknown flow with a reset,
    created the handler of the flow and handed it the packet. *)
Definition afterResetAndCreate (pkt : L4Packet) (w : World) : World :=
  let h := newTCPHandler pkt w in
  {| disp := set_handlers (<[hConn h := h]> (handlers (disp w)))
               (set_handlersWg (S (handlersWg (disp w)))
                  (queued (Reset pkt) (disp w)));
     trace := trace w ++ [EvLogDebug (FromTUN (bufId (pktData pkt)));
                          EvSend (Reset pkt);
                          EvCreated h;
                          EvHandlePacket (hTask h) (bufId (pktData pkt))];
     tasks := <[hTask h := hConn h]> (tasks w);
     nextTask := S (nextTask w) |}.

(** What [tcp] does with a packet that has neither SYN nor RST and whose flow
    is unknown, by the cases of its select. *)
Definition resetOutcome (env : Env) (pkt : L4Packet) (w : World) : Result unit :=
  if (length (toTunCh (disp w)) <? toTunChCap)%nat then
    if ctxDone env && pickDone env
    then Ret tt (afterCancel pkt w)
    else Ret tt (afterResetAndCreate pkt w)
  else if ctxDone env then Ret tt (afterCancel pkt w)
  else Blocked.

(** Does a datagram go to the configured DNS address and port? *)
Definition toDNS (d : Dispatcher) (dg : L4Packet) : bool :=
  (DestinationPort (L4HeaderOf dg) =? dnsPort d)
  && net.Equal (Destination (IPHeader dg)) (dnsIP d).

(** The world after [udp] created a handler of kind [k] for the flow of a
    datagram and handed it the datagram. *)
Definition afterUDPCreate (k : HandlerKind) (dg : L4Packet) (w : World) : World :=
  let h := {| hKind := k; hConn := connIDOf unix.IPPROTO_UDP dg;
              hTask := nextTask w; closeRequested := false |} in
  {| disp := set_handlers (<[hConn h := h]> (handlers (disp w)))
               (set_handlersWg (S (handlersWg (disp w))) (disp w));
     trace := trace w ++ [EvLogDebug (FromTUN (bufId (pktData dg)));
                          EvCreated h;
                          EvNewDatagram (hTask h) (bufId (pktData dg))];
     tasks := <[hTask h := hConn h]> (tasks w);
     nextTask := S (nextTask w) |}.

(** The events that happened between two worlds. *)
Definition newEvents (w w' : World) : list Event :=
  drop (length (trace w)) (trace w').

Definition isPut (e : Event) : bool :=
  match e with EvPut _ => true | _ => false end.

Definition isHandOver (e : Event) : bool :=
  match e with EvHandlePacket _ _ | EvNewDatagram _ _ => true | _ => false end.

(** How often a buffer went back to the pool, and how often a packet was
    handed to a flow handler. *)
Definition puts (evs : list Event) : nat := length (filter isPut evs).
Definition handOvers (evs : list Event) : nat := length (filter isHandOver evs).

(** [handlePacket] returns because the reassembler kept the buffer as a
    fragment of a packet that is not complete yet. *)
Definition pendingFragment (cfg : Config) (data : Data) (w : World) : bool :=
  match ParseHeader data with
  | None => false
  | Some ipHdr =>
      if PayloadLen ipHdr >? MTU cfg - HeaderLen ipHdr then false
      else if (Version ipHdr =? ipv4.Version) && isFragment ipHdr then
        match ConcatFragments cfg ipHdr data (fragmentMap (disp w)) with
        | (None, _) => true
        | (Some _, _) => false
        end
      else false
  end.

(** In its switch [handlePacket] passes the packet on to [tcp] or [udp]. *)
Definition forwarded (ipHdr : Header) (data : Data) : bool :=
  (L4Protocol ipHdr =? unix.IPPROTO_TCP)
  || ((L4Protocol ipHdr =? unix.IPPROTO_UDP)
      && negb (isLinkLocal (Destination ipHdr))
      && negb (isSubnetZero (Destination ipHdr))
      && negb (blocked (SourcePort (l4 data)) || blocked (DestinationPort (l4 data)))).

(** The world after [Stop] ran alone with the barrier at zero. *)
Definition afterStop (w : World) : World :=
  withTrace [EvStoreClosing 1;
             EvCloseAll (hTask <$> (map_to_list (handlers (disp w))).*2);
             EvWaitReturned; EvStoreClosing 2; EvDevClose]
    (set_dev {| devClosed := true |}
       (set_closing 2 (set_handlers (signalClose <$> handlers (disp w)) (disp w))))
    w.

(** ** The dispatcher at run time

    [Stop], the device reader, the device writer and the tasks of the flow
    handlers run concurrently.  A system state is the shared world together
    with the position of each of them; a step runs one statement of one of
    them. *)

Inductive LoopPC :=
| AtGuard
| InBody
| LoopDone.

Record System := mkSystem {
  world : World;
  stopPC : nat;
  readerPC : LoopPC;
  writerDone : bool
}.

(** [stopPC] counts the statements of [Stop] that have run (0: [Stop] has
    not been invoked).  The reader is at its loop condition, inside its loop
    body (reading from the device), or has returned.  A packet is handled
    in one step: [handlePacket] reads neither the shutdown flag nor the
    device, and it reaches the registry only through the registry's locked
    operations. *)

Inductive Step :=
| StopStep
| TaskExit (t : nat)
| ReaderGuard
| ReaderRead (env : Env) (rd : ReadOutcome)
| WriterStep (env : Env) (writeErr : option error).

Definition withWorld (w : World) (s : System) : System :=
  {| world := w; stopPC := stopPC s; readerPC := readerPC s;
     writerDone := writerDone s |}.

(** One step; [None] when the step cannot run in this state (the statement
    blocks, the task does not exist, the loop has returned) or panics. *)
Definition sysStep (cfg : Config) (s : System) (l : Step) : option System :=
  match l with
  | StopStep =>
      match StopStatements !! stopPC s with
      | None => None
      | Some stmt =>
          match stmt (world s) with
          | Ret _ w' =>
              Some {| world := w'; stopPC := S (stopPC s);
                      readerPC := readerPC s; writerDone := writerDone s |}
          | _ => None
          end
      end
  | TaskExit t =>
      match taskExit t (world s) with
      | Ret _ w' => Some (withWorld w' s)
      | _ => None
      end
  | ReaderGuard =>
      match readerPC s with
      | AtGuard =>
          match readerGuard (world s) with
          | Ret b w' =>
              Some {| world := w'; stopPC := stopPC s;
                      readerPC := if b then InBody else LoopDone;
                      writerDone := writerDone s |}
          | _ => None
          end
      | _ => None
      end
  | ReaderRead env rd =>
      match readerPC s with
      | InBody =>
          match readerBody cfg env rd (world s) with
          | Ret r w' =>
              Some {| world := w'; stopPC := stopPC s;
                      readerPC := match r with
                                  | Continue => AtGuard
                                  | Return _ => LoopDone
                                  end;
                      writerDone := writerDone s |}
          | _ => None
          end
      | _ => None
      end
  | WriterStep env writeErr =>
      if writerDone s then None
      else
        match writerIteration env writeErr (world s) with
        | Ret r w' =>
            Some {| world := w'; stopPC := stopPC s; readerPC := readerPC s;
                    writerDone := match r with
                                  | Continue => false
                                  | Return _ => true
                                  end |}
        | _ => None
        end
  end.

Fixpoint run (cfg : Config) (steps : list Step) (s : System) : option System :=
  match steps with
  | [] => Some s
  | l :: rest =>
      match sysStep cfg s l with
      | Some s' => run cfg rest s'
      | None => None
      end
  end.

(** The system when [Run] has started its loops and [Stop] has not been
    invoked. *)
Definition startSystem (w : World) : System :=
  {| world := w; stopPC := 0; readerPC := AtGuard; writerDone := false |}.

(** The completion barrier counts at least the handler tasks that run. *)
Definition barrierCovers (w : World) : Prop :=
  (size (tasks w) <= handlersWg (disp w))%nat.

(** The shutdown flag is [running], the device is open, and the completion
    barrier counts every running handler task. *)
Definition wellStarted (w : World) : Prop :=
  closing (disp w) = 0 /\
  devClosed (dev (disp w)) = false /\
  barrierCovers w.

(** The statement of [Stop] an event belongs to, if any. *)
Definition stopPhase (e : Event) : option nat :=
  match e with
  | EvStoreClosing 1 => Some 1%nat
  | EvCloseAll _ => Some 2%nat
  | EvWaitReturned => Some 3%nat
  | EvStoreClosing 2 => Some 4%nat
  | EvDevClose => Some 5%nat
  | _ => None
  end.

(** The value of the shutdown flag after [pc] statements of [Stop]. *)
Definition flagAfter (pc : nat) : Z :=
  if (pc <? 1)%nat then 0 else if (pc <? 4)%nat then 1 else 2.

Definition isRead (l : Step) : bool :=
  match l with ReaderRead _ _ => true | _ => false end.

(** What the packet path and the writer leave alone: the shutdown flag and
    the device; they add events that are not [Stop]'s, end no task, and keep
    the completion barrier at or above the number of running tasks. *)
Definition frames (w w' : World) : Prop :=
  closing (disp w') = closing (disp w) /\
  dev (disp w') = dev (disp w) /\
  (exists evs, trace w' = trace w ++ evs /\
               Forall (fun e => stopPhase e = None) evs) /\
  dom (tasks w) ⊆ dom (tasks w') /\
  (size (tasks w') + handlersWg (disp w) <= size (tasks w) + handlersWg (disp w'))%nat.

(** What holds once [Stop] has been invoked in a world [w0] whose running
    handler tasks were [live]: the flag and the device follow the position
    of [Stop]; the barrier counts every running task; [Stop]'s events so far
    are its statements in order; and each task of [live] is still running or
    has exited, the latter for all of them once [Wait] has returned. *)
Definition StopInv (w0 : World) (live : gset nat) (s : System) : Prop :=
  (1 <= stopPC s <= 5)%nat /\
  closing (disp (world s)) = flagAfter (stopPC s) /\
  devClosed (dev (disp (world s))) = (5 <=? stopPC s)%nat /\
  barrierCovers (world s) /\
  exists evs,
    trace (world s) = trace w0 ++ evs /\
    omap stopPhase evs = seq 1 (stopPC s) /\
    (forall t, t ∈ live -> t ∈ dom (tasks (world s)) \/ EvTaskExit t ∈ evs) /\
    ((3 <= stopPC s)%nat -> forall t, t ∈ live -> EvTaskExit t ∈ evs).

(** [Stop] runs its statements one after the other. *)
Fixpoint runAll (stmts : list (M unit)) : M unit :=
  match stmts with
  | [] => mret tt
  | stmt :: rest => stmt ;; runAll rest
  end.

(** How many packets the reader may still handle once the flag is closed:
    the one it is reading, if any. *)
Definition readsLeft (pc : LoopPC) : nat :=
  match pc with InBody => 1 | _ => 0 end.

(** ** Callers racing on the registry

    Modelled from the spec: the locking of [connpool.Pool] (sections 4.4 and
    5).  The registry map is lock-protected: a call of get-or-create takes
    the lock, looks the flow up, on a miss runs its factory and stores the
    handler, releases the lock and returns.  A factory that fails made no
    handler: nothing is stored and its caller returns the error.  Each
    caller is at one of these points; a step lets one caller move.  No
    handler terminates while the callers race. *)

Inductive GetPC :=
| Waiting
| Locked
| Missed
| Made (r : Handler + error)
| Unlocking (r : Handler + error)
| Returned (r : Handler + error).

Record Race := mkRace {
  registry : gmap ConnID Handler;
  lockHolder : option nat;
  callers : list GetPC;
  invocations : list (nat * nat);
  nextInstance : nat
}.

(** [invocations] lists the runs of a factory so far, in order: the caller
    whose factory ran and the number of the instance it was asked for.  The
    run of caller [i] for instance [k] returned [mk i k]. *)
Definition factoryCalls (st : Race) : nat := length (invocations st).

(** [mk i k] is what the factory supplied by caller [i] returns when it
    creates instance [k]. *)
Definition raceStep (F : ConnID) (mk : nat -> nat -> Handler + error)
    (i : nat) (st : Race) : option Race :=
  match callers st !! i with
  | None => None
  | Some Waiting =>
      match lockHolder st with
      | Some _ => None
      | None =>
          Some {| registry := registry st; lockHolder := Some i;
                  callers := <[i := Locked]> (callers st);
                  invocations := invocations st;
                  nextInstance := nextInstance st |}
      end
  | Some Locked =>
      Some {| registry := registry st; lockHolder := lockHolder st;
              callers := <[i := match registry st !! F with
                                | Some h => Unlocking (inl h)
                                | None => Missed
                                end]> (callers st);
              invocations := invocations st;
              nextInstance := nextInstance st |}
  | Some Missed =>
      Some {| registry := registry st; lockHolder := lockHolder st;
              callers := <[i := Made (mk i (nextInstance st))]> (callers st);
              invocations := invocations st ++ [(i, nextInstance st)];
              nextInstance := S (nextInstance st) |}
  | Some (Made r) =>
      Some {| registry := match r with
                          | inl h => <[F := h]> (registry st)
                          | inr _ => registry st
                          end;
              lockHolder := lockHolder st;
              callers := <[i := Unlocking r]> (callers st);
              invocations := invocations st;
              nextInstance := nextInstance st |}
  | Some (Unlocking r) =>
      Some {| registry := registry st; lockHolder := None;
              callers := <[i := Returned r]> (callers st);
              invocations := invocations st;
              nextInstance := nextInstance st |}
  | Some (Returned _) => None
  end.

(** A schedule names the caller that moves at each step. *)
Fixpoint raceRun (F : ConnID) (mk : nat -> nat -> Handler + error)
    (schedule : list nat) (st : Race) : option Race :=
  match schedule with
  | [] => Some st
  | i :: rest =>
      match raceStep F mk i st with
      | Some st' => raceRun F mk rest st'
      | None => None
      end
  end.

(** [n] callers have called get-or-create and none has the lock yet. *)
Definition raceStart (reg : gmap ConnID Handler) (n : nat) : Race :=
  {| registry := reg; lockHolder := None; callers := replicate n Waiting;
     invocations := []; nextInstance := 0 |}.

Definition inCritical (pc : GetPC) : Prop :=
  match pc with
  | Locked | Missed | Made _ | Unlocking _ => True
  | Waiting | Returned _ => False
  end.

(** The steps a caller still has to take. *)
Definition stepsLeft (pc : GetPC) : nat :=
  match pc with
  | Waiting => 5
  | Locked => 4
  | Missed => 3
  | Made _ => 2
  | Unlocking _ => 1
  | Returned _ => 0
  end.

Definition totalLeft (st : Race) : nat := sum_list (stepsLeft <$> callers st).

(** What the position of caller [i] says about the registry and the runs
    of the factories: before its factory ran the caller has no run; with
    its factory's result in hand the flow has no entry yet; and past the
    critical section it holds the handler stored for the flow, or the error
    of its own factory. *)
Definition callerOK (F : ConnID) (mk : nat -> nat -> Handler + error)
    (st : Race) (i : nat) (pc : GetPC) : Prop :=
  match pc with
  | Waiting | Locked => i ∉ (invocations st).*1
  | Missed => (i ∉ (invocations st).*1) /\ registry st !! F = None
  | Made r =>
      registry st !! F = None /\
      exists k, (i, k) ∈ invocations st /\ r = mk i k
  | Unlocking r | Returned r =>
      match r with
      | inl h => registry st !! F = Some h
      | inr e => exists k, (i, k) ∈ invocations st /\ mk i k = inr e
      end
  end.

(** The lock is held by exactly the caller inside the critical section;
    every caller is where [callerOK] says; no caller ran its factory twice;
    while the flow has no entry every run so far failed, except that of the
    caller about to store its handler; and the handler stored for the flow
    was made by one run, the only one that did not fail. *)
Definition RaceInv (F : ConnID) (mk : nat -> nat -> Handler + error)
    (st : Race) : Prop :=
  (forall i pc, callers st !! i = Some pc -> inCritical pc -> lockHolder st = Some i) /\
  (forall i, lockHolder st = Some i ->
             exists pc, callers st !! i = Some pc /\ inCritical pc) /\
  (forall i pc, callers st !! i = Some pc -> callerOK F mk st i pc) /\
  NoDup (invocations st).*1 /\
  (registry st !! F = None ->
   forall j k, (j, k) ∈ invocations st ->
               (exists e, mk j k = inr e) \/ callers st !! j = Some (Made (mk j k))) /\
  (forall h, registry st !! F = Some h ->
             exists j k, (j, k) ∈ invocations st /\ mk j k = inl h /\
                         forall j' k', (j', k') ∈ invocations st ->
                                       (j', k') = (j, k) \/ exists e, mk j' k' = inr e).

(** ** Sample inputs *)

(** A reassembler at the first fragment of a packet: it keeps the buffer
    under the fragmentation ID and reports that the packet is incomplete. *)
Definition keepFragment (h : Header) (data : Data) (fm : gmap Z (list Data))
    : option Data * gmap Z (list Data) :=
  (None, <[ID h := default [] (fm !! ID h) ++ [data]]> fm).

Definition exampleConfig : Config :=
  {| MTU := 1500; ConcatFragments := keepFragment |}.

Definition idleEnv : Env :=
  {| ctxDone := false; pickDone := false; dnsInterceptorFails := false |}.

Definition cancelledEnv : Env :=
  {| ctxDone := true; pickDone := true; dnsInterceptorFails := false |}.

Definition freshWorld : World :=
  {| disp := NewDispatcher {| devClosed := false |};
     trace := []; tasks := ∅; nextTask := 0 |}.

(** An IPv4 header from 10.0.0.1. *)
Definition sampleHeader (proto : Z) (dst : IP) (payloadLen flags : Z) : Header :=
  {| Version := 4; HeaderLen := 20; PayloadLen := payloadLen;
     L4Protocol := proto; Source := [10; 0; 0; 1]; Destination := dst;
     Flags := flags; FragmentOffset := 0; ID := 7 |}.

Definition sampleData (hdr : Header) (srcPort dstPort : Z) (syn rst : bool) : Data :=
  {| bufId := 1; ParseHeader := Some hdr;
     l4 := {| SourcePort := srcPort; DestinationPort := dstPort;
              SYN := syn; RST := rst |} |}.

(** A TCP segment of 2000 bytes. *)
Definition hugeHeader : Header := sampleHeader 6 [10; 1; 2; 3] 2000 0.
Definition hugeData : Data := sampleData hugeHeader 40000 80 true false.

(** A GRE packet (protocol 47) of 2000 bytes, and a small one. *)
Definition hugeGreHeader : Header := sampleHeader 47 [10; 1; 2; 3] 2000 0.
Definition hugeGreData : Data := sampleData hugeGreHeader 0 0 false false.
Definition greHeader : Header := sampleHeader 47 [10; 1; 2; 3] 100 0.
Definition greData : Data := sampleData greHeader 0 0 false false.

(** A NetBIOS name query to 10.1.2.3, and one to the link-local
    169.254.1.1. *)
Definition netbiosHeader : Header := sampleHeader 17 [10; 1; 2; 3] 100 0.
Definition netbiosData : Data := sampleData netbiosHeader 137 137 false false.
Definition netbiosLinkLocalHeader : Header := sampleHeader 17 [169; 254; 1; 1] 100 0.
Definition netbiosLinkLocalData : Data :=
  sampleData netbiosLinkLocalHeader 137 137 false false.

(** UDP datagrams to 10.1.0.0 and to 169.254.0.0, port 53. *)
Definition subnetZeroHeader : Header := sampleHeader 17 [10; 1; 0; 0] 100 0.
Definition subnetZeroData : Data := sampleData subnetZeroHeader 40000 53 false false.
Definition linkLocalZeroHeader : Header := sampleHeader 17 [169; 254; 0; 0] 100 0.
Definition linkLocalZeroData : Data := sampleData linkLocalZeroHeader 40000 53 false false.

(** An ICMP echo request and an ICMPv6 packet. *)
Definition icmpHeader : Header := sampleHeader 1 [10; 1; 2; 3] 64 0.
Definition icmpData : Data := sampleData icmpHeader 0 0 false false.
Definition icmp6Header : Header := sampleHeader 58 [10; 1; 2; 3] 64 0.
Definition icmp6Data : Data := sampleData icmp6Header 0 0 false false.

(** TCP segments to 10.1.2.3:80: a RST, a plain ACK and a SYN. *)
Definition tcpHeader : Header := sampleHeader 6 [10; 1; 2; 3] 100 0.
Definition rstData : Data := sampleData tcpHeader 40000 80 false true.
Definition rstPacket : L4Packet := PacketFromData tcpHeader rstData.
Definition ackPacket : L4Packet :=
  PacketFromData tcpHeader (sampleData tcpHeader 40000 80 false false).
Definition synData : Data := sampleData tcpHeader 40000 80 true false.

(** The first fragment of an IPv4 datagram: the more-fragments flag is set. *)
Definition fragmentHeader : Header := sampleHeader 17 [10; 1; 2; 3] 100 1.
Definition fragmentData : Data := sampleData fragmentHeader 40000 53 false false.

(** A buffer whose content does not parse as an IP header. *)
Definition garbageData : Data :=
  {| bufId := 2; ParseHeader := None;
     l4 := {| SourcePort := 0; DestinationPort := 0; SYN := false; RST := false |} |}.

(** A world with the DNS redirect configured at 10.0.0.53:53, and a DNS
    query to it. *)
Definition dnsWorld : World :=
  withTrace [] (set_dns [10; 0; 0; 53] 53 None (disp freshWorld)) freshWorld.

Definition dnsQuery : L4Packet :=
  PacketFromData (sampleHeader 17 [10; 0; 0; 53] 60 0)
    (sampleData (sampleHeader 17 [10; 0; 0; 53] 60 0) 40000 53 false false).

(** The world in which one TCP flow has a handler: [freshWorld] after the
    SYN of the flow was handled. *)
Definition busyWorld : World :=
  match handlePacket exampleConfig idleEnv synData freshWorld with
  | Ret _ w => w
  | _ => freshWorld
  end.

(** [Stop] from its second statement on, with the task of the handler
    ending before the wait. *)
Definition stopSchedule : list Step :=
  [StopStep; TaskExit 0; StopStep; StopStep; StopStep].

(** The system after the reader handled the SYN of a new flow. *)
Definition afterFirstRead : System :=
  default (startSystem freshWorld)
    (run exampleConfig [ReaderGuard; ReaderRead idleEnv (ReadPacket synData)]
       (startSystem freshWorld)).

(** A flow and a factory that creates a TCP handler for it. *)
Definition sampleFlow : ConnID :=
  NewConnID unix.IPPROTO_TCP [10; 0; 0; 1] [10; 1; 2; 3] 40000 80.

Definition sampleFactory (i k : nat) : Handler + error :=
  inl {| hKind := TCPHandler; hConn := sampleFlow; hTask := k;
         closeRequested := false |}.

Definition sampleHandler : Handler :=
  {| hKind := TCPHandler; hConn := sampleFlow; hTask := 0;
     closeRequested := false |}.

(** Two callers after their race: both hold the one handler, made by the
    factory of caller 1. *)
Definition raceEnd : Race :=
  {| registry := {[ sampleFlow := sampleHandler ]}; lockHolder := None;
     callers := [Returned (inl sampleHandler); Returned (inl sampleHandler)];
     invocations := [(1%nat, 0%nat)]; nextInstance := 1 |}.

(** The error of the factory of [tcp] for a packet with RST set. *)
Definition rstError : error :=
  errors_New "dispatching got RST without connection workflow".

(** Two callers of [tcp] racing on one flow: caller 0 with a RST, whose
    factory fails, and caller 1 with a SYN, whose factory makes a handler. *)
Definition rstThenSyn (i k : nat) : Handler + error :=
  match i with
  | O => inr rstError
  | _ => sampleFactory i k
  end.

(** Their race when caller 0 goes first: both factories ran. *)
Definition rstRaceEnd : Race :=
  {| registry := {[ sampleFlow := {| hKind := TCPHandler; hConn := sampleFlow;
                                     hTask := 1; closeRequested := false |} ]};
     lockHolder := None;
     callers := [Returned (inr rstError);
                 Returned (inl {| hKind := TCPHandler; hConn := sampleFlow;
                                  hTask := 1; closeRequested := false |})];
     invocations := [(0%nat, 0%nat); (1%nat, 1%nat)]; nextInstance := 2 |}.

(** ** Vocabulary of the invariants *)

Definition protoOf (id : ConnID) : Z := id.1.1.1.1.

(** A registry entry whose handler is of the kind its flow needs: the
    handler of a TCP flow takes packets, the handler of a UDP flow takes
    datagrams. *)
Definition kindFits (id : ConnID) (h : Handler) : Prop :=
  (protoOf id = unix.IPPROTO_TCP -> hKind h = TCPHandler) /\
  (protoOf id = unix.IPPROTO_UDP -> hKind h <> TCPHandler).

Definition wellKinded (w : World) : Prop :=
  map_Forall kindFits (handlers (disp w)).

(** What handling one packet from [src] may change: every registered
    handler stays as it is, at most one is added, and at most one packet,
    addressed to [src], is added at the end of the outbound queue. *)
Definition packetEffect (src : IP) (w w' : World) : Prop :=
  handlers (disp w) ⊆ handlers (disp w') /\
  (size (handlers (disp w')) <= S (size (handlers (disp w))))%nat /\
  exists l, toTunCh (disp w') = toTunCh (disp w) ++ l /\
            (length l <= 1)%nat /\
            Forall (fun p => addressedTo p = src) l.

(** The sender of the packet in a buffer, as far as its header parses. *)
Definition senderOf (data : Data) : IP :=
  match ParseHeader data with
  | Some ipHdr => Source ipHdr
  | None => []
  end.

(** The code of the destination-unreachable reply with which the protocol
    switch of [handlePacket] answers a packet, if it answers with one. *)
Definition switchReply (ipHdr : Header) (data : Data) : option UnreachableCode :=
  let proto := L4Protocol ipHdr in
  if proto =? unix.IPPROTO_TCP then None
  else if proto =? unix.IPPROTO_UDP then
    if isLinkLocal (Destination ipHdr) then None
    else if isSubnetZero (Destination ipHdr) then Some HostUnreachable
    else if blocked (SourcePort (l4 data)) || blocked (DestinationPort (l4 data))
    then Some PortUnreachable
    else None
  else if (proto =? unix.IPPROTO_ICMP) || (proto =? unix.IPPROTO_ICMPV6) then None
  else Some ProtocolUnreachable.

(** The header and code of the reply [handlePacket] queues for a buffer:
    must-fragment before the switch, the reply of the switch after it. *)
Definition unreachableReply (cfg : Config) (data : Data) (w : World)
    : option (Header * UnreachableCode) :=
  match ParseHeader data with
  | None => None
  | Some ipHdr =>
      if PayloadLen ipHdr >? MTU cfg - HeaderLen ipHdr
      then Some (ipHdr, MustFragment)
      else match entersSwitch cfg data w with
           | Some (h, data', _) =>
               match switchReply h data' with
               | Some code => Some (h, code)
               | None => None
               end
           | None => None
           end
  end.

(** What the writer does with the packets it takes from the queue when the
    device accepts them: a debug line, the write, the release. *)
Definition written (pkts : list Packet) : list Event :=
  flat_map (fun p => [EvLogDebug (ToTUN p); EvDevWrite p true; EvSoftRelease p]) pkts.

(** ** [AddSubnets] of dispatcher.go *)

(** [net.IPNet]: an address and a mask. *)
Record IPNet := mkIPNet { netIP : IP; netMask : IP }.

(** Modelled from the spec: the device's [AddSubnet] (section 6,
    [addSubnet(net)]) installs a route to a subnet or fails.  A device is
    given by the routes it has; [accepts] decides, from them, whether the
    next one goes in.  [announced] are the subnets of the debug lines
    written so far. *)
Record Routes := mkRoutes { installed : list IPNet; announced : list IPNet }.

Definition dev_AddSubnet (accepts : list IPNet -> IPNet -> option error)
    (sn : IPNet) (r : Routes) : Routes * option error :=
  match accepts (installed r) sn with
  | Some err => (r, Some err)
  | None => ({| installed := installed r ++ [sn]; announced := announced r |}, None)
  end.

Fixpoint AddSubnets (accepts : list IPNet -> IPNet -> option error)
    (subnets : list IPNet) (r : Routes) : Routes * option error :=
  match subnets with
  | [] => (r, None)
  | sn :: rest =>
      let r := {| installed := installed r; announced := announced r ++ [sn] |} in
      match dev_AddSubnet accepts sn r with
      | (r, Some err) => (r, Some err)
      | (r, None) => AddSubnets accepts rest r
      end
  end.

(** ** Further sample inputs *)

(** The world in which the flow of [dnsQuery] has its DNS interceptor. *)
Definition dnsBusyWorld : World := afterUDPCreate DnsInterceptor dnsQuery dnsWorld.

(** A world whose outbound queue is full. *)
Definition fullWorld : World :=
  withTrace [] (set_toTunCh (replicate toTunChCap (Reset ackPacket)) (disp freshWorld))
    freshWorld.

(** A world with two replies waiting for the writer. *)
Definition twoQueued : list Packet :=
  [DestinationUnreachablePacket 1500 hugeHeader MustFragment; Reset ackPacket].

Definition queuedWorld : World :=
  withTrace [] (set_toTunCh twoQueued (disp freshWorld)) freshWorld.

(** A DNS query to 10.0.0.53 written as an IPv4-mapped IPv6 address. *)
Definition mappedQuery : L4Packet :=
  PacketFromData (sampleHeader 17 (net.v4InV6Prefix ++ [10; 0; 0; 53]) 60 0)
    (sampleData (sampleHeader 17 (net.v4InV6Prefix ++ [10; 0; 0; 53]) 60 0)
       40000 53 false false).

(** A DNS redirect at the IPv6 address fd00::53, and a query to it. *)
Definition v6Address : IP := [253; 0; 0; 0; 0; 0; 0; 0; 0; 0; 0; 0; 0; 0; 0; 83].

Definition v6DnsWorld : World :=
  withTrace [] (set_dns v6Address 53 None (disp freshWorld)) freshWorld.

Definition v6Header : Header :=
  {| Version := 6; HeaderLen := 40; PayloadLen := 60; L4Protocol := 17;
     Source := [253; 0; 0; 0; 0; 0; 0; 0; 0; 0; 0; 0; 0; 0; 0; 1];
     Destination := v6Address; Flags := 0; FragmentOffset := 0; ID := 0 |}.

Definition v6Query : L4Packet :=
  PacketFromData v6Header (sampleData v6Header 40000 53 false false).

(** A device that refuses a subnet it already routes to. *)
Definition noDuplicates (routes : list IPNet) (sn : IPNet) : option error :=
  if bool_decide (netIP sn ∈ netIP <$> routes) then Some io_Err else None.

Definition subnetA : IPNet := {| netIP := [10; 1; 0; 0]; netMask := [255; 255; 0; 0] |}.
Definition subnetB : IPNet := {| netIP := [10; 2; 0; 0]; netMask := [255; 255; 0; 0] |}.

(** * Shell quoting (pkg/client/logging/shellstring.go)

    ** Go strings

    A Go string is a sequence of bytes; its indices and lengths are of type
    [int]. *)

Definition gostring := list ascii.

Definition str (s : string) : gostring := list_ascii_of_string s.

(** [len(s)] *)
Definition len (s : gostring) : Z := Z.of_nat (length s).

(** [s[:j]] and [s[i:]]; a bound outside [0..len(s)] panics ([None]). *)
Definition sliceTo (s : gostring) (j : Z) : option gostring :=
  if (0 <=? j) && (j <=? len s) then Some (take (Z.to_nat j) s) else None.

Definition sliceFrom (s : gostring) (i : Z) : option gostring :=
  if (0 <=? i) && (i <=? len s) then Some (drop (Z.to_nat i) s) else None.

(** [strings.IndexByte(s, c)]: the index of the first [c] in [s], or -1. *)
Fixpoint strings_IndexByte (s : gostring) (c : ascii) : Z :=
  match s with
  | [] => -1
  | x :: rest =>
      if Ascii.eqb x c then 0
      else let i := strings_IndexByte rest c in
           if i <? 0 then -1 else i + 1
  end.

(** [strings.Index(s, sep)] for a separator of one byte. *)
Definition strings_Index (s : gostring) (sep : ascii) : Z := strings_IndexByte s sep.

(** [strings.LastIndex(s, sep)] for a separator of one byte: the index of
    the last [sep] in [s], or -1. *)
Fixpoint strings_LastIndex (s : gostring) (sep : ascii) : Z :=
  match s with
  | [] => -1
  | x :: rest =>
      let i := strings_LastIndex rest sep in
      if 0 <=? i then i + 1
      else if Ascii.eqb x sep then 0 else -1
  end.

Definition quote : ascii := "'"%char.
Definition backslash : ascii := "\"%char.
Definition space : ascii := " "%char.

(** ** shellstring.go *)

(** [\w] in the syntax of Go's [regexp]: the class [0-9A-Za-z_]. *)
Definition isWordChar (c : ascii) : bool :=
  let n := nat_of_ascii c in
  ((48 <=? n) && (n <=? 57) || (65 <=? n) && (n <=? 90)
   || (97 <=? n) && (n <=? 122) || (n =? 95))%nat.

(** The class [[^\w!%+,\-./:=@^]] of the pattern [escape]: the bytes that
    have to be quoted.  The pattern is matched rune by rune; a rune outside
    ASCII, or a byte that is no valid UTF-8, is never in the negated set,
    so it matches the class like any byte above 127 here. *)
Definition escapeClass (c : ascii) : bool :=
  negb (isWordChar c || existsb (Ascii.eqb c) (str "!%+,-./:=@^")).

(** [escape.MatchString(s)]: some character of [s] is in the class. *)
Definition escape_MatchString (s : gostring) : bool := existsb escapeClass s.

(** The [for] loop of [quoteArg], for the current values of [arg], [qp] and
    the builder [b]; [quoteArg] is the function itself, for the segments
    between the quotes.  [None] stands for a call that does not return: a
    slice out of range panics, and [n] bounds the iterations. *)
Fixpoint quoteLoop (quoteArg : gostring -> option gostring) (n : nat)
    (arg : gostring) (qp : Z) (b : gostring) : option gostring :=
  match n with
  | O => None
  | S n =>
      b ← (if 0 <? qp
           then pre ← sliceTo arg qp; q ← quoteArg pre; Some (b ++ q)
           else Some b);
      let b := b ++ [backslash; quote] in
      let qp := qp + 1 in
      if len arg <=? qp then Some b
      else
        arg ← sliceFrom arg qp;
        let qp := strings_IndexByte arg quote in
        if qp <? 0 then
          if 0 <? len arg then q ← quoteArg arg; Some (b ++ q) else Some b
        else quoteLoop quoteArg n arg qp b
  end.

(** [quoteArg] with a bound [fuel] on the depth of its calls. *)
Fixpoint quoteArgN (fuel : nat) (arg : gostring) : option gostring :=
  match fuel with
  | O => None
  | S fuel =>
      if bool_decide (arg = []) then Some [quote; quote]
      else if negb (escape_MatchString arg) then Some arg
      else
        let qp := strings_IndexByte arg quote in
        if qp <? 0 then Some ([quote] ++ arg ++ [quote])
        else quoteLoop (quoteArgN fuel) (length arg) arg qp []
  end.

Definition quoteArg (arg : gostring) : option gostring :=
  quoteArgN (S (length arg)) arg.

(** [ShellString(exe, args)]; the loop over [args] with the builder [b]. *)
Fixpoint ShellString_loop (args : list gostring) (b : gostring) : option gostring :=
  match args with
  | [] => Some b
  | a :: rest => q ← quoteArg a; ShellString_loop rest (b ++ [space] ++ q)
  end.

Definition ShellString (exe : gostring) (args : list gostring) : option gostring :=
  q ← quoteArg exe; ShellString_loop args q.

(** [ShellArgsString(args)]; the loop from index [i] on. *)
Fixpoint ShellArgsString_loop (i : Z) (args : list gostring) (b : gostring)
    : option gostring :=
  match args with
  | [] => Some b
  | a :: rest =>
      let b := if 0 <? i then b ++ [space] else b in
      q ← quoteArg a; ShellArgsString_loop (i + 1) rest (b ++ q)
  end.

Definition ShellArgsString (args : list gostring) : option gostring :=
  ShellArgsString_loop 0 args [].

(** ** The quoting as the comment of [quoteArg] describes it

    The string is split on single quotes, each segment between them is
    quoted separately, and each single quote is escaped. *)

(** [strings.Split(s, sep)] for a separator of one byte. *)
Fixpoint splitOn (c : ascii) (s : gostring) : list gostring :=
  match s with
  | [] => [[]]
  | x :: rest =>
      if Ascii.eqb x c then [] :: splitOn c rest
      else match splitOn c rest with
           | seg :: segs => (x :: seg) :: segs
           | [] => [[x]]
           end
  end.

Definition quoteSegment (seg : gostring) : gostring :=
  if bool_decide (seg = []) then []
  else if negb (escape_MatchString seg) then seg
  else [quote] ++ seg ++ [quote].

Fixpoint joinEscaped (segs : list gostring) : gostring :=
  match segs with
  | [] => []
  | [seg] => seg
  | seg :: rest => seg ++ [backslash; quote] ++ joinEscaped rest
  end.

Definition quoteBySegments (arg : gostring) : gostring :=
  if bool_decide (arg = []) then [quote; quote]
  else if negb (escape_MatchString arg) then arg
  else joinEscaped (quoteSegment <$> splitOn quote arg).

(** The segments joined by single quotes again. *)
Fixpoint joinQuotes (segs : list gostring) : gostring :=
  match segs with
  | [] => []
  | [seg] => seg
  | seg :: rest => seg ++ [quote] ++ joinQuotes rest
  end.

(** The arguments, each quoted and preceded by a space. *)
Definition rendered (args : list gostring) : gostring :=
  concat ((fun a => space :: quoteBySegments a) <$> args).

(** ** Reading a command line back

    The word splitting of the POSIX shell, for lines made of literal
    characters, single-quoted strings and backslash escapes: a single quote
    opens a string that runs to the next single quote, a backslash makes the
    next character literal, and a space ends a word.  Any other character
    that the shell gives a meaning to outside quotes is refused. *)

Inductive ShMode := Unquoted | SingleQuoted.

(** The characters with a meaning to the shell when they are not quoted:
    the operators, the expansions, the double quote (34), the backquote
    (96), tab (9) and newline (10), and the characters of patterns,
    comments and tilde expansion. *)
Definition shSpecial (c : ascii) : bool :=
  existsb (Ascii.eqb c) (str "|&;<>()$*?[#~")
  || existsb (Nat.eqb (nat_of_ascii c)) [34; 96; 9; 10]%nat.

Definition addChar (cur : option gostring) (c : ascii) : option gostring :=
  Some (default [] cur ++ [c]).

(** The word being read, after the characters [seg] were added to it. *)
Definition extend (cur : option gostring) (seg : gostring) : option gostring :=
  match seg with
  | [] => cur
  | _ => Some (default [] cur ++ seg)
  end.

(** [cur] is the word being read, [None] between words. *)
Fixpoint shLex (mode : ShMode) (cur : option gostring) (s : gostring)
    : option (list gostring) :=
  match s with
  | [] =>
      match mode with
      | Unquoted => Some (option_list cur)
      | SingleQuoted => None
      end
  | c :: rest =>
      match mode with
      | SingleQuoted =>
          if Ascii.eqb c quote then shLex Unquoted cur rest
          else shLex SingleQuoted (addChar cur c) rest
      | Unquoted =>
          if Ascii.eqb c space then
            ws ← shLex Unquoted None rest; Some (option_list cur ++ ws)
          else if Ascii.eqb c quote then
            shLex SingleQuoted (Some (default [] cur)) rest
          else if Ascii.eqb c backslash then
            match rest with
            | c' :: rest' =>
                if (nat_of_ascii c' =? 10)%nat then None
                else shLex Unquoted (addChar cur c') rest'
            | [] => None
            end
          else if shSpecial c then None
          else shLex Unquoted (addChar cur c) rest
      end
  end.

Definition shWords (line : gostring) : option (list gostring) :=
  shLex Unquoted None line.

(** * The package of a caller (test helper [callerPackage])

    [name] is what [runtime.FuncForPC(pc).Name()] gives for the caller
    [skip] frames up: the qualified name of a function, such as
    foo.bar/baz/pkg.func1.func2.  The result is [name] cut at the first dot
    after the last slash; [None] is a slice out of range, which panics. *)

Definition slashChar : ascii := "/"%char.
Definition dotChar : ascii := "."%char.

Definition callerPackage (name : gostring) : option gostring :=
  let slash := strings_LastIndex name slashChar in
  tail ← sliceFrom name slash;
  let dot := slash + strings_Index tail dotChar in
  sliceTo name dot.

(** ** Sample strings *)

Definition sampleArgs : list gostring :=
  [str "hello world"; str ""; str "don't"; str "a=b"].

Definition sampleFuncName : gostring := str "foo.bar/baz/pkg.func1.func2".

(** * Properties *)

(** Running the straight-line part of a computation. *)
Ltac run_M :=
  unfold mbind, M_bind, mret, M_ret, dlog_Debugf, dlog_Error, DataPool_Put,
    emit, modifyD, getD; simpl.

Ltac break_match :=
  match goal with
  | H : context [match ?x with _ => _ end] |- _ =>
      lazymatch x with
      | context [match _ with _ => _ end] => fail
      | _ => destruct x eqn:?
      end
  end.

Lemma chanSend_room p w :
  hasRoom w ->
  chanSend p w = Ret tt (withTrace [EvSend p] (queued p (disp w)) w).
Proof.
  unfold hasRoom, chanSend. intros H.
  destruct (Nat.ltb_spec (length (toTunCh (disp w))) toTunChCap) as [_|Hge];
    [reflexivity | lia].
Qed.

Lemma chanSend_full p w : ~ hasRoom w -> chanSend p w = Blocked.
Proof.
  unfold hasRoom, chanSend. intros H.
  destruct (Nat.ltb_spec (length (toTunCh (disp w))) toTunChCap) as [Hlt|_];
    [contradiction | reflexivity].
Qed.

Lemma freshWorld_hasRoom : hasRoom freshWorld.
Proof. unfold hasRoom. simpl. unfold toTunChCap. lia. Defined.

(** A send followed by the deferred release. *)
Lemma send_then_put reply data w :
  hasRoom w ->
  (chanSend reply ;; DataPool_Put data) w =
    Ret tt (withTrace [EvSend reply; EvPut (bufId data)] (queued reply (disp w)) w).
Proof.
  intros Hroom. unfold mbind, M_bind. rewrite chanSend_room by assumption.
  unfold DataPool_Put, emit, withTrace. simpl. rewrite <- app_assoc. reflexivity.
Qed.

Lemma send_ret_put reply data w :
  (r ← (chanSend reply ;; mret (Some data));
   match r with Some d => DataPool_Put d | None => mret tt end) w
  = (chanSend reply ;; DataPool_Put data) w.
Proof. unfold mbind, M_bind. destruct (chanSend reply w); reflexivity. Qed.

(** Up to its switch, [handlePacket] only consults the header and the
    reassembler. *)
Lemma handlePacket_switch cfg env data w ipHdr data' w1 :
  entersSwitch cfg data w = Some (ipHdr, data', w1) ->
  handlePacket cfg env data w =
    (r ← dispatchL4 cfg env ipHdr data';
     match r with Some d => DataPool_Put d | None => mret tt end) w1.
Proof.
  unfold entersSwitch, handlePacket, handlePacketBody.
  destruct (ParseHeader data) as [h|]; [|discriminate].
  destruct (PayloadLen h >? MTU cfg - HeaderLen h); [discriminate|].
  destruct ((Version h =? ipv4.Version) && isFragment h).
  - unfold mbind at 1 2 3. unfold M_bind at 1 2 3.
    destruct (concatFragments cfg h data w) as [[d1|] w2| |]; try discriminate.
    intros [= <- <- <-]. reflexivity.
  - intros [= <- <- <-]. reflexivity.
Qed.

Lemma concatFragments_run cfg h data w :
  concatFragments cfg h data w =
    Ret (ConcatFragments cfg h data (fragmentMap (disp w))).1
        (withTrace [] (set_fragmentMap
                         (ConcatFragments cfg h data (fragmentMap (disp w))).2
                         (disp w)) w).
Proof.
  unfold concatFragments. run_M.
  destruct (ConcatFragments cfg h data (fragmentMap (disp w))) as [r fm]. simpl.
  unfold withTrace. rewrite app_nil_r. reflexivity.
Qed.

Lemma blocked_true p : p ∈ [137; 138; 139] -> blocked p = true.
Proof.
  intros H. repeat (apply elem_of_cons in H as [->|H]); try reflexivity.
  inversion H.
Qed.

(** ** Packets that do not reach the protocol switch *)

(** X1: a buffer whose header does not parse is logged as an error and
    released; nothing else happens. *)
Theorem handlePacket_parse_failure cfg env data w :
  ParseHeader data = None ->
  handlePacket cfg env data w =
    Ret tt (withTrace [EvLogError (errors_New "Unable to parse package header");
                       EvPut (bufId data)] (disp w) w).
Proof.
  intros H. unfold handlePacket, handlePacketBody. rewrite H. run_M.
  unfold withTrace. rewrite <- app_assoc. reflexivity.
Qed.

Lemma handlePacket_parse_failure_witness :
  ParseHeader garbageData = None /\
  handlePacket exampleConfig idleEnv garbageData freshWorld =
    Ret tt (withTrace [EvLogError (errors_New "Unable to parse package header");
                       EvPut 2%nat] (disp freshWorld) freshWorld).
Proof.
  split; [reflexivity|].
  exact (handlePacket_parse_failure exampleConfig idleEnv garbageData freshWorld eq_refl).
Defined.

(** C3: a packet whose parsed payload length exceeds the MTU minus the header
    length makes [handlePacket] send exactly one must-fragment
    destination-unreachable reply, addressed to the packet's source, on the
    outbound queue and then release the buffer: no reassembly, no
    classification, no handler. *)
Theorem handlePacket_oversize cfg env data ipHdr :
  ParseHeader data = Some ipHdr ->
  PayloadLen ipHdr > MTU cfg - HeaderLen ipHdr ->
  let reply := DestinationUnreachablePacket (uint16 (MTU cfg)) ipHdr MustFragment in
  addressedTo reply = Source ipHdr /\
  forall w,
    handlePacket cfg env data w = (chanSend reply ;; DataPool_Put data) w /\
    (hasRoom w ->
     handlePacket cfg env data w =
       Ret tt (withTrace [EvSend reply; EvPut (bufId data)]
                 (queued reply (disp w)) w)).
Proof.
  intros Hp Hbig reply. split; [reflexivity|]. intros w.
  assert (E : handlePacket cfg env data w = (chanSend reply ;; DataPool_Put data) w).
  { unfold handlePacket, handlePacketBody. rewrite Hp.
    destruct (Z.gtb_spec (PayloadLen ipHdr) (MTU cfg - HeaderLen ipHdr)) as [_|Hle]; [|lia].
    unfold mbind, M_bind. fold reply. destruct (chanSend reply w); reflexivity. }
  split; [exact E|]. intros Hroom. rewrite E.
  unfold mbind, M_bind. rewrite chanSend_room by assumption.
  unfold DataPool_Put, emit, withTrace. simpl. rewrite <- app_assoc. reflexivity.
Qed.

Lemma handlePacket_oversize_witness :
  ParseHeader hugeData = Some hugeHeader /\
  PayloadLen hugeHeader > MTU exampleConfig - HeaderLen hugeHeader /\
  handlePacket exampleConfig idleEnv hugeData freshWorld =
    Ret tt (withTrace
              [EvSend (DestinationUnreachablePacket 1500 hugeHeader MustFragment);
               EvPut 1%nat]
              (queued (DestinationUnreachablePacket 1500 hugeHeader MustFragment)
                 (disp freshWorld))
              freshWorld).
Proof.
  split; [reflexivity|]. split; [reflexivity|].
  exact (proj2 (proj2 (handlePacket_oversize exampleConfig idleEnv hugeData hugeHeader
                         eq_refl eq_refl) freshWorld) freshWorld_hasRoom).
Defined.

(** ** The UDP branch *)

(** C4, amended: a UDP datagram that reaches the protocol switch, whose
    destination is neither link-local nor a subnet-zero address and whose
    source or destination port is 137, 138 or 139, makes [handlePacket] send
    a port-unreachable reply and release the buffer; no handler is created. *)
Theorem handlePacket_blocked_port cfg env data w ipHdr data' w1 :
  entersSwitch cfg data w = Some (ipHdr, data', w1) ->
  L4Protocol ipHdr = unix.IPPROTO_UDP ->
  isLinkLocal (Destination ipHdr) = false ->
  isSubnetZero (Destination ipHdr) = false ->
  SourcePort (l4 data') ∈ [137; 138; 139] \/
  DestinationPort (l4 data') ∈ [137; 138; 139] ->
  let reply := DestinationUnreachablePacket (uint16 (MTU cfg)) ipHdr PortUnreachable in
  handlePacket cfg env data w = (chanSend reply ;; DataPool_Put data') w1 /\
  (hasRoom w1 ->
   handlePacket cfg env data w =
     Ret tt (withTrace [EvSend reply; EvPut (bufId data')]
               (queued reply (disp w1)) w1)).
Proof.
  intros Hsw Hproto Hll Hz Hport reply.
  assert (E : handlePacket cfg env data w = (chanSend reply ;; DataPool_Put data') w1).
  { rewrite (handlePacket_switch _ _ _ _ _ _ _ Hsw).
    unfold dispatchL4. rewrite Hproto. simpl. rewrite Hll, Hz.
    unfold L4HeaderOf, DatagramFromData. simpl.
    assert (Hb : blocked (SourcePort (l4 data')) || blocked (DestinationPort (l4 data')) = true).
    { destruct Hport as [H|H]; apply blocked_true in H; rewrite H;
        [reflexivity | apply orb_true_r]. }
    rewrite Hb. apply send_ret_put. }
  split; [exact E|]. intros Hroom. rewrite E. apply send_then_put. assumption.
Qed.

Lemma handlePacket_blocked_port_witness :
  entersSwitch exampleConfig netbiosData freshWorld
    = Some (netbiosHeader, netbiosData, freshWorld) /\
  isLinkLocal (Destination netbiosHeader) = false /\
  isSubnetZero (Destination netbiosHeader) = false /\
  SourcePort (l4 netbiosData) ∈ [137; 138; 139] /\
  handlePacket exampleConfig idleEnv netbiosData freshWorld =
    Ret tt (withTrace
              [EvSend (DestinationUnreachablePacket 1500 netbiosHeader PortUnreachable);
               EvPut 1%nat]
              (queued (DestinationUnreachablePacket 1500 netbiosHeader PortUnreachable)
                 (disp freshWorld))
              freshWorld).
Proof.
  assert (Hp : SourcePort (l4 netbiosData) ∈ [137; 138; 139]) by (left).
  split; [reflexivity|]. split; [reflexivity|]. split; [reflexivity|].
  split; [exact Hp|].
  exact (proj2 (handlePacket_blocked_port exampleConfig idleEnv netbiosData freshWorld
                  netbiosHeader netbiosData freshWorld eq_refl eq_refl eq_refl eq_refl
                  (or_introl Hp)) freshWorld_hasRoom).
Defined.

(** C4 as stated fails: a NetBIOS datagram (port 137) to the link-local
    address 169.254.1.1 is dropped silently; no port-unreachable reply is
    queued. *)
Lemma blocked_port_link_local_counterexample :
  ParseHeader netbiosLinkLocalData = Some netbiosLinkLocalHeader /\
  L4Protocol netbiosLinkLocalHeader = unix.IPPROTO_UDP /\
  DestinationPort (l4 netbiosLinkLocalData) = 137 /\
  exists w',
    handlePacket exampleConfig idleEnv netbiosLinkLocalData freshWorld = Ret tt w' /\
    toTunCh (disp w') = [] /\
    trace w' = [EvPut 1%nat].
Proof. repeat split. eexists. repeat split. Qed.

(** C7, amended: of the UDP datagrams that reach the protocol switch, one
    with a link-local destination is dropped silently (the buffer is
    released; no reply, no handler), and one whose destination is not
    link-local and matches the subnet-zero pattern gets a host-unreachable
    reply and no handler. *)
Theorem handlePacket_udp_destination cfg env data w ipHdr data' w1 :
  entersSwitch cfg data w = Some (ipHdr, data', w1) ->
  L4Protocol ipHdr = unix.IPPROTO_UDP ->
  (isLinkLocal (Destination ipHdr) = true ->
   handlePacket cfg env data w =
     Ret tt (withTrace [EvPut (bufId data')] (disp w1) w1)) /\
  (isLinkLocal (Destination ipHdr) = false ->
   isSubnetZero (Destination ipHdr) = true ->
   let reply := DestinationUnreachablePacket (uint16 (MTU cfg)) ipHdr HostUnreachable in
   handlePacket cfg env data w = (chanSend reply ;; DataPool_Put data') w1 /\
   (hasRoom w1 ->
    handlePacket cfg env data w =
      Ret tt (withTrace [EvSend reply; EvPut (bufId data')]
                (queued reply (disp w1)) w1))).
Proof.
  intros Hsw Hproto. rewrite (handlePacket_switch _ _ _ _ _ _ _ Hsw).
  unfold dispatchL4. rewrite Hproto. simpl. split.
  - intros Hll. rewrite Hll. reflexivity.
  - intros Hll Hz. rewrite Hll, Hz.
    rewrite send_ret_put. split; [reflexivity|]. apply send_then_put.
Qed.

Lemma handlePacket_udp_destination_witness :
  entersSwitch exampleConfig netbiosLinkLocalData freshWorld
    = Some (netbiosLinkLocalHeader, netbiosLinkLocalData, freshWorld) /\
  isLinkLocal (Destination netbiosLinkLocalHeader) = true /\
  handlePacket exampleConfig idleEnv netbiosLinkLocalData freshWorld =
    Ret tt (withTrace [EvPut 1%nat] (disp freshWorld) freshWorld) /\
  entersSwitch exampleConfig subnetZeroData freshWorld
    = Some (subnetZeroHeader, subnetZeroData, freshWorld) /\
  isLinkLocal (Destination subnetZeroHeader) = false /\
  isSubnetZero (Destination subnetZeroHeader) = true /\
  handlePacket exampleConfig idleEnv subnetZeroData freshWorld =
    Ret tt (withTrace
              [EvSend (DestinationUnreachablePacket 1500 subnetZeroHeader HostUnreachable);
               EvPut 1%nat]
              (queued (DestinationUnreachablePacket 1500 subnetZeroHeader HostUnreachable)
                 (disp freshWorld))
              freshWorld).
Proof.
  split; [reflexivity|]. split; [reflexivity|]. split.
  - exact (proj1 (handlePacket_udp_destination exampleConfig idleEnv
                    netbiosLinkLocalData freshWorld netbiosLinkLocalHeader
                    netbiosLinkLocalData freshWorld eq_refl eq_refl) eq_refl).
  - split; [reflexivity|]. split; [reflexivity|]. split; [reflexivity|].
    exact (proj2 (proj2 (handlePacket_udp_destination exampleConfig idleEnv
                           subnetZeroData freshWorld subnetZeroHeader
                           subnetZeroData freshWorld eq_refl eq_refl)
                    eq_refl eq_refl) freshWorld_hasRoom).
Defined.

(** C7 as stated fails: 169.254.0.0 matches the subnet-zero pattern, but a
    UDP datagram to it is dropped as link-local; no host-unreachable reply is
    queued. *)
Lemma subnet_zero_link_local_counterexample :
  ParseHeader linkLocalZeroData = Some linkLocalZeroHeader /\
  L4Protocol linkLocalZeroHeader = unix.IPPROTO_UDP /\
  isSubnetZero (Destination linkLocalZeroHeader) = true /\
  exists w',
    handlePacket exampleConfig idleEnv linkLocalZeroData freshWorld = Ret tt w' /\
    toTunCh (disp w') = [] /\
    trace w' = [EvPut 1%nat].
Proof. repeat split. eexists. repeat split. Qed.

(** ** The other protocols *)

(** C8, amended: of the packets that reach the protocol switch, an ICMPv6
    packet is only logged and released; an ICMP packet is not forwarded
    either and no handler is created for it; and a packet of a protocol
    other than TCP, UDP, ICMP and ICMPv6 gets a protocol-unreachable
    reply. *)
Theorem handlePacket_other_protocols cfg env data w ipHdr data' w1 :
  entersSwitch cfg data w = Some (ipHdr, data', w1) ->
  (L4Protocol ipHdr = unix.IPPROTO_ICMPV6 ->
   handlePacket cfg env data w =
     Ret tt (withTrace [EvLogDebug (FromTUN (bufId data')); EvPut (bufId data')]
               (disp w1) w1)) /\
  (L4Protocol ipHdr = unix.IPPROTO_ICMP ->
   exists evs,
     handlePacket cfg env data w = Ret tt (withTrace evs (disp w1) w1) /\
     Forall forwardsNothing evs) /\
  (L4Protocol ipHdr <> unix.IPPROTO_TCP ->
   L4Protocol ipHdr <> unix.IPPROTO_UDP ->
   L4Protocol ipHdr <> unix.IPPROTO_ICMP ->
   L4Protocol ipHdr <> unix.IPPROTO_ICMPV6 ->
   let reply := DestinationUnreachablePacket (uint16 (MTU cfg)) ipHdr ProtocolUnreachable in
   handlePacket cfg env data w = (chanSend reply ;; DataPool_Put data') w1 /\
   (hasRoom w1 ->
    handlePacket cfg env data w =
      Ret tt (withTrace [EvSend reply; EvPut (bufId data')]
                (queued reply (disp w1)) w1))).
Proof.
  intros Hsw. rewrite (handlePacket_switch _ _ _ _ _ _ _ Hsw).
  unfold dispatchL4. split; [|split].
  - intros ->. simpl. run_M. unfold withTrace. rewrite <- app_assoc. reflexivity.
  - intros ->. simpl. exists [EvPut (bufId data')]. split; [reflexivity|].
    repeat constructor.
  - intros H1 H2 H3 H4.
    apply Z.eqb_neq in H1, H2, H3, H4. rewrite H1, H2, H3, H4.
    rewrite send_ret_put. split; [reflexivity|]. apply send_then_put.
Qed.

Lemma handlePacket_other_protocols_witness :
  entersSwitch exampleConfig icmp6Data freshWorld
    = Some (icmp6Header, icmp6Data, freshWorld) /\
  handlePacket exampleConfig idleEnv icmp6Data freshWorld =
    Ret tt (withTrace [EvLogDebug (FromTUN 1%nat); EvPut 1%nat]
              (disp freshWorld) freshWorld) /\
  entersSwitch exampleConfig greData freshWorld
    = Some (greHeader, greData, freshWorld) /\
  handlePacket exampleConfig idleEnv greData freshWorld =
    Ret tt (withTrace
              [EvSend (DestinationUnreachablePacket 1500 greHeader ProtocolUnreachable);
               EvPut 1%nat]
              (queued (DestinationUnreachablePacket 1500 greHeader ProtocolUnreachable)
                 (disp freshWorld))
              freshWorld).
Proof.
  split; [reflexivity|]. split.
  - exact (proj1 (handlePacket_other_protocols exampleConfig idleEnv icmp6Data
                    freshWorld icmp6Header icmp6Data freshWorld eq_refl) eq_refl).
  - split; [reflexivity|].
    refine (proj2 (proj2 (proj2 (handlePacket_other_protocols exampleConfig idleEnv
                                   greData freshWorld greHeader greData freshWorld
                                   eq_refl)) _ _ _ _) freshWorld_hasRoom);
      discriminate.
Defined.

(** C8 as stated fails: an oversized GRE packet (protocol 47) gets the
    must-fragment reply of the size check, not a protocol-unreachable one;
    and an ICMP packet that reaches the switch leaves no log line, only the
    release of its buffer. *)
Lemma other_protocols_counterexample :
  (ParseHeader hugeGreData = Some hugeGreHeader /\
   L4Protocol hugeGreHeader = 47 /\
   exists w',
     handlePacket exampleConfig idleEnv hugeGreData freshWorld = Ret tt w' /\
     toTunCh (disp w') =
       [DestinationUnreachablePacket 1500 hugeGreHeader MustFragment]) /\
  (ParseHeader icmpData = Some icmpHeader /\
   L4Protocol icmpHeader = unix.IPPROTO_ICMP /\
   exists w',
     handlePacket exampleConfig idleEnv icmpData freshWorld = Ret tt w' /\
     trace w' = [EvPut 1%nat]).
Proof.
  split; (split; [reflexivity|]); (split; [reflexivity|]);
    eexists; split; reflexivity.
Qed.

(** X2: an ICMP packet that reaches the protocol switch only has its buffer
    released: the case of [IPPROTO_ICMP] is empty and does not fall through
    to the case of [IPPROTO_ICMPV6], so no log line is written. *)
Theorem handlePacket_icmp cfg env data w ipHdr data' w1 :
  entersSwitch cfg data w = Some (ipHdr, data', w1) ->
  L4Protocol ipHdr = unix.IPPROTO_ICMP ->
  handlePacket cfg env data w =
    Ret tt (withTrace [EvPut (bufId data')] (disp w1) w1).
Proof.
  intros Hsw Hproto. rewrite (handlePacket_switch _ _ _ _ _ _ _ Hsw).
  unfold dispatchL4. rewrite Hproto. reflexivity.
Qed.

Lemma handlePacket_icmp_witness :
  entersSwitch exampleConfig icmpData freshWorld
    = Some (icmpHeader, icmpData, freshWorld) /\
  handlePacket exampleConfig idleEnv icmpData freshWorld =
    Ret tt (withTrace [EvPut 1%nat] (disp freshWorld) freshWorld).
Proof.
  split; [reflexivity|].
  exact (handlePacket_icmp exampleConfig idleEnv icmpData freshWorld icmpHeader
           icmpData freshWorld eq_refl eq_refl).
Defined.

(** ** The TCP branch *)

Lemma Pool_Get_miss id factory w :
  handlers (disp w) !! id = None ->
  Pool_Get id factory w =
    (r ← factory;
     match r with
     | inl h =>
         modifyD (fun d => set_handlers (<[id := h]> (handlers d)) d) ;;
         mret (inl h)
     | inr e => mret (inr e)
     end) w.
Proof.
  intros H. unfold Pool_Get. unfold mbind at 1. unfold M_bind at 1.
  unfold getD. rewrite H. reflexivity.
Qed.

Lemma Pool_Get_hit id factory w h :
  handlers (disp w) !! id = Some h ->
  Pool_Get id factory w = Ret (inl h) w.
Proof.
  intros H. unfold Pool_Get. unfold mbind at 1. unfold M_bind at 1.
  unfold getD. rewrite H. reflexivity.
Qed.

(** C5: a TCP packet with RST set, for a flow that has no handler in the
    registry, makes [tcp] log the error and return: no handler is created or
    registered, nothing is queued, the packet is handed to nobody, and the
    call neither panics nor returns an error. *)
Theorem tcp_RST_unknown_flow env pkt w :
  RST (L4HeaderOf pkt) = true ->
  handlers (disp w) !! connIDOf unix.IPPROTO_TCP pkt = None ->
  tcp env pkt w =
    Ret tt (withTrace
              [EvLogDebug (FromTUN (bufId (pktData pkt)));
               EvLogError (errors_New "dispatching got RST without connection workflow")]
              (disp w) w).
Proof.
  intros Hrst Hnone. unfold tcp.
  unfold mbind at 1 2. unfold M_bind at 1 2. simpl.
  rewrite Pool_Get_miss by exact Hnone.
  rewrite Hrst. run_M. unfold withTrace. simpl. rewrite <- app_assoc. reflexivity.
Qed.

Lemma tcp_RST_unknown_flow_witness :
  RST (L4HeaderOf rstPacket) = true /\
  handlers (disp freshWorld) !! connIDOf unix.IPPROTO_TCP rstPacket = None /\
  tcp idleEnv rstPacket freshWorld =
    Ret tt (withTrace
              [EvLogDebug (FromTUN 1%nat);
               EvLogError (errors_New "dispatching got RST without connection workflow")]
              (disp freshWorld) freshWorld).
Proof.
  split; [reflexivity|]. split; [reflexivity|].
  exact (tcp_RST_unknown_flow idleEnv rstPacket freshWorld eq_refl eq_refl).
Defined.

(** X8: seen from [handlePacket], a TCP packet with RST set that reaches the
    protocol switch and whose flow has no handler is logged as an error and
    dropped: [handlePacket] returns, no handler is created, and the buffer,
    passed on to [tcp], is not returned to the pool. *)
Theorem handlePacket_tcp_RST cfg env data w ipHdr data' w1 :
  entersSwitch cfg data w = Some (ipHdr, data', w1) ->
  L4Protocol ipHdr = unix.IPPROTO_TCP ->
  RST (l4 data') = true ->
  handlers (disp w1) !! connIDOf unix.IPPROTO_TCP (PacketFromData ipHdr data') = None ->
  handlePacket cfg env data w =
    Ret tt (withTrace
              [EvLogDebug (FromTUN (bufId data'));
               EvLogError (errors_New "dispatching got RST without connection workflow")]
              (disp w1) w1).
Proof.
  intros Hsw Hproto Hrst Hnone. rewrite (handlePacket_switch _ _ _ _ _ _ _ Hsw).
  unfold dispatchL4. rewrite Hproto. simpl.
  unfold tcp. unfold mbind at 1 2 3 4. unfold M_bind at 1 2 3 4. simpl.
  rewrite Pool_Get_miss by exact Hnone.
  unfold L4HeaderOf. simpl. rewrite Hrst. run_M.
  unfold withTrace. simpl. rewrite <- app_assoc. reflexivity.
Qed.

Lemma handlePacket_tcp_RST_witness :
  entersSwitch exampleConfig rstData freshWorld = Some (tcpHeader, rstData, freshWorld) /\
  RST (l4 rstData) = true /\
  handlePacket exampleConfig idleEnv rstData freshWorld =
    Ret tt (withTrace
              [EvLogDebug (FromTUN 1%nat);
               EvLogError (errors_New "dispatching got RST without connection workflow")]
              (disp freshWorld) freshWorld).
Proof.
  split; [reflexivity|]. split; [reflexivity|].
  exact (handlePacket_tcp_RST exampleConfig idleEnv rstData freshWorld tcpHeader
           rstData freshWorld eq_refl eq_refl eq_refl eq_refl).
Defined.

Lemma tcp_reset_outcome env pkt w :
  SYN (L4HeaderOf pkt) = false ->
  RST (L4HeaderOf pkt) = false ->
  handlers (disp w) !! connIDOf unix.IPPROTO_TCP pkt = None ->
  tcp env pkt w = resetOutcome env pkt w.
Proof.
  intros Hsyn Hrst Hnone. unfold tcp.
  unfold mbind at 1 2. unfold M_bind at 1 2. simpl.
  rewrite Pool_Get_miss by exact Hnone. rewrite Hrst, Hsyn. simpl.
  unfold resetOutcome, afterCancel, withTrace, afterResetAndCreate, newTCPHandler, queued.
  unfold selectDoneOrSend, chanSend, handlersWg_Add, NewHandler, HandlePacket.
  run_M.
  destruct (length (toTunCh (disp w)) <? toTunChCap)%nat;
    destruct (ctxDone env); destruct (pickDone env); simpl;
    try (destruct (Z.ltb_spec (Z.of_nat (handlersWg (disp w)) + 1) 0) as [?|_]; [lia|]);
    simpl; rewrite <- ?app_assoc; simpl;
    try replace (Z.to_nat (Z.of_nat (handlersWg (disp w)) + 1))
      with (S (handlersWg (disp w))) by lia;
    reflexivity.
Qed.

(** C6, amended: a TCP packet with neither SYN nor RST, for a flow that has
    no handler, makes [tcp] queue a synthesized reset (and then create the
    handler and hand it the packet) whenever its select takes the send,
    which it does once the queue has room unless the context is cancelled
    and the runtime picks the cancellation; when the select takes the
    cancellation, nothing is queued and the context's error is logged. *)
Theorem tcp_unknown_flow_reset env pkt w :
  SYN (L4HeaderOf pkt) = false ->
  RST (L4HeaderOf pkt) = false ->
  handlers (disp w) !! connIDOf unix.IPPROTO_TCP pkt = None ->
  (hasRoom w ->
   ctxDone env = false \/ pickDone env = false ->
   tcp env pkt w = Ret tt (afterResetAndCreate pkt w) /\
   toTunCh (disp (afterResetAndCreate pkt w)) = toTunCh (disp w) ++ [Reset pkt]) /\
  (ctxDone env = true ->
   pickDone env = true \/ ~ hasRoom w ->
   tcp env pkt w = Ret tt (afterCancel pkt w)) /\
  (ctxDone env = false -> ~ hasRoom w -> tcp env pkt w = Blocked).
Proof.
  intros Hsyn Hrst Hnone. rewrite (tcp_reset_outcome env pkt w Hsyn Hrst Hnone).
  unfold resetOutcome, hasRoom.
  destruct (Nat.ltb_spec (length (toTunCh (disp w))) toTunChCap) as [Hlt|Hge];
    (split; [|split]).
  - intros _ [-> | ->]; rewrite ?andb_false_r; split; reflexivity.
  - intros -> [-> | Hfull]; [reflexivity | lia].
  - intros _ Hfull. lia.
  - intros Hroom. lia.
  - intros -> _. reflexivity.
  - intros -> _. reflexivity.
Qed.

Lemma tcp_unknown_flow_reset_witness :
  SYN (L4HeaderOf ackPacket) = false /\
  RST (L4HeaderOf ackPacket) = false /\
  handlers (disp freshWorld) !! connIDOf unix.IPPROTO_TCP ackPacket = None /\
  tcp idleEnv ackPacket freshWorld = Ret tt (afterResetAndCreate ackPacket freshWorld) /\
  toTunCh (disp (afterResetAndCreate ackPacket freshWorld))
    = toTunCh (disp freshWorld) ++ [Reset ackPacket].
Proof.
  split; [reflexivity|]. split; [reflexivity|]. split; [reflexivity|].
  exact (proj1 (tcp_unknown_flow_reset idleEnv ackPacket freshWorld
                  eq_refl eq_refl eq_refl) freshWorld_hasRoom (or_introl eq_refl)).
Defined.

(** C6 as stated fails: with the context cancelled, the select of the
    factory can take the cancellation; then no reset is queued and the
    context's error is logged. *)
Lemma reset_cancelled_counterexample :
  SYN (L4HeaderOf ackPacket) = false /\
  RST (L4HeaderOf ackPacket) = false /\
  handlers (disp freshWorld) !! connIDOf unix.IPPROTO_TCP ackPacket = None /\
  exists w',
    tcp cancelledEnv ackPacket freshWorld = Ret tt w' /\
    toTunCh (disp w') = [] /\
    trace w' = [EvLogDebug (FromTUN 1%nat); EvLogError ctx_Err].
Proof.
  repeat (split; [reflexivity|]).
  eexists. split; [vm_compute; reflexivity|]. split; reflexivity.
Qed.

(** X3: the SYN of an unknown flow creates the handler of the flow, counts it
    on the barrier, registers it and hands it the packet; no reset is
    queued. *)
Theorem tcp_SYN_unknown_flow env pkt w :
  SYN (L4HeaderOf pkt) = true ->
  RST (L4HeaderOf pkt) = false ->
  handlers (disp w) !! connIDOf unix.IPPROTO_TCP pkt = None ->
  tcp env pkt w = Ret tt (afterSYN pkt w).
Proof.
  intros Hsyn Hrst Hnone. unfold tcp.
  unfold mbind at 1 2. unfold M_bind at 1 2. simpl.
  rewrite Pool_Get_miss by exact Hnone. rewrite Hrst, Hsyn. simpl.
  unfold afterSYN, newTCPHandler, handlersWg_Add, NewHandler, HandlePacket.
  run_M.
  destruct (Z.ltb_spec (Z.of_nat (handlersWg (disp w)) + 1) 0) as [?|_]; [lia|].
  simpl. rewrite <- !app_assoc. simpl.
  replace (Z.to_nat (Z.of_nat (handlersWg (disp w)) + 1))
    with (S (handlersWg (disp w))) by lia.
  reflexivity.
Qed.

Lemma tcp_SYN_unknown_flow_witness :
  SYN (L4HeaderOf (PacketFromData tcpHeader synData)) = true /\
  tcp idleEnv (PacketFromData tcpHeader synData) freshWorld =
    Ret tt (afterSYN (PacketFromData tcpHeader synData) freshWorld) /\
  toTunCh (disp (afterSYN (PacketFromData tcpHeader synData) freshWorld)) = [].
Proof.
  split; [reflexivity|]. split; [|reflexivity].
  exact (tcp_SYN_unknown_flow idleEnv (PacketFromData tcpHeader synData) freshWorld
           eq_refl eq_refl eq_refl).
Defined.

Lemma busyWorld_handler :
  handlers (disp busyWorld) !! connIDOf unix.IPPROTO_TCP ackPacket
    = Some (newTCPHandler (PacketFromData tcpHeader synData) freshWorld).
Proof. vm_compute. reflexivity. Qed.

(** X4: a packet of a flow that has a TCP handler is handed to that handler,
    whatever its flags; no handler is created and nothing is queued. *)
Theorem tcp_known_flow env pkt w wf :
  handlers (disp w) !! connIDOf unix.IPPROTO_TCP pkt = Some wf ->
  hKind wf = TCPHandler ->
  tcp env pkt w =
    Ret tt (withTrace [EvLogDebug (FromTUN (bufId (pktData pkt)));
                       EvHandlePacket (hTask wf) (bufId (pktData pkt))]
              (disp w) w).
Proof.
  intros Hhit Hkind. unfold tcp.
  unfold mbind at 1 2. unfold M_bind at 1 2. simpl.
  rewrite (Pool_Get_hit _ _ _ wf) by exact Hhit.
  unfold HandlePacket. rewrite Hkind. run_M.
  unfold withTrace. rewrite <- app_assoc. reflexivity.
Qed.

Lemma tcp_known_flow_witness :
  handlers (disp busyWorld) !! connIDOf unix.IPPROTO_TCP ackPacket
    = Some (newTCPHandler (PacketFromData tcpHeader synData) freshWorld) /\
  tcp idleEnv ackPacket busyWorld =
    Ret tt (withTrace [EvLogDebug (FromTUN 1%nat); EvHandlePacket 0%nat 1%nat]
              (disp busyWorld) busyWorld).
Proof.
  split; [exact busyWorld_handler|].
  exact (tcp_known_flow idleEnv ackPacket busyWorld _ busyWorld_handler eq_refl).
Defined.

(** ** The handlers of UDP flows *)

(** X5: for a datagram of an unknown flow, [udp] creates the DNS interceptor
    exactly when the destination port and address are the configured DNS
    redirect, and the generic UDP handler otherwise; a DNS interceptor that
    fails to start leaves the barrier incremented and the error logged. *)
Theorem udp_handler_variant env dg w :
  handlers (disp w) !! connIDOf unix.IPPROTO_UDP dg = None ->
  (toDNS (disp w) dg = true -> dnsInterceptorFails env = false ->
   udp env dg w = Ret tt (afterUDPCreate DnsInterceptor dg w)) /\
  (toDNS (disp w) dg = false ->
   udp env dg w = Ret tt (afterUDPCreate UDPHandler dg w)) /\
  (toDNS (disp w) dg = true -> dnsInterceptorFails env = true ->
   udp env dg w =
     Ret tt (withTrace [EvLogDebug (FromTUN (bufId (pktData dg))); EvLogError dns_Err]
               (set_handlersWg (S (handlersWg (disp w))) (disp w)) w)).
Proof.
  intros Hnone.
  assert (E : forall r, r = udp env dg w ->
    r = (dlog_Debugf (FromTUN (bufId (pktData dg))) ;;
         r ← (r ← (handlersWg_Add 1 ;;
                   d ← getD;
                   if toDNS d dg
                   then NewDnsInterceptor env (connIDOf unix.IPPROTO_UDP dg)
                   else h ← NewHandler UDPHandler (connIDOf unix.IPPROTO_UDP dg);
                        mret (inl h));
              match r with
              | inl h =>
                  modifyD (fun d => set_handlers
                             (<[connIDOf unix.IPPROTO_UDP dg := h]> (handlers d)) d) ;;
                  mret (inl h)
              | inr e => mret (inr e)
              end);
         match r with
         | inr err => dlog_Error err
         | inl uh => NewDatagram uh dg
         end) w).
  { intros r ->. unfold udp. unfold mbind at 1 2 5 6. unfold M_bind at 1 2 5 6.
    simpl. rewrite Pool_Get_miss by exact Hnone. reflexivity. }
  rewrite (E _ eq_refl). clear E.
  unfold afterUDPCreate, withTrace, handlersWg_Add, NewDnsInterceptor, NewHandler,
    NewDatagram.
  run_M.
  destruct (Z.ltb_spec (Z.of_nat (handlersWg (disp w)) + 1) 0) as [?|_]; [lia|].
  simpl.
  replace (Z.to_nat (Z.of_nat (handlersWg (disp w)) + 1))
    with (S (handlersWg (disp w))) by lia.
  unfold toDNS. simpl.
  repeat split.
  - intros -> ->. simpl. rewrite <- !app_assoc. reflexivity.
  - intros ->. simpl. rewrite <- !app_assoc. reflexivity.
  - intros -> ->. simpl. rewrite <- !app_assoc. reflexivity.
Qed.

Lemma udp_handler_variant_witness :
  handlers (disp dnsWorld) !! connIDOf unix.IPPROTO_UDP dnsQuery = None /\
  toDNS (disp dnsWorld) dnsQuery = true /\
  udp idleEnv dnsQuery dnsWorld = Ret tt (afterUDPCreate DnsInterceptor dnsQuery dnsWorld).
Proof.
  split; [reflexivity|]. split; [reflexivity|].
  exact (proj1 (udp_handler_variant idleEnv dnsQuery dnsWorld eq_refl) eq_refl eq_refl).
Defined.

(** ** The manager connection *)

(** C10: [SetManagerInfo] dials exactly when no manager client is
    established: without one it dials; with one it returns nil without
    dialling and without changing anything.  So once a call has returned nil
    a manager client is established, and every later call returns nil, dials
    nothing and leaves the client as it is. *)
Theorem SetManagerInfo_idempotent w :
  (forall dial dx mi,
     managerClient (disp w) = None ->
     exists r w', SetManagerInfo dial dx mi w = Ret r w' /\
                  trace w' = trace w ++ [EvDial (GrpcPort mi)]) /\
  (forall dial dx mi,
     is_Some (managerClient (disp w)) ->
     SetManagerInfo dial dx mi w = Ret None w) /\
  (forall dial dx mi w1,
     SetManagerInfo dial dx mi w = Ret None w1 ->
     is_Some (managerClient (disp w1)) /\
     forall dial' dx' mi', SetManagerInfo dial' dx' mi' w1 = Ret None w1).
Proof.
  assert (Hset : forall v dial dx mi,
            is_Some (managerClient (disp v)) ->
            SetManagerInfo dial dx mi v = Ret None v).
  { intros v dial dx mi [mc Hmc]. unfold SetManagerInfo. run_M. rewrite Hmc.
    reflexivity. }
  split; [|split].
  - intros dial dx mi Hnone. unfold SetManagerInfo. run_M. rewrite Hnone.
    destruct dial; eauto.
  - apply Hset.
  - intros dial dx mi w1 Hcall.
    assert (Hsome : is_Some (managerClient (disp w1))).
    { revert Hcall. unfold SetManagerInfo. run_M.
      destruct (managerClient (disp w)) eqn:Hmc.
      - intros [= <-]. rewrite Hmc. eauto.
      - destruct dial; [discriminate|]. intros [= <-]. simpl. eauto. }
    split; [exact Hsome|]. intros dial' dx' mi'. apply Hset. exact Hsome.
Qed.

Lemma SetManagerInfo_idempotent_witness :
  SetManagerInfo None false {| GrpcPort := 8081 |} freshWorld =
    Ret None (withTrace [EvDial 8081]
                (set_managerClient (Some (NewManagerClient 8081)) (disp freshWorld))
                freshWorld) /\
  forall dial' dx' mi',
    SetManagerInfo dial' dx' mi'
      (withTrace [EvDial 8081]
         (set_managerClient (Some (NewManagerClient 8081)) (disp freshWorld))
         freshWorld)
    = Ret None
        (withTrace [EvDial 8081]
           (set_managerClient (Some (NewManagerClient 8081)) (disp freshWorld))
           freshWorld).
Proof.
  split; [reflexivity|].
  exact (proj2 (proj2 (proj2 (SetManagerInfo_idempotent freshWorld)) None false
                  {| GrpcPort := 8081 |} _ eq_refl)).
Defined.

(** ** Buffers *)

Lemma newEvents_app w evs d t n :
  newEvents w {| disp := d; trace := trace w ++ evs; tasks := t; nextTask := n |} = evs.
Proof. unfold newEvents. simpl. apply drop_app_length. Qed.

(** What the switch of [handlePacket] does with the buffer: it adds events
    to the history, never a release; it hands the packet over at most once;
    and it keeps the buffer (for the deferred release) exactly when it does
    not pass the packet on to [tcp] or [udp]. *)
Lemma dispatchL4_events cfg env ipHdr data w r w' :
  dispatchL4 cfg env ipHdr data w = Ret r w' ->
  exists evs,
    trace w' = trace w ++ evs /\ puts evs = 0%nat /\ (handOvers evs <= 1)%nat /\
    (if forwarded ipHdr data then r = None
     else r = Some data /\ handOvers evs = 0%nat).
Proof.
  unfold dispatchL4, forwarded, tcp, udp, Pool_Get, chanSend, selectDoneOrSend,
    handlersWg_Add, NewDnsInterceptor, NewHandler, HandlePacket, NewDatagram,
    L4HeaderOf, DatagramFromData, panic.
  run_M. unfold chanSend. run_M. intros H.
  repeat break_match; simpl in *; try discriminate;
    injection H as <- <-; simpl;
    rewrite <- ?app_assoc; simpl;
    try (eexists; split; [reflexivity|]);
    try (exists []; split; [symmetry; apply app_nil_r|]);
    repeat split; try reflexivity; try (cbv; lia).
Qed.

Lemma entersSwitch_trace cfg data w ipHdr data' w1 :
  entersSwitch cfg data w = Some (ipHdr, data', w1) -> trace w1 = trace w.
Proof.
  unfold entersSwitch. destruct (ParseHeader data) as [h|]; [|discriminate].
  destruct (PayloadLen h >? MTU cfg - HeaderLen h); [discriminate|].
  destruct ((Version h =? ipv4.Version) && isFragment h).
  - rewrite concatFragments_run.
    destruct (ConcatFragments cfg h data (fragmentMap (disp w))) as [[d|] fm];
      simpl; [|discriminate].
    intros [= <- <- <-]. simpl. apply app_nil_r.
  - intros [= <- <- <-]. reflexivity.
Qed.

Lemma puts_app evs evs' : puts (evs ++ evs') = (puts evs + puts evs')%nat.
Proof. unfold puts. rewrite filter_app, length_app. reflexivity. Qed.

Lemma handOvers_app evs evs' :
  handOvers (evs ++ evs') = (handOvers evs + handOvers evs')%nat.
Proof. unfold handOvers. rewrite filter_app, length_app. reflexivity. Qed.

(** The packet part of C9. *)
Lemma handlePacket_buffer cfg env data w w' :
  handlePacket cfg env data w = Ret tt w' ->
  let evs := newEvents w w' in
  trace w' = trace w ++ evs /\
  (puts evs + handOvers evs <= 1)%nat /\
  match entersSwitch cfg data w with
  | Some (ipHdr, data', _) =>
      if forwarded ipHdr data' then puts evs = 0%nat
      else last evs = Some (EvPut (bufId data')) /\ puts evs = 1%nat
  | None =>
      if pendingFragment cfg data w then evs = []
      else last evs = Some (EvPut (bufId data)) /\ puts evs = 1%nat
  end.
Proof.
  intros H.
  assert (G : exists evs,
    trace w' = trace w ++ evs /\
    (puts evs + handOvers evs <= 1)%nat /\
    match entersSwitch cfg data w with
    | Some (ipHdr, data', _) =>
        if forwarded ipHdr data' then puts evs = 0%nat
        else last evs = Some (EvPut (bufId data')) /\ puts evs = 1%nat
    | None =>
        if pendingFragment cfg data w then evs = []
        else last evs = Some (EvPut (bufId data)) /\ puts evs = 1%nat
    end).
  { destruct (entersSwitch cfg data w) as [[[ipHdr data'] w1]|] eqn:Hsw.
    - rewrite (handlePacket_switch _ _ _ _ _ _ _ Hsw) in H.
      apply entersSwitch_trace in Hsw. rewrite <- Hsw.
      unfold mbind, M_bind in H.
      destruct (dispatchL4 cfg env ipHdr data' w1) as [r w2| |] eqn:Hd;
        try discriminate.
      apply dispatchL4_events in Hd as (evs & Ht & Hp & Hh & Hf).
      destruct (forwarded ipHdr data').
      + subst r. injection H as <-. exists evs. repeat split; [exact Ht|lia|exact Hp].
      + destruct Hf as [-> Hh0]. unfold DataPool_Put, emit in H. injection H as <-.
        simpl. exists (evs ++ [EvPut (bufId data')]).
        rewrite Ht, <- app_assoc, puts_app, handOvers_app, Hp, Hh0, last_snoc.
        repeat split; cbv; lia.
    - revert H Hsw. unfold handlePacket, handlePacketBody, entersSwitch, pendingFragment.
      destruct (ParseHeader data) as [h|].
      + destruct (PayloadLen h >? MTU cfg - HeaderLen h).
        * unfold chanSend. run_M.
          destruct (length (toTunCh (disp w)) <? toTunChCap)%nat; [|discriminate].
          intros [= <-] _. simpl.
          exists [EvSend (DestinationUnreachablePacket (uint16 (MTU cfg)) h MustFragment);
                  EvPut (bufId data)].
          rewrite <- app_assoc. repeat split. cbv. lia.
        * destruct ((Version h =? ipv4.Version) && isFragment h); [|discriminate].
          unfold mbind at 1 2. unfold M_bind at 1 2.
          rewrite concatFragments_run.
          destruct (ConcatFragments cfg h data (fragmentMap (disp w))) as [[d|] fm];
            simpl; [discriminate|].
          intros [= <-] _. simpl. exists []. repeat split. cbv. lia.
      + run_M. intros [= <-] _. simpl.
        exists [EvLogError (errors_New "Unable to parse package header");
                EvPut (bufId data)].
        rewrite <- app_assoc. repeat split. cbv. lia. }
  destruct G as (evs & Ht & G). 
  assert (E : newEvents w w' = evs).
  { unfold newEvents. rewrite Ht. apply drop_app_length. }
  simpl. rewrite E. split; [exact Ht | exact G].
Qed.

(** C9, amended: [handlePacket] never releases a buffer twice and never
    releases one it handed to a flow handler.  It releases the buffer it
    holds exactly once, as its last action, on every path on which it
    neither passes the packet on to [tcp] or [udp] nor leaves the buffer
    with the reassembler as a fragment of an incomplete packet; on that last
    path nothing is released.  Every iteration of the device writer that
    takes a packet from the queue writes it and then releases it, whatever
    the write returns. *)
Theorem buffers_released_once :
  (forall cfg env data w w',
     handlePacket cfg env data w = Ret tt w' ->
     let evs := newEvents w w' in
     trace w' = trace w ++ evs /\
     (puts evs + handOvers evs <= 1)%nat /\
     match entersSwitch cfg data w with
     | Some (ipHdr, data', _) =>
         if forwarded ipHdr data' then puts evs = 0%nat
         else last evs = Some (EvPut (bufId data')) /\ puts evs = 1%nat
     | None =>
         if pendingFragment cfg data w then evs = []
         else last evs = Some (EvPut (bufId data)) /\ puts evs = 1%nat
     end) /\
  (forall env writeErr w pkt rest,
     closing (disp w) < 2 ->
     toTunCh (disp w) = pkt :: rest ->
     ctxDone env = false \/ pickDone env = false ->
     exists r w',
       writerIteration env writeErr w = Ret r w' /\
       toTunCh (disp w') = rest /\
       newEvents w w' = [EvLogDebug (ToTUN pkt);
                         EvDevWrite pkt (bool_decide (writeErr = None));
                         EvSoftRelease pkt]).
Proof.
  split; [exact handlePacket_buffer|].
  intros env writeErr w pkt rest Hc Hq Hsel.
  unfold writerIteration. run_M.
  destruct (Z.ltb_spec (closing (disp w)) 2) as [_|?]; [|lia].
  rewrite Hq.
  assert (Hpick : (if ctxDone env then pickDone env else false) = false).
  { destruct Hsel as [-> | ->]; [reflexivity | destruct (ctxDone env); reflexivity]. }
  destruct (ctxDone env) eqn:Hd; simpl in Hpick; try rewrite Hpick;
    destruct writeErr as [err|]; simpl;
    repeat match goal with |- context [if ?c then _ else _] => destruct c end;
    eexists; eexists; (split; [reflexivity|]); simpl; (split; [reflexivity|]);
    rewrite <- !app_assoc; apply newEvents_app.
Qed.

Lemma buffers_released_once_witness :
  handlePacket exampleConfig idleEnv icmp6Data freshWorld =
    Ret tt (withTrace [EvLogDebug (FromTUN 1%nat); EvPut 1%nat]
              (disp freshWorld) freshWorld) /\
  (puts (newEvents freshWorld
           (withTrace [EvLogDebug (FromTUN 1%nat); EvPut 1%nat]
              (disp freshWorld) freshWorld))
   + handOvers (newEvents freshWorld
                  (withTrace [EvLogDebug (FromTUN 1%nat); EvPut 1%nat]
                     (disp freshWorld) freshWorld)) <= 1)%nat /\
  closing (disp freshWorld) < 2 /\
  exists r w',
    writerIteration idleEnv (Some io_Err)
      (withTrace [] (queued (Reset ackPacket) (disp freshWorld)) freshWorld)
      = Ret r w' /\
    toTunCh (disp w') = [] /\
    newEvents (withTrace [] (queued (Reset ackPacket) (disp freshWorld)) freshWorld) w'
      = [EvLogDebug (ToTUN (Reset ackPacket));
         EvDevWrite (Reset ackPacket) false;
         EvSoftRelease (Reset ackPacket)].
Proof.
  assert (H : handlePacket exampleConfig idleEnv icmp6Data freshWorld =
                Ret tt (withTrace [EvLogDebug (FromTUN 1%nat); EvPut 1%nat]
                          (disp freshWorld) freshWorld)) by reflexivity.
  split; [exact H|]. split.
  - exact (proj1 (proj2 (proj1 buffers_released_once exampleConfig idleEnv
                           icmp6Data freshWorld _ H))).
  - split; [reflexivity|].
    exact (proj2 buffers_released_once idleEnv (Some io_Err)
             (withTrace [] (queued (Reset ackPacket) (disp freshWorld)) freshWorld)
             (Reset ackPacket) [] eq_refl eq_refl (or_introl eq_refl)).
Defined.

(** C9 as stated fails: the first fragment of a datagram is neither released
    nor handed to a handler; the reassembler keeps the buffer. *)
Lemma pending_fragment_counterexample :
  ParseHeader fragmentData = Some fragmentHeader /\
  exists w',
    handlePacket exampleConfig idleEnv fragmentData freshWorld = Ret tt w' /\
    trace w' = [] /\
    fragmentMap (disp w') !! 7 = Some [fragmentData].
Proof. repeat split. eexists. repeat split. Qed.

(** ** Shutdown *)

Lemma Stop_runs_its_statements w : Stop w = runAll StopStatements w.
Proof.
  unfold Stop, runAll, StopStatements, mbind, M_bind.
  repeat match goal with
         | |- context [match ?m ?x with _ => _ end] => destruct (m x) as [[] ?| |]
         end; reflexivity.
Qed.

(** X6: run on its own, [Stop] goes through when the barrier is at zero,
    leaving the flag closed, the device closed and every handler signalled,
    and blocks in its wait otherwise. *)
Theorem Stop_alone w :
  (handlersWg (disp w) = 0%nat -> Stop w = Ret tt (afterStop w)) /\
  (handlersWg (disp w) <> 0%nat -> Stop w = Blocked).
Proof.
  unfold Stop, afterStop, StoreClosing, Pool_CloseAll, handlersWg_Wait, dev_Close.
  run_M. split.
  - intros ->. simpl. unfold withTrace. rewrite <- !app_assoc. reflexivity.
  - intros Hne. destruct (Nat.eqb_spec (handlersWg (disp w)) 0); [contradiction|].
    reflexivity.
Qed.

Lemma Stop_alone_witness :
  handlersWg (disp freshWorld) = 0%nat /\
  Stop freshWorld = Ret tt (afterStop freshWorld) /\
  handlersWg (disp busyWorld) <> 0%nat /\
  Stop busyWorld = Blocked.
Proof.
  split; [reflexivity|]. split.
  - exact (proj1 (Stop_alone freshWorld) eq_refl).
  - assert (H : handlersWg (disp busyWorld) <> 0%nat) by (vm_compute; discriminate).
    split; [exact H|]. exact (proj2 (Stop_alone busyWorld) H).
Defined.

Lemma frames_refl w : frames w w.
Proof.
  unfold frames. repeat split; try reflexivity.
  exists []. split; [symmetry; apply app_nil_r | constructor].
Qed.

Lemma frames_trans w1 w2 w3 : frames w1 w2 -> frames w2 w3 -> frames w1 w3.
Proof.
  intros (Hc & Hd & (e1 & Ht1 & Hf1) & Hs & Hn) (Hc' & Hd' & (e2 & Ht2 & Hf2) & Hs' & Hn').
  unfold frames. repeat split.
  - congruence.
  - congruence.
  - exists (e1 ++ e2). split.
    + rewrite Ht2, Ht1, app_assoc. reflexivity.
    + apply Forall_app. split; assumption.
  - set_solver.
  - lia.
Qed.

Lemma size_insert_le (m : gmap nat ConnID) k v : (size (<[k := v]> m) <= S (size m))%nat.
Proof.
  destruct (m !! k) eqn:H.
  - rewrite map_size_insert_Some by eauto. lia.
  - rewrite map_size_insert_None by assumption. lia.
Qed.

Ltac frames_done :=
  unfold frames; simpl;
  repeat match goal with
  | |- _ /\ _ => split
  | |- exists evs, ?t ++ _ = ?t ++ evs /\ _ =>
      eexists; split; [reflexivity | repeat constructor]
  | |- exists evs, ?t = ?t ++ evs /\ _ =>
      exists []; split; [symmetry; apply app_nil_r | constructor]
  end;
  try reflexivity; try lia;
  try (rewrite dom_insert_L; set_solver);
  try match goal with
      | |- context [size (<[?k := ?v]> ?m)] =>
          pose proof (size_insert_le m k v); lia
      end.

Lemma dispatchL4_frames cfg env ipHdr data w r w' :
  dispatchL4 cfg env ipHdr data w = Ret r w' -> frames w w'.
Proof.
  unfold dispatchL4, tcp, udp, Pool_Get, chanSend, selectDoneOrSend,
    handlersWg_Add, NewDnsInterceptor, NewHandler, HandlePacket, NewDatagram,
    L4HeaderOf, DatagramFromData, panic.
  run_M. unfold chanSend. run_M. intros H.
  repeat break_match; simpl in *; try discriminate;
    injection H as <- <-; rewrite <- ?app_assoc; frames_done.
Qed.

Lemma entersSwitch_frames cfg data w ipHdr data' w1 :
  entersSwitch cfg data w = Some (ipHdr, data', w1) -> frames w w1.
Proof.
  unfold entersSwitch. destruct (ParseHeader data) as [h|]; [|discriminate].
  destruct (PayloadLen h >? MTU cfg - HeaderLen h); [discriminate|].
  destruct ((Version h =? ipv4.Version) && isFragment h).
  - rewrite concatFragments_run.
    destruct (ConcatFragments cfg h data (fragmentMap (disp w))) as [[d|] fm];
      simpl; [|discriminate].
    intros [= <- <- <-]. frames_done.
  - intros [= <- <- <-]. apply frames_refl.
Qed.

Lemma handlePacket_frames cfg env data w w' :
  handlePacket cfg env data w = Ret tt w' -> frames w w'.
Proof.
  intros H.
  destruct (entersSwitch cfg data w) as [[[ipHdr data'] w1]|] eqn:Hsw.
  - rewrite (handlePacket_switch _ _ _ _ _ _ _ Hsw) in H.
    apply entersSwitch_frames in Hsw. apply (frames_trans _ _ _ Hsw).
    unfold mbind, M_bind in H.
    destruct (dispatchL4 cfg env ipHdr data' w1) as [r w2| |] eqn:Hd;
      try discriminate.
    apply dispatchL4_frames in Hd. apply (frames_trans _ _ _ Hd).
    destruct r; revert H; run_M; intros [= <-]; [frames_done | apply frames_refl].
  - revert H Hsw. unfold handlePacket, handlePacketBody, entersSwitch.
    destruct (ParseHeader data) as [h|].
    + destruct (PayloadLen h >? MTU cfg - HeaderLen h).
      * unfold chanSend. run_M.
        destruct (length (toTunCh (disp w)) <? toTunChCap)%nat; [|discriminate].
        intros [= <-] _. rewrite <- app_assoc. frames_done.
      * destruct ((Version h =? ipv4.Version) && isFragment h); [|discriminate].
        unfold mbind at 1 2. unfold M_bind at 1 2.
        rewrite concatFragments_run.
        destruct (ConcatFragments cfg h data (fragmentMap (disp w))) as [[d|] fm];
          simpl; [discriminate|].
        intros [= <-] _. frames_done.
    + run_M. intros [= <-] _. rewrite <- app_assoc. frames_done.
Qed.

Lemma readerBody_frames cfg env rd w r w' :
  readerBody cfg env rd w = Ret r w' -> frames w w'.
Proof.
  destruct rd as [buf|data]; unfold readerBody.
  - run_M. intros H. repeat break_match; injection H as <- <-;
      rewrite <- ?app_assoc; frames_done.
  - unfold mbind at 1 2. unfold M_bind at 1 2. unfold emit at 1.
    destruct (handlePacket cfg env data _) as [[] w2| |] eqn:Hh; try discriminate.
    apply handlePacket_frames in Hh. run_M. intros [= <- <-].
    refine (frames_trans _ _ _ _ Hh). frames_done.
Qed.

Lemma writerIteration_frames env writeErr w r w' :
  writerIteration env writeErr w = Ret r w' -> frames w w'.
Proof.
  unfold writerIteration, block. run_M. intros H.
  repeat break_match; simpl in *; try discriminate;
    injection H as <- <-; rewrite <- ?app_assoc; frames_done.
Qed.

Lemma taskExit_run t w w' :
  taskExit t w = Ret tt w' ->
  exists id,
    tasks w !! t = Some id /\
    (1 <= handlersWg (disp w))%nat /\
    w' = {| disp := set_handlersWg (handlersWg (disp w) - 1)
                      (set_handlers (delete id (handlers (disp w))) (disp w));
            trace := trace w ++ [EvTaskExit t];
            tasks := delete t (tasks w);
            nextTask := nextTask w |}.
Proof.
  unfold taskExit. destruct (tasks w !! t) as [id|]; [|discriminate].
  unfold handlersWg_Add. run_M.
  destruct (Z.ltb_spec (Z.of_nat (handlersWg (disp w)) + -1) 0); [discriminate|].
  intros [= <-]. exists id. split; [reflexivity|]. split; [lia|].
  replace (Z.to_nat (Z.of_nat (handlersWg (disp w)) + -1))
    with (handlersWg (disp w) - 1)%nat by lia.
  reflexivity.
Qed.

Lemma barrierCovers_step cfg s l s' :
  barrierCovers (world s) -> sysStep cfg s l = Some s' -> barrierCovers (world s').
Proof.
  unfold barrierCovers. intros Hb Hstep.
  destruct l as [|t| |env rd|env writeErr]; simpl in Hstep.
  - destruct (stopPC s) as [|[|[|[|[|pc]]]]]; simpl in Hstep; try discriminate;
      revert Hstep;
      unfold StoreClosing, Pool_CloseAll, handlersWg_Wait, dev_Close; run_M;
      try (destruct (Nat.eqb (handlersWg (disp (world s))) 0); [|discriminate]);
      intros [= <-]; exact Hb.
  - destruct (taskExit t (world s)) as [[] w'| |] eqn:Hexit; try discriminate.
    injection Hstep as <-.
    apply taskExit_run in Hexit as (id & Hid & Hwg & ->). simpl.
    rewrite map_size_delete_Some by eauto. lia.
  - destruct (readerPC s); try discriminate.
    revert Hstep. unfold readerGuard. run_M. intros [= <-]. exact Hb.
  - destruct (readerPC s); try discriminate.
    destruct (readerBody cfg env rd (world s)) as [r w'| |] eqn:Hr; try discriminate.
    injection Hstep as <-. simpl.
    apply readerBody_frames in Hr as (_ & _ & _ & _ & Hle). lia.
  - destruct (writerDone s); try discriminate.
    destruct (writerIteration env writeErr (world s)) as [r w'| |] eqn:Hw;
      try discriminate.
    injection Hstep as <-. simpl.
    apply writerIteration_frames in Hw as (_ & _ & _ & _ & Hle). lia.
Qed.

(** X7: whatever the reader, the writer, the handler tasks and [Stop] do,
    the completion barrier keeps counting at least the handler tasks that
    are running: a handler is added to the barrier before it is created and
    taken off it when its task ends. *)
Theorem barrier_covers_tasks cfg steps : forall s s',
  barrierCovers (world s) ->
  run cfg steps s = Some s' ->
  barrierCovers (world s').
Proof.
  induction steps as [|l steps IH]; intros s s' Hb Hrun; simpl in Hrun.
  - injection Hrun as <-. exact Hb.
  - destruct (sysStep cfg s l) as [s1|] eqn:Hstep; [|discriminate].
    eapply IH; [|exact Hrun]. eapply barrierCovers_step; eassumption.
Qed.

Lemma sample_read :
  run exampleConfig [ReaderGuard; ReaderRead idleEnv (ReadPacket synData)]
    (startSystem freshWorld) = Some afterFirstRead.
Proof. vm_compute. reflexivity. Qed.

Lemma barrier_covers_tasks_witness :
  barrierCovers (world (startSystem freshWorld)) /\
  run exampleConfig [ReaderGuard; ReaderRead idleEnv (ReadPacket synData)]
    (startSystem freshWorld) = Some afterFirstRead /\
  barrierCovers (world afterFirstRead).
Proof.
  assert (H0 : barrierCovers (world (startSystem freshWorld))).
  { unfold barrierCovers. vm_compute. lia. }
  split; [exact H0|]. split; [exact sample_read|].
  exact (barrier_covers_tasks exampleConfig _ _ afterFirstRead H0 sample_read).
Defined.

Lemma omap_stopPhase_none evs :
  Forall (fun e => stopPhase e = None) evs -> omap stopPhase evs = [].
Proof.
  induction 1 as [|e evs He _ IH]; [reflexivity|].
  simpl. rewrite He. exact IH.
Qed.

(** A step of the packet path or of the writer keeps the invariant. *)
Lemma StopInv_frames w0 live s w' rpc wd :
  StopInv w0 live s ->
  frames (world s) w' ->
  StopInv w0 live {| world := w'; stopPC := stopPC s; readerPC := rpc;
                     writerDone := wd |}.
Proof.
  intros (Hpc & Hc & Hd & Hb & evs & Ht & Ho & Hlive & Hdone)
         (Fc & Fd & (e & Fe & Fn) & Fs & Fb).
  unfold StopInv, barrierCovers in *. simpl. repeat split; try tauto.
  - congruence.
  - rewrite Fd. exact Hd.
  - lia.
  - exists (evs ++ e). repeat split.
    + rewrite Fe, Ht, app_assoc. reflexivity.
    + rewrite omap_app, Ho, (omap_stopPhase_none _ Fn), app_nil_r. reflexivity.
    + intros t Hin. destruct (Hlive t Hin) as [H|H].
      * left. exact (elem_of_weaken _ _ _ H Fs).
      * right. apply elem_of_app. left. exact H.
    + intros H3 t Hin. apply elem_of_app. left. apply Hdone; assumption.
Qed.

(** Every step keeps the invariant. *)
Lemma StopInv_step cfg w0 live s l s' :
  StopInv w0 live s -> sysStep cfg s l = Some s' -> StopInv w0 live s'.
Proof.
  intros HI Hstep. unfold StopInv, barrierCovers in *. destruct l as [|t| |env rd|env writeErr]; simpl in Hstep.
  - (* a statement of Stop *)
    destruct HI as (Hpc & Hc & Hd & Hb & evs & Ht & Ho & Hlive & Hdone).
    destruct s as [w pc rpc wd]. simpl in *.
    destruct pc as [|[|[|[|[|pc]]]]]; try lia; simpl in Hstep.
    + (* CloseAll *)
      revert Hstep. unfold Pool_CloseAll. run_M. intros [= <-].
      simpl. repeat split; try assumption; try lia.
      exists (evs ++ [EvCloseAll (hTask <$> (map_to_list (handlers (disp w))).*2)]).
      repeat split.
      * rewrite Ht, app_assoc. reflexivity.
      * rewrite omap_app, Ho. reflexivity.
      * intros t Hin. destruct (Hlive t Hin) as [H|H]; [left; exact H|].
        right. apply elem_of_app. left. exact H.
      * lia.
    + (* Wait *)
      revert Hstep. unfold handlersWg_Wait, emit.
      destruct (Nat.eqb_spec (handlersWg (disp w)) 0) as [Hz|]; [|discriminate].
      intros [= <-]. simpl. repeat split; try assumption; try lia.
      exists (evs ++ [EvWaitReturned]).
      assert (Hempty : tasks w = ∅) by (apply map_size_empty_inv; lia).
      assert (Hall : forall t, t ∈ live -> EvTaskExit t ∈ evs).
      { intros t Hin. destruct (Hlive t Hin) as [H|H]; [|exact H].
        rewrite Hempty, dom_empty_L in H. set_solver. }
      repeat split.
      * rewrite Ht, app_assoc. reflexivity.
      * rewrite omap_app, Ho. reflexivity.
      * intros t Hin. right. apply elem_of_app. left. auto.
      * intros _ t Hin. apply elem_of_app. left. auto.
    + (* closing := closed *)
      revert Hstep. unfold StoreClosing. run_M. intros [= <-].
      simpl. repeat split; try assumption; try lia.
      exists (evs ++ [EvStoreClosing 2]). repeat split.
      * rewrite Ht, app_assoc. reflexivity.
      * rewrite omap_app, Ho. reflexivity.
      * intros t Hin. right. apply elem_of_app. left. apply Hdone; [lia|exact Hin].
      * intros _ t Hin. apply elem_of_app. left. apply Hdone; [lia|exact Hin].
    + (* the device is closed *)
      revert Hstep. unfold dev_Close. run_M. intros [= <-].
      simpl. repeat split; try assumption; try lia.
      exists (evs ++ [EvDevClose]). repeat split.
      * rewrite Ht, app_assoc. reflexivity.
      * rewrite omap_app, Ho. reflexivity.
      * intros t Hin. right. apply elem_of_app. left. apply Hdone; [lia|exact Hin].
      * intros _ t Hin. apply elem_of_app. left. apply Hdone; [lia|exact Hin].
    + discriminate.
  - (* a handler task ends *)
    destruct (taskExit t (world s)) as [[] w'| |] eqn:Hexit; try discriminate.
    injection Hstep as <-.
    apply taskExit_run in Hexit as (id & Hid & Hwg & ->).
    destruct HI as (Hpc & Hc & Hd & Hb & evs & Ht & Ho & Hlive & Hdone).
    simpl. repeat split; try assumption; try lia.
    + rewrite map_size_delete_Some by eauto. lia.
    + exists (evs ++ [EvTaskExit t]). repeat split.
      * rewrite Ht, app_assoc. reflexivity.
      * rewrite omap_app, Ho. simpl. apply app_nil_r.
      * intros t' Hin. destruct (decide (t' = t)) as [->|Hne].
        -- right. apply elem_of_app. right. left.
        -- destruct (Hlive t' Hin) as [H|H].
           ++ left. apply elem_of_dom. rewrite lookup_delete_ne by congruence.
              apply elem_of_dom. exact H.
           ++ right. apply elem_of_app. left. exact H.
      * intros H3 t' Hin. apply elem_of_app. left. apply Hdone; assumption.
  - (* the reader tests its loop condition *)
    destruct (readerPC s); try discriminate.
    revert Hstep. unfold readerGuard. run_M. intros [= <-].
    apply (StopInv_frames w0 live s (world s)); [exact HI | apply frames_refl].
  - (* the reader handles what it read *)
    destruct (readerPC s); try discriminate.
    destruct (readerBody cfg env rd (world s)) as [r w'| |] eqn:Hb; try discriminate.
    injection Hstep as <-.
    apply (StopInv_frames w0 live s w'); [exact HI | exact (readerBody_frames _ _ _ _ _ _ Hb)].
  - (* the writer *)
    destruct (writerDone s); try discriminate.
    destruct (writerIteration env writeErr (world s)) as [r w'| |] eqn:Hw;
      try discriminate.
    injection Hstep as <-.
    apply (StopInv_frames w0 live s w');
      [exact HI | exact (writerIteration_frames _ _ _ _ _ Hw)].
Qed.

Lemma StopInv_run cfg w0 live steps : forall s s',
  StopInv w0 live s -> run cfg steps s = Some s' -> StopInv w0 live s'.
Proof.
  induction steps as [|l steps IH]; intros s s' HI Hrun; simpl in Hrun.
  - injection Hrun as <-. exact HI.
  - destruct (sysStep cfg s l) as [s1|] eqn:Hstep; [|discriminate].
    eapply IH; [|exact Hrun]. eapply StopInv_step; eassumption.
Qed.

(** Invoking [Stop] establishes the invariant. *)
Lemma StopInv_invoke cfg s0 s1 :
  wellStarted (world s0) -> stopPC s0 = 0%nat ->
  sysStep cfg s0 StopStep = Some s1 ->
  StopInv (world s0) (dom (tasks (world s0))) s1.
Proof.
  intros (Hc & Hd & Hb) Hpc. simpl. rewrite Hpc. simpl.
  unfold StoreClosing. run_M. intros [= <-].
  unfold StopInv, barrierCovers in *. simpl. repeat split; try assumption; try lia.
  exists [EvStoreClosing 1]. repeat split.
  - intros t Hin. left. exact Hin.
  - lia.
Qed.

Lemma sysStep_stopPC cfg s l s' :
  sysStep cfg s l = Some s' -> (stopPC s <= stopPC s')%nat.
Proof.
  destruct l; simpl; intros H; repeat break_match; try discriminate;
    injection H as <-; simpl; lia.
Qed.

(** Once the flag is closed the reader handles at most the packet it is
    already reading. *)
Lemma reads_after_closed cfg w0 live post : forall s s',
  StopInv w0 live s -> (4 <= stopPC s)%nat ->
  run cfg post s = Some s' ->
  (length (filter isRead post) <= readsLeft (readerPC s))%nat.
Proof.
  induction post as [|l post IH]; intros s s' HI Hpc Hrun; simpl in Hrun.
  - simpl. lia.
  - destruct (sysStep cfg s l) as [s1|] eqn:Hstep; [|discriminate].
    pose proof (StopInv_step _ _ _ _ _ _ HI Hstep) as HI1.
    pose proof (sysStep_stopPC _ _ _ _ Hstep) as Hmono.
    assert (Hpc1 : (4 <= stopPC s1)%nat) by lia.
    specialize (IH s1 s' HI1 Hpc1 Hrun).
    assert (Hclosed : closing (disp (world s)) = 2).
    { destruct HI as (_ & Hc & _). rewrite Hc. unfold flagAfter.
      destruct (Nat.ltb_spec (stopPC s) 1); [lia|].
      destruct (Nat.ltb_spec (stopPC s) 4); [lia|]. reflexivity. }
    destruct l as [|t| |env rd|env writeErr]; simpl in Hstep.
    + rewrite filter_cons_False by (simpl; auto).
      replace (readerPC s) with (readerPC s1); [exact IH|].
      repeat break_match; try discriminate; injection Hstep as <-; reflexivity.
    + rewrite filter_cons_False by (simpl; auto).
      replace (readerPC s) with (readerPC s1); [exact IH|].
      repeat break_match; try discriminate; injection Hstep as <-; reflexivity.
    + rewrite filter_cons_False by (simpl; auto).
      destruct (readerPC s) eqn:Hr; try discriminate.
      revert Hstep. unfold readerGuard. run_M. rewrite Hclosed. simpl.
      intros [= <-]. simpl in IH. simpl. exact IH.
    + rewrite filter_cons_True by (simpl; auto).
      destruct (readerPC s) eqn:Hr; try discriminate.
      destruct (readerBody cfg env rd (world s)) as [r w'| |]; try discriminate.
      injection Hstep as <-. simpl in IH. simpl.
      destruct r; simpl in IH; lia.
    + rewrite filter_cons_False by (simpl; auto).
      replace (readerPC s) with (readerPC s1); [exact IH|].
      repeat break_match; try discriminate; injection Hstep as <-; reflexivity.
Qed.

Lemma run_cons cfg l rest s :
  run cfg (l :: rest) s =
    match sysStep cfg s l with
    | Some s' => run cfg rest s'
    | None => None
    end.
Proof. reflexivity. Qed.

Lemma run_app cfg pre post : forall s,
  run cfg (pre ++ post) s =
    match run cfg pre s with
    | Some s1 => run cfg post s1
    | None => None
    end.
Proof.
  induction pre as [|l pre IH]; intros s; simpl; [reflexivity|].
  destruct (sysStep cfg s l); [apply IH | reflexivity].
Qed.

Lemma Pool_CloseAll_signals w :
  exists w',
    Pool_CloseAll w = Ret tt w' /\
    forall id h, handlers (disp w) !! id = Some h ->
                 handlers (disp w') !! id = Some (signalClose h).
Proof.
  unfold Pool_CloseAll. run_M. eexists. split; [reflexivity|].
  simpl. intros id h H. rewrite lookup_fmap, H. reflexivity.
Qed.

(** C1, amended: once [Stop] is invoked, whatever the reader, the writer and
    the handler tasks do in between, its five statements take effect in
    order (flag to closing, every registered handler signalled, the wait on
    the barrier, flag to closed, device closed); the wait returns, and so
    the flag becomes closed and the device is closed, only after every
    handler task that was running at the invocation has ended; and once the
    flag is closed the reader handles at most the one packet it was already
    reading, so no handler is created for any later packet. *)
Theorem Stop_choreography cfg s0 steps s :
  wellStarted (world s0) ->
  stopPC s0 = 0%nat ->
  run cfg (StopStep :: steps) s0 = Some s ->
  let evs := newEvents (world s0) (world s) in
  omap stopPhase evs = seq 1 (stopPC s) /\
  closing (disp (world s)) = flagAfter (stopPC s) /\
  devClosed (dev (disp (world s))) = (5 <=? stopPC s)%nat /\
  ((3 <= stopPC s)%nat ->
   forall t, t ∈ dom (tasks (world s0)) -> EvTaskExit t ∈ evs) /\
  (forall pre post s1,
     steps = pre ++ post ->
     run cfg (StopStep :: pre) s0 = Some s1 ->
     (4 <= stopPC s1)%nat ->
     (length (filter isRead post) <= 1)%nat) /\
  (forall w, exists w',
     Pool_CloseAll w = Ret tt w' /\
     forall id h, handlers (disp w) !! id = Some h ->
                  handlers (disp w') !! id = Some (signalClose h)).
Proof.
  intros Hstart Hpc0 Hrun evs.
  assert (Hinv : forall pre s1,
            run cfg (StopStep :: pre) s0 = Some s1 ->
            StopInv (world s0) (dom (tasks (world s0))) s1).
  { intros pre s1 H. rewrite run_cons in H.
    destruct (sysStep cfg s0 StopStep) as [s'|] eqn:Hfirst; [|discriminate].
    eapply StopInv_run; [|exact H].
    eapply StopInv_invoke; eassumption. }
  destruct (Hinv steps s Hrun) as (_ & Hc & Hd & _ & e & Ht & Ho & _ & Hdone).
  assert (E : evs = e).
  { unfold evs, newEvents. rewrite Ht. apply drop_app_length. }
  rewrite E. repeat split; try assumption.
  - intros pre post s1 -> Hpre Hpc.
    pose proof (Hinv pre s1 Hpre) as HI1.
    change (StopStep :: pre ++ post) with ((StopStep :: pre) ++ post) in Hrun.
    rewrite run_app, Hpre in Hrun.
    pose proof (reads_after_closed _ _ _ _ _ _ HI1 Hpc Hrun) as Hle.
    destruct (readerPC s1); simpl in Hle; lia.
  - apply Pool_CloseAll_signals.
Qed.

Lemma Stop_choreography_witness :
  wellStarted (world (startSystem busyWorld)) /\
  exists s,
    run exampleConfig (StopStep :: stopSchedule) (startSystem busyWorld) = Some s /\
    stopPC s = 5%nat /\
    omap stopPhase (newEvents busyWorld (world s)) = [1; 2; 3; 4; 5]%nat /\
    devClosed (dev (disp (world s))) = true /\
    EvTaskExit 0 ∈ newEvents busyWorld (world s).
Proof.
  assert (Hw : wellStarted (world (startSystem busyWorld))).
  { split; [reflexivity|]. split; [reflexivity|]. vm_compute. lia. }
  split; [exact Hw|].
  destruct (run exampleConfig (StopStep :: stopSchedule) (startSystem busyWorld))
    as [s|] eqn:Hrun; [|vm_compute in Hrun; discriminate].
  exists s. split; [reflexivity|].
  assert (Hpc : stopPC s = 5%nat).
  { vm_compute in Hrun. injection Hrun as <-. reflexivity. }
  destruct (Stop_choreography exampleConfig (startSystem busyWorld) stopSchedule s
              Hw eq_refl Hrun) as (Ho & _ & Hd & Hexit & _).
  rewrite Hpc in Ho, Hd, Hexit.
  split; [exact Hpc|]. split; [exact Ho|]. split; [exact Hd|].
  apply Hexit; [lia|]. vm_compute. set_solver.
Defined.

(** C1 as stated fails: with [Stop] under way (the flag is closing) the
    reader still handles a SYN of an unknown flow and a handler is created
    for it. *)
Lemma handler_created_during_stop_counterexample :
  exists s,
    run exampleConfig
        [StopStep; ReaderGuard; ReaderRead idleEnv (ReadPacket synData)]
        (startSystem freshWorld) = Some s /\
    closing (disp (world s)) = 1 /\
    trace (world s) =
      [EvStoreClosing 1; EvGet 1%nat; EvLogDebug (FromTUN 1%nat);
       EvCreated (newTCPHandler (PacketFromData tcpHeader synData) freshWorld);
       EvHandlePacket 0%nat 1%nat] /\
    handlers (disp (world s)) !! connIDOf unix.IPPROTO_TCP (PacketFromData tcpHeader synData)
      = Some (newTCPHandler (PacketFromData tcpHeader synData) freshWorld).
Proof.
  eexists. split; [vm_compute; reflexivity|].
  split; [reflexivity|]. split; [reflexivity|]. vm_compute. reflexivity.
Qed.

(** ** Single-flight creation *)

Lemma lookup_insert_cases (l : list GetPC) i x j pc :
  <[i := x]> l !! j = Some pc ->
  (j = i /\ pc = x) \/ (j <> i /\ l !! j = Some pc).
Proof.
  intros H. destruct (decide (j = i)) as [->|Hne].
  - left. split; [reflexivity|].
    assert (Hlt : (i < length l)%nat).
    { apply lookup_lt_Some in H. rewrite length_insert in H. exact H. }
    rewrite list_lookup_insert_eq in H by exact Hlt. congruence.
  - right. split; [exact Hne|].
    rewrite list_lookup_insert_ne in H by congruence. exact H.
Qed.

Lemma lookup_insert_self (l : list GetPC) i x y :
  l !! i = Some y -> <[i := x]> l !! i = Some x.
Proof.
  intros H. apply list_lookup_insert_eq. eapply lookup_lt_Some. exact H.
Qed.

(** A caller that ran its factory once has one run. *)
Lemma one_run (invs : list (nat * nat)) i k k' :
  NoDup invs.*1 -> (i, k) ∈ invs -> (i, k') ∈ invs -> k = k'.
Proof.
  induction invs as [|[j m] invs IH]; intros Hnd H1 H2.
  - inversion H1.
  - rewrite fmap_cons in Hnd. apply NoDup_cons in Hnd as [Hj Hnd].
    apply elem_of_cons in H1 as [H1|H1]; apply elem_of_cons in H2 as [H2|H2].
    + congruence.
    + injection H1 as <- <-. exfalso. apply Hj.
      apply list_elem_of_fmap. exists (i, k'). split; [reflexivity | exact H2].
    + injection H2 as <- <-. exfalso. apply Hj.
      apply list_elem_of_fmap. exists (i, k). split; [reflexivity | exact H1].
    + eauto.
Qed.

Section Race.

Variable F : ConnID.
Variable mk : nat -> nat -> Handler + error.

Lemma RaceInv_start reg n : reg !! F = None -> RaceInv F mk (raceStart reg n).
Proof.
  intros Hnone. unfold RaceInv, raceStart. simpl. repeat split.
  - intros i pc H. apply lookup_replicate in H as [-> _]. intros [].
  - discriminate.
  - intros i pc H. apply lookup_replicate in H as [-> _]. simpl. apply not_elem_of_nil.
  - constructor.
  - intros _ j k H. inversion H.
  - intros h H. congruence.
Qed.

(** The position of a caller that did not move stays sound when neither the
    entry of the flow changes nor a run is taken away. *)
Lemma callerOK_mono st st' j pc :
  registry st' !! F = registry st !! F ->
  (invocations st').*1 = (invocations st).*1 ->
  invocations st ⊆ invocations st' ->
  callerOK F mk st j pc -> callerOK F mk st' j pc.
Proof.
  intros Hreg Hfst Hsub. unfold callerOK.
  destruct pc as [| | |r|r|r]; rewrite ?Hreg, ?Hfst; try tauto.
  - intros [H (k & Hk & ->)]. split; [exact H|]. exists k. split; [auto | reflexivity].
  - destruct r as [h|e]; [tauto|]. intros (k & Hk & He). exists k. split; auto.
  - destruct r as [h|e]; [tauto|]. intros (k & Hk & He). exists k. split; auto.
Qed.

Lemma RaceInv_step st i st' :
  RaceInv F mk st -> raceStep F mk i st = Some st' -> RaceInv F mk st'.
Proof.
  intros HI Hstep. pose proof HI as (Hme & Hheld & Hok & Hnd & Hnone & Hsome).
  unfold raceStep in Hstep.
  destruct (callers st !! i) as [pc|] eqn:Hi; [|discriminate].
  assert (Hother : forall j pc', inCritical pc ->
            callers st !! j = Some pc' -> inCritical pc' -> j = i).
  { intros j pc' Hc Hj Hc'.
    pose proof (Hme j pc' Hj Hc'). pose proof (Hme i pc Hi Hc). congruence. }
  pose proof (Hok i pc Hi) as Hoki.
  destruct pc as [| | |r|r|r].
  - (* takes the lock *)
    destruct (lockHolder st) as [j|] eqn:Hlock; [discriminate|].
    injection Hstep as <-.
    assert (Hfree : forall j pc, callers st !! j = Some pc -> ~ inCritical pc).
    { intros j pc Hj Hc. specialize (Hme j pc Hj Hc). congruence. }
    unfold RaceInv. cbn [registry lockHolder callers invocations].
    split; [|split; [|split; [|split; [|split]]]].
    + intros j pc Hj Hc. apply lookup_insert_cases in Hj as [[-> _]|[_ Hj]];
        [reflexivity | exfalso; eapply Hfree; eassumption].
    + intros j [= <-]. exists Locked. split; [|exact I].
      eapply lookup_insert_self. exact Hi.
    + intros j pc Hj. apply lookup_insert_cases in Hj as [[-> ->]|[_ Hj]].
      * exact Hoki.
      * apply (callerOK_mono st); [reflexivity | reflexivity | reflexivity | auto].
    + exact Hnd.
    + intros Hreg j k Hjk. destruct (Hnone Hreg j k Hjk) as [He|Hm]; [left; exact He|].
      exfalso. eapply Hfree; [exact Hm | exact I].
    + exact Hsome.
  - (* looks the flow up *)
    injection Hstep as <-.
    assert (Hlock : lockHolder st = Some i) by (apply (Hme i Locked Hi I)).
    unfold RaceInv. cbn [registry lockHolder callers invocations].
    split; [|split; [|split; [|split; [|split]]]].
    + intros j pc Hj Hc. apply lookup_insert_cases in Hj as [[-> _]|[_ Hj]];
        [exact Hlock | eauto].
    + intros j Hj. rewrite Hlock in Hj. injection Hj as <-.
      eexists. split; [eapply lookup_insert_self; exact Hi|].
      destruct (registry st !! F); exact I.
    + intros j pc Hj. apply lookup_insert_cases in Hj as [[-> ->]|[_ Hj]].
      * destruct (registry st !! F) as [h|] eqn:Hreg; unfold callerOK;
          cbn [registry invocations]; [exact Hreg | split; [exact Hoki | exact Hreg]].
      * apply (callerOK_mono st); [reflexivity | reflexivity | reflexivity | auto].
    + exact Hnd.
    + intros Hreg j k Hjk. destruct (Hnone Hreg j k Hjk) as [He|Hm]; [left; exact He|].
      assert (j = i) by (eapply Hother; [exact I | exact Hm | exact I]).
      subst j. congruence.
    + exact Hsome.
  - (* runs its factory *)
    injection Hstep as <-.
    assert (Hlock : lockHolder st = Some i) by (apply (Hme i Missed Hi I)).
    destruct Hoki as [Hfresh Hreg].
    unfold RaceInv. cbn [registry lockHolder callers invocations].
    split; [|split; [|split; [|split; [|split]]]].
    + intros j pc Hj Hc. apply lookup_insert_cases in Hj as [[-> _]|[_ Hj]];
        [exact Hlock | eauto].
    + intros j Hj. rewrite Hlock in Hj. injection Hj as <-.
      eexists. split; [eapply lookup_insert_self; exact Hi | exact I].
    + intros j pc Hj. apply lookup_insert_cases in Hj as [[-> ->]|[Hne Hj]].
      * unfold callerOK. cbn [registry invocations]. split; [exact Hreg|].
        exists (nextInstance st). split; [|reflexivity].
        apply elem_of_app. right. apply list_elem_of_singleton. reflexivity.
      * specialize (Hok j pc Hj). unfold callerOK in *. cbn [registry invocations].
        assert (Hj' : forall (P : Prop), (j ∉ (invocations st).*1) ->
                  j ∉ (invocations st ++ [(i, nextInstance st)]).*1).
        { intros _ Hn. rewrite fmap_app. apply not_elem_of_app. split; [exact Hn|].
          simpl. apply not_elem_of_cons. split; [exact Hne | apply not_elem_of_nil]. }
        destruct pc as [| | |r|r|r].
        -- apply (Hj' True), Hok.
        -- apply (Hj' True), Hok.
        -- destruct Hok as [Hn Hr]. split; [apply (Hj' True), Hn | exact Hr].
        -- destruct Hok as [Hr (k & Hk & ->)]. split; [exact Hr|].
           exists k. split; [apply elem_of_app; left; exact Hk | reflexivity].
        -- destruct r as [h|e]; [exact Hok|]. destruct Hok as (k & Hk & He).
           exists k. split; [apply elem_of_app; left; exact Hk | exact He].
        -- destruct r as [h|e]; [exact Hok|]. destruct Hok as (k & Hk & He).
           exists k. split; [apply elem_of_app; left; exact Hk | exact He].
    + rewrite fmap_app. apply NoDup_app. split; [exact Hnd|]. split.
      * intros x Hx Hx'. simpl in Hx'. apply list_elem_of_singleton in Hx'. subst x.
        contradiction.
      * simpl. apply NoDup_singleton.
    + intros _ j k Hjk. apply elem_of_app in Hjk as [Hjk|Hjk].
      * destruct (Hnone Hreg j k Hjk) as [He|Hm]; [left; exact He|].
        assert (j = i) by (eapply Hother; [exact I | exact Hm | exact I]).
        subst j. congruence.
      * apply list_elem_of_singleton in Hjk. injection Hjk as -> ->. right.
        eapply lookup_insert_self. exact Hi.
    + intros h Hh. congruence.
  - (* stores the handler *)
    injection Hstep as <-.
    assert (Hlock : lockHolder st = Some i) by (apply (Hme i (Made r) Hi I)).
    destruct Hoki as [Hreg (k & Hk & Hr)].
    assert (Hmine : forall j pc', j <> i -> callers st !! j = Some pc' -> ~ inCritical pc').
    { intros j pc' Hne Hj Hc. apply Hne. eapply Hother; [exact I | exact Hj | exact Hc]. }
    assert (Hruns : forall j' k', (j', k') ∈ invocations st ->
              (j', k') = (i, k) \/ exists e, mk j' k' = inr e).
    { intros j' k' Hjk. destruct (Hnone Hreg j' k' Hjk) as [He|Hm]; [right; exact He|].
      assert (j' = i) by (eapply Hother; [exact I | exact Hm | exact I]). subst j'.
      left. f_equal. eapply one_run; eassumption. }
    unfold RaceInv. cbn [registry lockHolder callers invocations].
    split; [|split; [|split; [|split; [|split]]]].
    + intros j pc Hj Hc. apply lookup_insert_cases in Hj as [[-> _]|[_ Hj]];
        [exact Hlock | eauto].
    + intros j Hj. rewrite Hlock in Hj. injection Hj as <-.
      eexists. split; [eapply lookup_insert_self; exact Hi | exact I].
    + intros j pc Hj. apply lookup_insert_cases in Hj as [[-> ->]|[Hne Hj]].
      * unfold callerOK. cbn [registry invocations]. destruct r as [h|e].
        -- apply lookup_insert_eq.
        -- exists k. split; [exact Hk | congruence].
      * specialize (Hok j pc Hj). pose proof (Hmine j pc Hne Hj) as Hnc.
        unfold callerOK in *. cbn [registry invocations].
        destruct pc as [| | |r'|r'|r']; try (exfalso; apply Hnc; exact I).
        -- exact Hok.
        -- destruct r' as [h'|e']; [congruence | exact Hok].
    + exact Hnd.
    + intros Hreg' j' k' Hjk. destruct r as [h|e].
      * rewrite lookup_insert_eq in Hreg'. discriminate.
      * destruct (Hruns j' k' Hjk) as [[= -> ->]|He]; [|left; exact He].
        left. exists e. congruence.
    + intros h' Hh'. destruct r as [h|e].
      * rewrite lookup_insert_eq in Hh'. injection Hh' as <-.
        exists i, k. split; [exact Hk|]. split; [congruence | exact Hruns].
      * congruence.
  - (* releases the lock *)
    injection Hstep as <-.
    unfold RaceInv. cbn [registry lockHolder callers invocations].
    split; [|split; [|split; [|split; [|split]]]].
    + intros j pc Hj Hc. apply lookup_insert_cases in Hj as [[_ ->]|[Hne Hj]];
        [destruct Hc | exfalso; apply Hne; eapply Hother; eauto; exact I].
    + discriminate.
    + intros j pc Hj. apply lookup_insert_cases in Hj as [[-> ->]|[_ Hj]].
      * exact Hoki.
      * apply (callerOK_mono st); [reflexivity | reflexivity | reflexivity | auto].
    + exact Hnd.
    + intros Hreg j k Hjk. destruct (Hnone Hreg j k Hjk) as [He|Hm]; [left; exact He|].
      assert (j = i) by (eapply Hother; [exact I | exact Hm | exact I]).
      subst j. congruence.
    + exact Hsome.
  - discriminate.
Qed.

Lemma RaceInv_run schedule : forall st st',
  RaceInv F mk st -> raceRun F mk schedule st = Some st' -> RaceInv F mk st'.
Proof.
  induction schedule as [|i rest IH]; intros st st' HI Hrun; simpl in Hrun.
  - injection Hrun as <-. exact HI.
  - destruct (raceStep F mk i st) as [st1|] eqn:Hstep; [|discriminate].
    eapply IH; [|exact Hrun]. eapply RaceInv_step; eassumption.
Qed.

Lemma sum_insert (l : list GetPC) i x y :
  l !! i = Some y ->
  (sum_list (stepsLeft <$> <[i := x]> l) + stepsLeft y
   = sum_list (stepsLeft <$> l) + stepsLeft x)%nat.
Proof.
  revert i. induction l as [|a l IH]; intros [|i] H; try discriminate.
  - injection H as ->. change (<[0%nat := x]> (y :: l)) with (x :: l).
    rewrite !fmap_cons. simpl. lia.
  - change (<[S i := x]> (a :: l)) with (a :: <[i := x]> l).
    change ((a :: l) !! S i) with (l !! i) in H.
    specialize (IH i H). rewrite !fmap_cons. simpl. lia.
Qed.

(** Every step brings a caller closer to its return. *)
Lemma raceStep_left st i st' :
  raceStep F mk i st = Some st' -> (totalLeft st' < totalLeft st)%nat.
Proof.
  unfold raceStep, totalLeft. destruct (callers st !! i) as [pc|] eqn:Hi; [|discriminate].
  destruct pc; try discriminate;
    try (destruct (lockHolder st); [discriminate|]);
    intros [= <-]; cbn [callers];
    match goal with
    | |- context [<[i := ?x]> (callers st)] =>
        pose proof (sum_insert (callers st) i x _ Hi) as Hs
    end;
    try destruct (registry st !! F); cbn [stepsLeft] in Hs; lia.
Qed.

Lemma raceStep_length st i st' :
  raceStep F mk i st = Some st' -> length (callers st') = length (callers st).
Proof.
  unfold raceStep. destruct (callers st !! i) as [pc|]; [|discriminate].
  destruct pc; try discriminate;
    try (destruct (lockHolder st); [discriminate|]);
    intros [= <-]; simpl; apply length_insert.
Qed.

Lemma raceRun_left schedule : forall st st',
  raceRun F mk schedule st = Some st' ->
  (length schedule + totalLeft st' <= totalLeft st)%nat /\
  length (callers st') = length (callers st).
Proof.
  induction schedule as [|i rest IH]; intros st st' Hrun; simpl in Hrun.
  - injection Hrun as <-. split; [simpl; lia | reflexivity].
  - destruct (raceStep F mk i st) as [st1|] eqn:Hstep; [|discriminate].
    destruct (IH _ _ Hrun) as [H1 H2].
    apply raceStep_left in Hstep as H3. apply raceStep_length in Hstep as H4.
    simpl. split; [lia | congruence].
Qed.

Lemma totalLeft_start reg n : totalLeft (raceStart reg n) = (5 * n)%nat.
Proof.
  unfold totalLeft, raceStart. cbn [callers].
  induction n as [|n IH]; [reflexivity|].
  change (replicate (S n) Waiting) with (Waiting :: replicate n Waiting).
  rewrite fmap_cons. change (sum_list (?a :: ?l)) with (a + sum_list l)%nat.
  rewrite IH. cbn [stepsLeft]. lia.
Qed.

(** When no caller can move, every caller has returned. *)
Lemma race_stuck_returned st :
  RaceInv F mk st ->
  (forall i, raceStep F mk i st = None) ->
  forall i pc, callers st !! i = Some pc -> exists r, pc = Returned r.
Proof.
  intros (_ & Hheld & _) Hstuck i pc Hi.
  assert (Hcrit : forall j pcj, callers st !! j = Some pcj -> ~ inCritical pcj).
  { intros j pcj Hj Hc. specialize (Hstuck j). unfold raceStep in Hstuck.
    rewrite Hj in Hstuck. destruct pcj; try discriminate; destruct Hc. }
  destruct pc as [| | |r|r|r];
    try (exfalso; eapply Hcrit; [exact Hi | exact I]); [|eauto].
  exfalso. specialize (Hstuck i) as Hs. unfold raceStep in Hs. rewrite Hi in Hs.
  destruct (lockHolder st) as [j|] eqn:Hlock; [|discriminate].
  destruct (Hheld j eq_refl) as (pcj & Hj & Hc). eapply Hcrit; eassumption.
Qed.

(** At most one run of a factory made a handler. *)
Lemma RaceInv_one_handler st j k j' k' h h' :
  RaceInv F mk st ->
  (j, k) ∈ invocations st -> (j', k') ∈ invocations st ->
  mk j k = inl h -> mk j' k' = inl h' ->
  (j, k) = (j', k').
Proof.
  intros (Hme & _ & _ & Hnd & Hnone & Hsome) Hjk Hjk' Hh Hh'.
  destruct (registry st !! F) as [h0|] eqn:Hreg.
  - destruct (Hsome h0 eq_refl) as (j0 & k0 & _ & _ & Hall).
    destruct (Hall j k Hjk) as [->|[e He]]; [|congruence].
    destruct (Hall j' k' Hjk') as [->|[e He]]; [reflexivity | congruence].
  - destruct (Hnone eq_refl j k Hjk) as [[e He]|Hm]; [congruence|].
    destruct (Hnone eq_refl j' k' Hjk') as [[e He]|Hm']; [congruence|].
    pose proof (Hme j _ Hm I) as H1. pose proof (Hme j' _ Hm' I) as H2.
    assert (j = j') by congruence. subst j'.
    f_equal. eapply one_run; eassumption.
Qed.

(** C2, amended: however the calls of [n] callers racing on a flow that
    has no entry interleave, and whatever their factories return, at most
    one run of a factory makes a handler and no caller runs its factory
    twice.  A caller that received a handler received the one stored in
    the registry, the handler that run made, so all callers that received a
    handler received the same instance; a caller that received an error
    received the error of its own factory, which stored nothing.  When no
    run failed, the factory ran at most once, and exactly once as soon as
    a caller has returned.  The race ends: it takes at most five steps per
    caller, and when no caller can move every caller has returned. *)
Theorem Pool_Get_single_flight reg n schedule st :
  reg !! F = None ->
  raceRun F mk schedule (raceStart reg n) = Some st ->
  (forall j k j' k' h h',
     (j, k) ∈ invocations st -> (j', k') ∈ invocations st ->
     mk j k = inl h -> mk j' k' = inl h' -> (j, k) = (j', k')) /\
  NoDup (invocations st).*1 /\
  (forall i h,
     callers st !! i = Some (Returned (inl h)) ->
     registry st !! F = Some h /\
     exists j k, (j, k) ∈ invocations st /\ mk j k = inl h) /\
  (forall i j hi hj,
     callers st !! i = Some (Returned (inl hi)) ->
     callers st !! j = Some (Returned (inl hj)) ->
     hi = hj) /\
  (forall i e,
     callers st !! i = Some (Returned (inr e)) ->
     exists k, (i, k) ∈ invocations st /\ mk i k = inr e) /\
  ((forall j k, (j, k) ∈ invocations st -> exists h, mk j k = inl h) ->
   (factoryCalls st <= 1)%nat /\
   forall i r, callers st !! i = Some (Returned r) -> factoryCalls st = 1%nat) /\
  (length schedule <= 5 * n)%nat /\
  ((forall i, raceStep F mk i st = None) ->
   forall i, (i < n)%nat -> exists r, callers st !! i = Some (Returned r)).
Proof.
  intros Hnone Hrun.
  pose proof (RaceInv_run _ _ _ (RaceInv_start reg n Hnone) Hrun) as HI.
  pose proof (raceRun_left _ _ _ Hrun) as [Hleft Hlen].
  rewrite totalLeft_start in Hleft.
  pose proof HI as (_ & _ & Hok & Hnd & _ & Hsome).
  assert (Hgot : forall i h,
            callers st !! i = Some (Returned (inl h)) ->
            registry st !! F = Some h /\
            exists j k, (j, k) ∈ invocations st /\ mk j k = inl h).
  { intros i h Hi. pose proof (Hok i _ Hi) as Hreg. simpl in Hreg.
    split; [exact Hreg|].
    destruct (Hsome h Hreg) as (j & k & Hjk & Hmk & _). eauto. }
  assert (Herr : forall i e,
            callers st !! i = Some (Returned (inr e)) ->
            exists k, (i, k) ∈ invocations st /\ mk i k = inr e).
  { intros i e Hi. exact (Hok i _ Hi). }
  split; [|split; [exact Hnd|split; [exact Hgot|split; [|split; [exact Herr|split;
    [|split]]]]]].
  - intros j k j' k' h h'. apply RaceInv_one_handler. exact HI.
  - intros i j hi hj Hi Hj.
    destruct (Hgot i hi Hi) as [Hri _]. destruct (Hgot j hj Hj) as [Hrj _]. congruence.
  - intros Hall. unfold factoryCalls.
    assert (Hle : (length (invocations st) <= 1)%nat).
    { apply NoDup_fmap_1 in Hnd.
      destruct (invocations st) as [|[j k] [|[j' k'] rest]] eqn:Hinv;
        [simpl; lia | simpl; lia |].
      exfalso.
      destruct (Hall j k) as [h Hh]; [left|].
      destruct (Hall j' k') as [h' Hh']; [right; left|].
      assert (E : (j, k) = (j', k')).
      { apply (RaceInv_one_handler st j k j' k' h h' HI); try assumption;
          rewrite Hinv; [left | right; left]. }
      apply NoDup_cons in Hnd as [Hnotin _]. apply Hnotin. rewrite E. left. }
    split; [exact Hle|]. intros i r Hi.
    assert (Hpos : (0 < length (invocations st))%nat).
    { destruct r as [h|e].
      - destruct (Hgot i h Hi) as (_ & j & k & Hjk & _).
        destruct (invocations st); [inversion Hjk | simpl; lia].
      - destruct (Herr i e Hi) as (k & Hjk & _).
        destruct (invocations st); [inversion Hjk | simpl; lia]. }
    lia.
  - lia.
  - intros Hstuck i Hlt.
    assert (Hlen' : length (callers st) = n).
    { rewrite Hlen. unfold raceStart. simpl. apply length_replicate. }
    destruct (lookup_lt_is_Some_2 (callers st) i) as [pc Hpc]; [lia|].
    destruct (race_stuck_returned st HI Hstuck i pc Hpc) as [r ->].
    exists r. exact Hpc.
Qed.

End Race.

Lemma sample_race :
  raceRun sampleFlow sampleFactory [1; 1; 1; 1; 1; 0; 0; 0]%nat (raceStart ∅ 2)
    = Some raceEnd.
Proof. vm_compute. reflexivity. Qed.

Lemma rst_race :
  raceRun sampleFlow rstThenSyn [0; 0; 0; 0; 0; 1; 1; 1; 1; 1]%nat (raceStart ∅ 2)
    = Some rstRaceEnd.
Proof. vm_compute. reflexivity. Qed.

Lemma rst_race_over i : raceStep sampleFlow rstThenSyn i rstRaceEnd = None.
Proof. destruct i as [|[|i]]; reflexivity. Qed.

Lemma Pool_Get_single_flight_witness :
  (∅ : gmap ConnID Handler) !! sampleFlow = None /\
  raceRun sampleFlow sampleFactory [1; 1; 1; 1; 1; 0; 0; 0]%nat (raceStart ∅ 2)
    = Some raceEnd /\
  (forall i j hi hj,
     callers raceEnd !! i = Some (Returned (inl hi)) ->
     callers raceEnd !! j = Some (Returned (inl hj)) ->
     hi = hj) /\
  raceRun sampleFlow rstThenSyn [0; 0; 0; 0; 0; 1; 1; 1; 1; 1]%nat (raceStart ∅ 2)
    = Some rstRaceEnd /\
  (forall i h,
     callers rstRaceEnd !! i = Some (Returned (inl h)) ->
     registry rstRaceEnd !! sampleFlow = Some h /\
     exists j k, (j, k) ∈ invocations rstRaceEnd /\ rstThenSyn j k = inl h) /\
  (forall i e,
     callers rstRaceEnd !! i = Some (Returned (inr e)) ->
     exists k, (i, k) ∈ invocations rstRaceEnd /\ rstThenSyn i k = inr e).
Proof.
  split; [reflexivity|]. split; [exact sample_race|].
  pose proof (Pool_Get_single_flight sampleFlow sampleFactory
                ∅ 2 _ raceEnd eq_refl sample_race) as H.
  pose proof (Pool_Get_single_flight sampleFlow rstThenSyn
                ∅ 2 _ rstRaceEnd eq_refl rst_race) as H'.
  split; [exact (proj1 (proj2 (proj2 (proj2 H))))|].
  split; [exact rst_race|].
  split; [exact (proj1 (proj2 (proj2 H')))|].
  exact (proj1 (proj2 (proj2 (proj2 (proj2 H'))))).
Defined.

(** C2 as stated fails: two callers of [tcp] race on a flow without entry,
    caller 0 with a RST and caller 1 with a SYN.  When caller 0 goes first
    its factory fails and stores nothing, so caller 1 misses too and runs
    its factory: the factory ran twice, and the callers did not receive the
    same result. *)
Lemma failing_factory_counterexample :
  (∅ : gmap ConnID Handler) !! sampleFlow = None /\
  raceRun sampleFlow rstThenSyn [0; 0; 0; 0; 0; 1; 1; 1; 1; 1]%nat (raceStart ∅ 2)
    = Some rstRaceEnd /\
  (forall i, raceStep sampleFlow rstThenSyn i rstRaceEnd = None) /\
  factoryCalls rstRaceEnd = 2%nat /\
  exists e h,
    callers rstRaceEnd !! 0%nat = Some (Returned (inr e)) /\
    callers rstRaceEnd !! 1%nat = Some (Returned (inl h)).
Proof.
  split; [reflexivity|]. split; [exact rst_race|]. split; [exact rst_race_over|].
  split; [reflexivity|]. eexists _, _. split; reflexivity.
Qed.

(** * Further properties of the dispatcher *)

Ltac break_goal :=
  match goal with
  | |- context [match ?x with _ => _ end] =>
      lazymatch x with
      | context [match _ with _ => _ end] => fail
      | _ => destruct x eqn:?
      end
  end.

(** ** UDP flows *)

(** X9: a datagram of a flow that has a datagram handler (generic or DNS
    interceptor) in the registry is handed to that handler; the factory
    does not run, so the barrier is not incremented, no handler is created
    and nothing is queued. *)
Theorem udp_known_flow env dg w uh :
  handlers (disp w) !! connIDOf unix.IPPROTO_UDP dg = Some uh ->
  hKind uh <> TCPHandler ->
  udp env dg w =
    Ret tt (withTrace [EvLogDebug (FromTUN (bufId (pktData dg)));
                       EvNewDatagram (hTask uh) (bufId (pktData dg))]
              (disp w) w).
Proof.
  intros Hhit Hkind. unfold udp.
  unfold mbind at 1 2. unfold M_bind at 1 2. simpl.
  rewrite (Pool_Get_hit _ _ _ uh) by exact Hhit.
  unfold NewDatagram. destruct (hKind uh); [congruence| |];
    run_M; unfold withTrace; rewrite <- app_assoc; reflexivity.
Qed.

Lemma dnsBusyWorld_handler :
  handlers (disp dnsBusyWorld) !! connIDOf unix.IPPROTO_UDP dnsQuery =
    Some {| hKind := DnsInterceptor; hConn := connIDOf unix.IPPROTO_UDP dnsQuery;
            hTask := 0; closeRequested := false |}.
Proof. unfold dnsBusyWorld, afterUDPCreate. simpl. apply lookup_insert_eq. Qed.

Lemma udp_known_flow_witness :
  udp idleEnv dnsQuery dnsBusyWorld =
    Ret tt (withTrace [EvLogDebug (FromTUN 1%nat); EvNewDatagram 0%nat 1%nat]
              (disp dnsBusyWorld) dnsBusyWorld).
Proof.
  refine (udp_known_flow idleEnv dnsQuery dnsBusyWorld _ dnsBusyWorld_handler _).
  discriminate.
Defined.

(** X10: a UDP datagram that reaches the protocol switch and whose
    destination is link-local (unicast or multicast) is ignored: its buffer
    goes back to the pool, and nothing is logged, queued or created,
    whatever its ports and whether or not the queue has room. *)
Theorem handlePacket_udp_link_local cfg env data w ipHdr data' w1 :
  entersSwitch cfg data w = Some (ipHdr, data', w1) ->
  L4Protocol ipHdr = unix.IPPROTO_UDP ->
  isLinkLocal (Destination ipHdr) = true ->
  handlePacket cfg env data w = Ret tt (withTrace [EvPut (bufId data')] (disp w1) w1).
Proof.
  intros Hsw Hproto Hll. rewrite (handlePacket_switch _ _ _ _ _ _ _ Hsw).
  unfold dispatchL4. rewrite Hproto, Hll. reflexivity.
Qed.

Lemma handlePacket_udp_link_local_witness :
  entersSwitch exampleConfig netbiosLinkLocalData freshWorld
    = Some (netbiosLinkLocalHeader, netbiosLinkLocalData, freshWorld) /\
  handlePacket exampleConfig idleEnv netbiosLinkLocalData freshWorld =
    Ret tt (withTrace [EvPut 1%nat] (disp freshWorld) freshWorld).
Proof.
  split; [reflexivity|].
  exact (handlePacket_udp_link_local exampleConfig idleEnv netbiosLinkLocalData
           freshWorld netbiosLinkLocalHeader netbiosLinkLocalData freshWorld
           eq_refl eq_refl eq_refl).
Defined.

Lemma Equal_nil ip : ip <> [] -> net.Equal ip [] = false.
Proof.
  intros Hne. unfold net.Equal. simpl.
  destruct ip as [|b ip]; [congruence|]. simpl.
  rewrite !andb_false_r. reflexivity.
Qed.

Lemma udp_plain_handler env dg w :
  handlers (disp w) !! connIDOf unix.IPPROTO_UDP dg = None ->
  toDNS (disp w) dg = false ->
  udp env dg w = Ret tt (afterUDPCreate UDPHandler dg w).
Proof.
  intros Hnone Hdns. unfold udp.
  unfold mbind at 1 2. unfold M_bind at 1 2. simpl.
  rewrite Pool_Get_miss by exact Hnone.
  unfold afterUDPCreate, handlersWg_Add, NewHandler, NewDatagram.
  run_M.
  destruct (Z.ltb_spec (Z.of_nat (handlersWg (disp w)) + 1) 0) as [?|_]; [lia|].
  simpl.
  replace (Z.to_nat (Z.of_nat (handlersWg (disp w)) + 1))
    with (S (handlersWg (disp w))) by lia.
  unfold toDNS in Hdns. simpl in Hdns. unfold L4HeaderOf in *. rewrite Hdns. simpl.
  rewrite <- !app_assoc. reflexivity.
Qed.

(** X11: as long as no DNS address is configured ([dnsIP] is nil, as
    [NewDispatcher] leaves it), no datagram gets the DNS interceptor: the
    first datagram of a flow creates the generic UDP handler, also when its
    destination port is 0, the zero value of [dnsPort]. *)
Theorem udp_without_dns_config env dg w :
  dnsIP (disp w) = [] ->
  Destination (IPHeader dg) <> [] ->
  handlers (disp w) !! connIDOf unix.IPPROTO_UDP dg = None ->
  udp env dg w = Ret tt (afterUDPCreate UDPHandler dg w).
Proof.
  intros Hip Hdst Hnone. apply udp_plain_handler; [exact Hnone|].
  unfold toDNS. rewrite Hip, Equal_nil by exact Hdst. apply andb_false_r.
Qed.

Lemma udp_without_dns_config_witness :
  dnsIP (disp freshWorld) = [] /\
  udp idleEnv dnsQuery freshWorld = Ret tt (afterUDPCreate UDPHandler dnsQuery freshWorld).
Proof.
  split; [reflexivity|].
  refine (udp_without_dns_config idleEnv dnsQuery freshWorld eq_refl _ eq_refl).
  discriminate.
Defined.

(** ** The DNS redirect *)

Lemma To4_cases a x :
  net.To4 a = Some x ->
  (length a = 4%nat /\ x = a) \/
  (length a = 16%nat /\ a = net.v4InV6Prefix ++ x /\ length x = 4%nat).
Proof.
  unfold net.To4, net.IPv4len, net.IPv6len.
  destruct (Nat.eqb_spec (length a) 4) as [H4|H4].
  - intros [= <-]. left. split; [assumption | reflexivity].
  - destruct (Nat.eqb_spec (length a) 16) as [H16|H16]; [|discriminate].
    cbn [andb].
    destruct (net.isZeros (take 10 a)) eqn:Hz; [|discriminate]. cbn [andb].
    destruct (Z.eqb_spec (net.idx a 10) 255) as [H10|]; [|discriminate]. cbn [andb].
    destruct (Z.eqb_spec (net.idx a 11) 255) as [H11|]; [|discriminate].
    intros [= <-]. right. split; [assumption|].
    do 17 (destruct a as [|? a]; try discriminate H16).
    unfold net.isZeros in Hz. cbn [take forallb] in Hz.
    unfold net.idx in H10, H11. cbn [nth] in H10, H11.
    repeat match goal with
           | H : _ && _ = true |- _ => apply andb_true_iff in H as [? H]
           | H : (0 =? _) = true |- _ => apply Z.eqb_eq in H
           end.
    subst. split; reflexivity.
Qed.

Lemma Equal_To4 a b x :
  net.To4 a = Some x -> net.To4 b = Some x -> net.Equal a b = true.
Proof.
  intros Ha Hb.
  destruct (To4_cases _ _ Ha) as [[La ->]|(La & -> & Lx)];
    destruct (To4_cases _ _ Hb) as [[Lb Eb]|(Lb & Eb & Lx')]; subst; unfold net.Equal.
  - rewrite Nat.eqb_refl. unfold net.bytesEqual. apply bool_decide_eq_true. reflexivity.
  - rewrite La, Lb. simpl.
    unfold net.bytesEqual. rewrite !bool_decide_true; reflexivity.
  - rewrite La, Lb. simpl.
    unfold net.bytesEqual. rewrite !bool_decide_true; reflexivity.
  - rewrite Nat.eqb_refl. unfold net.bytesEqual. apply bool_decide_eq_true. reflexivity.
Qed.

Lemma udp_dns_handler env dg w :
  handlers (disp w) !! connIDOf unix.IPPROTO_UDP dg = None ->
  toDNS (disp w) dg = true ->
  dnsInterceptorFails env = false ->
  udp env dg w = Ret tt (afterUDPCreate DnsInterceptor dg w).
Proof.
  intros Hnone Hdns Hok. unfold udp.
  unfold mbind at 1 2. unfold M_bind at 1 2. simpl.
  rewrite Pool_Get_miss by exact Hnone.
  unfold afterUDPCreate, handlersWg_Add, NewDnsInterceptor, NewHandler, NewDatagram.
  run_M.
  destruct (Z.ltb_spec (Z.of_nat (handlersWg (disp w)) + 1) 0) as [?|_]; [lia|].
  simpl.
  replace (Z.to_nat (Z.of_nat (handlersWg (disp w)) + 1))
    with (S (handlersWg (disp w))) by lia.
  unfold toDNS in Hdns. simpl in Hdns. unfold L4HeaderOf in *. rewrite Hdns, Hok. simpl.
  rewrite <- !app_assoc. reflexivity.
Qed.

Lemma udp_dns_failure env dg w :
  handlers (disp w) !! connIDOf unix.IPPROTO_UDP dg = None ->
  toDNS (disp w) dg = true ->
  dnsInterceptorFails env = true ->
  udp env dg w =
    Ret tt (withTrace [EvLogDebug (FromTUN (bufId (pktData dg))); EvLogError dns_Err]
              (set_handlersWg (S (handlersWg (disp w))) (disp w)) w).
Proof.
  intros Hnone Hdns Hfail. unfold udp.
  unfold mbind at 1 2. unfold M_bind at 1 2. simpl.
  rewrite Pool_Get_miss by exact Hnone.
  unfold withTrace, handlersWg_Add, NewDnsInterceptor, NewHandler, NewDatagram.
  run_M.
  destruct (Z.ltb_spec (Z.of_nat (handlersWg (disp w)) + 1) 0) as [?|_]; [lia|].
  simpl.
  replace (Z.to_nat (Z.of_nat (handlersWg (disp w)) + 1))
    with (S (handlersWg (disp w))) by lia.
  unfold toDNS in Hdns. simpl in Hdns. unfold L4HeaderOf in *. rewrite Hdns, Hfail. simpl.
  rewrite <- !app_assoc. reflexivity.
Qed.

(** X27: [ConfigureDNS] stores the address, the port and the local address
    of the redirect, whatever they are, and returns nil.  From then on the
    first datagram of a flow gets the DNS interceptor exactly when its
    destination port is the configured port and its destination address is
    equal to the configured one as [net.IP.Equal] has it (an interceptor
    that fails to start gives the logged error instead), and the generic
    handler otherwise.  For [net.IP.Equal] a 4-byte address and its
    IPv4-mapped 16-byte form are the same address, on either side. *)
Theorem ConfigureDNS_redirects ip port addr w :
  let w1 := withTrace [] (set_dns ip port addr (disp w)) w in
  ConfigureDNS ip port addr w = Ret None w1 /\
  (forall env dg,
     handlers (disp w) !! connIDOf unix.IPPROTO_UDP dg = None ->
     DestinationPort (L4HeaderOf dg) = port ->
     net.Equal (Destination (IPHeader dg)) ip = true ->
     (dnsInterceptorFails env = false ->
      udp env dg w1 = Ret tt (afterUDPCreate DnsInterceptor dg w1)) /\
     (dnsInterceptorFails env = true ->
      udp env dg w1 =
        Ret tt (withTrace [EvLogDebug (FromTUN (bufId (pktData dg))); EvLogError dns_Err]
                  (set_handlersWg (S (handlersWg (disp w1))) (disp w1)) w1))) /\
  (forall env dg,
     handlers (disp w) !! connIDOf unix.IPPROTO_UDP dg = None ->
     DestinationPort (L4HeaderOf dg) <> port \/
       net.Equal (Destination (IPHeader dg)) ip = false ->
     udp env dg w1 = Ret tt (afterUDPCreate UDPHandler dg w1)) /\
  (forall a b ip4, net.To4 a = Some ip4 -> net.To4 b = Some ip4 -> net.Equal a b = true).
Proof.
  intros w1. split; [|split; [|split]].
  - unfold ConfigureDNS. run_M. unfold w1, withTrace. rewrite app_nil_r. reflexivity.
  - intros env dg Hnone Hport Heq.
    assert (Hdns : toDNS (disp w1) dg = true).
    { unfold toDNS, w1. simpl. rewrite Hport, Z.eqb_refl, Heq. reflexivity. }
    split; intros Hf.
    + apply udp_dns_handler; assumption.
    + apply udp_dns_failure; assumption.
  - intros env dg Hnone Hother. apply udp_plain_handler; [exact Hnone|].
    unfold toDNS, w1. simpl. destruct Hother as [Hport|Heq].
    + destruct (Z.eqb_spec (DestinationPort (L4HeaderOf dg)) port); [contradiction|].
      reflexivity.
    + rewrite Heq. apply andb_false_r.
  - intros a b ip4. apply Equal_To4.
Qed.

Lemma ConfigureDNS_redirects_witness :
  ConfigureDNS [10; 0; 0; 53] 53 None freshWorld = Ret None dnsWorld /\
  udp idleEnv mappedQuery dnsWorld =
    Ret tt (afterUDPCreate DnsInterceptor mappedQuery dnsWorld) /\
  udp idleEnv v6Query v6DnsWorld =
    Ret tt (afterUDPCreate DnsInterceptor v6Query v6DnsWorld).
Proof.
  pose proof (ConfigureDNS_redirects [10; 0; 0; 53] 53 None freshWorld) as H4.
  pose proof (ConfigureDNS_redirects v6Address 53 None freshWorld) as H6.
  split; [exact (proj1 H4)|]. split.
  - exact (proj1 (proj1 (proj2 H4) idleEnv mappedQuery eq_refl eq_refl eq_refl) eq_refl).
  - exact (proj1 (proj1 (proj2 H6) idleEnv v6Query eq_refl eq_refl eq_refl) eq_refl).
Defined.

(** ** One handler for a flow *)

Lemma tcp_creates env pkt w :
  SYN (L4HeaderOf pkt) = true ->
  RST (L4HeaderOf pkt) = false ->
  handlers (disp w) !! connIDOf unix.IPPROTO_TCP pkt = None ->
  tcp env pkt w = Ret tt (afterSYN pkt w).
Proof.
  intros Hsyn Hrst Hnone. unfold tcp.
  unfold mbind at 1 2. unfold M_bind at 1 2. simpl.
  rewrite Pool_Get_miss by exact Hnone. rewrite Hrst, Hsyn. simpl.
  unfold afterSYN, newTCPHandler, handlersWg_Add, NewHandler, HandlePacket.
  run_M.
  destruct (Z.ltb_spec (Z.of_nat (handlersWg (disp w)) + 1) 0) as [?|_]; [lia|].
  simpl. rewrite <- !app_assoc. simpl.
  replace (Z.to_nat (Z.of_nat (handlersWg (disp w)) + 1))
    with (S (handlersWg (disp w))) by lia.
  reflexivity.
Qed.

Lemma tcp_finds env pkt w wf :
  handlers (disp w) !! connIDOf unix.IPPROTO_TCP pkt = Some wf ->
  hKind wf = TCPHandler ->
  tcp env pkt w =
    Ret tt (withTrace [EvLogDebug (FromTUN (bufId (pktData pkt)));
                       EvHandlePacket (hTask wf) (bufId (pktData pkt))]
              (disp w) w).
Proof.
  intros Hhit Hkind. unfold tcp.
  unfold mbind at 1 2. unfold M_bind at 1 2. simpl.
  rewrite (Pool_Get_hit _ _ _ wf) by exact Hhit.
  unfold HandlePacket. rewrite Hkind. run_M.
  unfold withTrace. rewrite <- app_assoc. reflexivity.
Qed.

(** X12: two calls of [tcp] in a row for one flow share one handler: after
    the SYN of an unknown flow, a second packet with the same flow
    identifier, whatever its flags, goes to the handler the SYN created;
    the barrier was incremented once and the registry gained one entry. *)
Theorem tcp_flow_shares_handler env1 env2 pkt1 pkt2 w :
  SYN (L4HeaderOf pkt1) = true ->
  RST (L4HeaderOf pkt1) = false ->
  handlers (disp w) !! connIDOf unix.IPPROTO_TCP pkt1 = None ->
  connIDOf unix.IPPROTO_TCP pkt2 = connIDOf unix.IPPROTO_TCP pkt1 ->
  (tcp env1 pkt1 ;; tcp env2 pkt2) w =
    Ret tt (withTrace [EvLogDebug (FromTUN (bufId (pktData pkt2)));
                       EvHandlePacket (nextTask w) (bufId (pktData pkt2))]
              (disp (afterSYN pkt1 w)) (afterSYN pkt1 w)) /\
  handlersWg (disp (afterSYN pkt1 w)) = S (handlersWg (disp w)) /\
  size (handlers (disp (afterSYN pkt1 w))) = S (size (handlers (disp w))).
Proof.
  intros Hsyn Hrst Hnone Hsame. split; [|split].
  - unfold mbind, M_bind. rewrite tcp_creates by assumption.
    apply (tcp_finds env2 pkt2 (afterSYN pkt1 w) (newTCPHandler pkt1 w));
      [|reflexivity].
    rewrite Hsame. unfold afterSYN. simpl. apply lookup_insert_eq.
  - reflexivity.
  - unfold afterSYN. simpl. apply map_size_insert_None. exact Hnone.
Qed.

Lemma tcp_flow_shares_handler_witness :
  (tcp idleEnv (PacketFromData tcpHeader synData) ;; tcp idleEnv ackPacket) freshWorld =
    Ret tt (withTrace [EvLogDebug (FromTUN 1%nat); EvHandlePacket 0%nat 1%nat]
              (disp (afterSYN (PacketFromData tcpHeader synData) freshWorld))
              (afterSYN (PacketFromData tcpHeader synData) freshWorld)).
Proof.
  exact (proj1 (tcp_flow_shares_handler idleEnv idleEnv
                  (PacketFromData tcpHeader synData) ackPacket freshWorld
                  eq_refl eq_refl eq_refl eq_refl)).
Defined.

(** ** What a packet may change *)

Ltac kind_contra Hw :=
  match goal with
  | Hl : handlers (disp _) !! ?id = Some ?h, Hk : hKind ?h = _ |- _ =>
      let Ht := fresh in let Hu := fresh in
      destruct (Hw id h Hl) as [Ht Hu];
      first [ specialize (Ht eq_refl); congruence
            | specialize (Hu eq_refl); congruence ]
  end.

Ltac room_contra :=
  match goal with
  | H : (_ <? _)%nat = false |- ~ hasRoom _ =>
      unfold hasRoom; apply Nat.ltb_ge in H; simpl in *; lia
  | H : (_ <? 0) = true |- _ => apply Z.ltb_lt in H; lia
  end.

Ltac queue_done :=
  first [ exists []; split; [symmetry; apply app_nil_r|];
          split; [simpl; lia | constructor]
        | eexists; split; [reflexivity|];
          split; [simpl; lia | repeat constructor] ].

Ltac effect_done :=
  unfold packetEffect; simpl;
  split; [first [reflexivity | apply insert_subseteq; assumption]|];
  split; [first [lia | rewrite map_size_insert_None by assumption; lia]|];
  queue_done.

Ltac kinded_done Hw :=
  first [ exact Hw
        | unfold wellKinded; simpl; apply map_Forall_insert_2;
          [split; intros ?;
           unfold protoOf, NewConnID, unix.IPPROTO_TCP, unix.IPPROTO_UDP in *;
           simpl in *; first [congruence | discriminate]
          | exact Hw] ].

(** The switch of [handlePacket], by its three outcomes. *)
Lemma dispatchL4_outcome cfg env ipHdr data w :
  match dispatchL4 cfg env ipHdr data w with
  | Ret r w' => packetEffect (Source ipHdr) w w' /\ (wellKinded w -> wellKinded w')
  | Blocked => ~ hasRoom w
  | Panic => ~ wellKinded w
  end.
Proof.
  unfold dispatchL4, tcp, udp, Pool_Get, chanSend, selectDoneOrSend,
    handlersWg_Add, NewDnsInterceptor, NewHandler, HandlePacket, NewDatagram,
    L4HeaderOf, DatagramFromData, panic.
  run_M. unfold chanSend. run_M.
  repeat break_goal; simpl in *.
  all: try discriminate.
  all: try match goal with H : Ret _ _ = Ret _ _ |- _ => injection H as <- <- end.
  all: try match goal with H : Ret _ _ = Ret _ _ |- _ => injection H as <- end.
  all: try (intros Hw; kind_contra Hw).
  all: try room_contra.
  all: try (split; [effect_done | intros Hw; kinded_done Hw]).
Qed.

Lemma entersSwitch_registry cfg data w ipHdr data' w1 :
  entersSwitch cfg data w = Some (ipHdr, data', w1) ->
  ParseHeader data = Some ipHdr /\
  handlers (disp w1) = handlers (disp w) /\
  toTunCh (disp w1) = toTunCh (disp w).
Proof.
  unfold entersSwitch. destruct (ParseHeader data) as [h|]; [|discriminate].
  destruct (PayloadLen h >? MTU cfg - HeaderLen h); [discriminate|].
  destruct ((Version h =? ipv4.Version) && isFragment h).
  - rewrite concatFragments_run.
    destruct (ConcatFragments cfg h data (fragmentMap (disp w))) as [[d|] fm];
      simpl; [|discriminate].
    intros [= <- <- <-]. repeat split.
  - intros [= <- <- <-]. repeat split.
Qed.

Lemma packetEffect_from src w w1 w2 :
  handlers (disp w1) = handlers (disp w) ->
  toTunCh (disp w1) = toTunCh (disp w) ->
  packetEffect src w1 w2 -> packetEffect src w w2.
Proof. unfold packetEffect. intros -> ->. tauto. Qed.

Lemma handlePacket_outcome cfg env data w :
  match handlePacket cfg env data w with
  | Ret _ w' => packetEffect (senderOf data) w w' /\ (wellKinded w -> wellKinded w')
  | Blocked => ~ hasRoom w
  | Panic => ~ wellKinded w
  end.
Proof.
  destruct (entersSwitch cfg data w) as [[[ipHdr data'] w1]|] eqn:Hsw.
  - rewrite (handlePacket_switch _ _ _ _ _ _ _ Hsw).
    destruct (entersSwitch_registry _ _ _ _ _ _ Hsw) as (Hparse & Hh & Hq).
    assert (Hw1 : wellKinded w -> wellKinded w1)
      by (unfold wellKinded; rewrite Hh; trivial).
    pose proof (dispatchL4_outcome cfg env ipHdr data' w1) as Hd.
    unfold mbind, M_bind.
    destruct (dispatchL4 cfg env ipHdr data' w1) as [r w2| |].
    + destruct Hd as [Heff Hk]. unfold senderOf. rewrite Hparse.
      apply (packetEffect_from _ _ _ _ Hh Hq) in Heff.
      destruct r; run_M; (split; [exact Heff | intros Hw; apply Hk, Hw1, Hw]).
    + unfold hasRoom in *. rewrite <- Hq. exact Hd.
    + intros Hw. apply Hd, Hw1, Hw.
  - revert Hsw. unfold handlePacket, handlePacketBody, entersSwitch, senderOf.
    destruct (ParseHeader data) as [h|].
    + destruct (PayloadLen h >? MTU cfg - HeaderLen h).
      * intros _. unfold chanSend. run_M.
        destruct (length (toTunCh (disp w)) <? toTunChCap)%nat eqn:Hroom.
        -- simpl. split; [effect_done | trivial].
        -- room_contra.
      * destruct ((Version h =? ipv4.Version) && isFragment h); [|discriminate].
        unfold mbind at 1 2. unfold M_bind at 1 2.
        rewrite concatFragments_run.
        destruct (ConcatFragments cfg h data (fragmentMap (disp w))) as [[d|] fm];
          simpl; [discriminate|].
        intros _. split; [effect_done | trivial].
    + intros _. run_M. split; [effect_done | trivial].
Qed.

(** The handler registry is well kinded after every step. *)
Lemma wellKinded_step cfg s l s' :
  wellKinded (world s) -> sysStep cfg s l = Some s' -> wellKinded (world s').
Proof.
  intros Hw. destruct l as [|t| |env rd|env writeErr]; simpl.
  - destruct (StopStatements !! stopPC s) as [stmt|] eqn:Hstmt; [|discriminate].
    destruct (stmt (world s)) as [[] w'| |] eqn:Hrun; try discriminate.
    intros [= <-]. simpl.
    unfold StopStatements in Hstmt.
    destruct (stopPC s) as [|[|[|[|[|n]]]]]; simpl in Hstmt;
      try discriminate; injection Hstmt as <-; revert Hrun.
    + unfold StoreClosing. run_M. intros [= <-]. exact Hw.
    + unfold Pool_CloseAll. run_M. intros [= <-]. unfold wellKinded. simpl.
      apply map_Forall_fmap. unfold wellKinded in Hw.
      eapply map_Forall_impl; [exact Hw|]. intros id h Hk. exact Hk.
    + unfold handlersWg_Wait. destruct (Nat.eqb _ _); [|discriminate].
      run_M. intros [= <-]. exact Hw.
    + unfold StoreClosing. run_M. intros [= <-]. exact Hw.
    + unfold dev_Close. run_M. intros [= <-]. exact Hw.
  - destruct (taskExit t (world s)) as [[] w'| |] eqn:Hrun; try discriminate.
    intros [= <-]. simpl. revert Hrun. unfold taskExit.
    destruct (tasks (world s) !! t) as [id|]; [|discriminate].
    unfold handlersWg_Add. run_M.
    destruct (Z.of_nat (handlersWg (disp (world s))) + -1 <? 0); [discriminate|].
    intros [= <-]. unfold wellKinded. simpl. apply map_Forall_delete. exact Hw.
  - destruct (readerPC s); try discriminate.
    unfold readerGuard. run_M. intros [= <-]. exact Hw.
  - destruct (readerPC s); try discriminate.
    destruct (readerBody cfg env rd (world s)) as [r w'| |] eqn:Hrun; try discriminate.
    intros [= <-]. simpl. revert Hrun. destruct rd as [buf|data]; unfold readerBody.
    + run_M. intros H. repeat break_match; injection H as <- <-; exact Hw.
    + unfold mbind at 1 2. unfold M_bind at 1 2. unfold emit at 1.
      match goal with |- context [handlePacket cfg env data ?w0] =>
        pose proof (handlePacket_outcome cfg env data w0) as Hout;
        destruct (handlePacket cfg env data w0) as [[] w2| |]; try discriminate
      end.
      run_M. intros [= <- <-]. apply Hout. exact Hw.
  - destruct (writerDone s); [discriminate|].
    destruct (writerIteration env writeErr (world s)) as [r w'| |] eqn:Hrun;
      try discriminate.
    intros [= <-]. simpl. revert Hrun. unfold writerIteration, block. run_M.
    intros H. repeat break_match; simpl in *; try discriminate;
      injection H as <- <-; exact Hw.
Qed.

Lemma wellKinded_run cfg steps : forall s s',
  wellKinded (world s) -> run cfg steps s = Some s' -> wellKinded (world s').
Proof.
  induction steps as [|l steps IH]; intros s s' Hw; simpl.
  - intros [= <-]. exact Hw.
  - destruct (sysStep cfg s l) as [s1|] eqn:Hstep; [|discriminate].
    apply IH. eapply wellKinded_step; eassumption.
Qed.

Lemma freshWorld_wellKinded : wellKinded freshWorld.
Proof. unfold wellKinded. simpl. apply map_Forall_empty. Qed.

(** X13: the type assertions of [tcp] and [udp] never fail.  Whatever the
    reader, the writer, the handler tasks and [Stop] do, every registered
    handler stays of the kind its flow identifier asks for (a packet
    handler under a TCP identifier, a datagram handler under a UDP one),
    so no call of [handlePacket] panics. *)
Theorem type_assertions_hold cfg steps s s' :
  wellKinded (world s) ->
  run cfg steps s = Some s' ->
  wellKinded (world s') /\
  forall env data, handlePacket cfg env data (world s') <> Panic.
Proof.
  intros Hw Hrun.
  assert (Hw' : wellKinded (world s')) by (eapply wellKinded_run; eassumption).
  split; [exact Hw'|]. intros env data Hp.
  pose proof (handlePacket_outcome cfg env data (world s')) as Hout.
  rewrite Hp in Hout. exact (Hout Hw').
Qed.

Lemma type_assertions_hold_witness :
  wellKinded (world (startSystem freshWorld)) /\
  run exampleConfig [ReaderGuard; ReaderRead idleEnv (ReadPacket synData)]
    (startSystem freshWorld) = Some afterFirstRead /\
  wellKinded (world afterFirstRead) /\
  forall env data, handlePacket exampleConfig env data (world afterFirstRead) <> Panic.
Proof.
  split; [exact freshWorld_wellKinded|]. split; [exact sample_read|].
  exact (type_assertions_hold exampleConfig _ (startSystem freshWorld) afterFirstRead
           freshWorld_wellKinded sample_read).
Defined.

(** X14: with room in the outbound queue [handlePacket] returns, whatever
    the packet and the state of the context: it neither blocks nor panics.
    It adds at most one packet to the end of the queue, and that packet is
    addressed to the sender of the packet it handled. *)
Theorem handlePacket_returns_with_room cfg env data w :
  wellKinded w -> hasRoom w ->
  exists w' l,
    handlePacket cfg env data w = Ret tt w' /\
    toTunCh (disp w') = toTunCh (disp w) ++ l /\
    (length l <= 1)%nat /\
    Forall (fun p => addressedTo p = senderOf data) l.
Proof.
  intros Hw Hroom.
  pose proof (handlePacket_outcome cfg env data w) as Hout.
  destruct (handlePacket cfg env data w) as [[] w'| |].
  - destruct Hout as [(_ & _ & l & Hq & Hlen & Hall) _].
    exists w', l. repeat split; assumption.
  - contradiction.
  - contradiction.
Qed.

Lemma handlePacket_returns_with_room_witness :
  wellKinded freshWorld /\ hasRoom freshWorld /\
  exists w' l,
    handlePacket exampleConfig idleEnv hugeData freshWorld = Ret tt w' /\
    toTunCh (disp w') = toTunCh (disp freshWorld) ++ l /\
    (length l <= 1)%nat /\
    Forall (fun p => addressedTo p = senderOf hugeData) l.
Proof.
  split; [exact freshWorld_wellKinded|]. split; [exact freshWorld_hasRoom|].
  exact (handlePacket_returns_with_room exampleConfig idleEnv hugeData freshWorld
           freshWorld_wellKinded freshWorld_hasRoom).
Defined.

(** X15: [handlePacket] never removes or replaces a registered handler, of
    the packet's flow or of any other, and it registers at most one new
    handler. *)
Theorem handlePacket_keeps_handlers cfg env data w w' :
  handlePacket cfg env data w = Ret tt w' ->
  handlers (disp w) ⊆ handlers (disp w') /\
  (size (handlers (disp w')) <= S (size (handlers (disp w))))%nat.
Proof.
  intros H.
  pose proof (handlePacket_outcome cfg env data w) as Hout.
  rewrite H in Hout. destruct Hout as [(Hsub & Hsize & _) _].
  split; assumption.
Qed.

Lemma handle_syn :
  handlePacket exampleConfig idleEnv synData freshWorld = Ret tt busyWorld.
Proof. vm_compute. reflexivity. Qed.

Lemma handlePacket_keeps_handlers_witness :
  handlePacket exampleConfig idleEnv synData freshWorld = Ret tt busyWorld /\
  handlers (disp freshWorld) ⊆ handlers (disp busyWorld) /\
  (size (handlers (disp busyWorld)) <= S (size (handlers (disp freshWorld))))%nat.
Proof.
  split; [exact handle_syn|].
  exact (handlePacket_keeps_handlers exampleConfig idleEnv synData freshWorld busyWorld
           handle_syn).
Defined.

(** ** Backpressure *)

Lemma dispatchL4_reply cfg env ipHdr data w code :
  switchReply ipHdr data = Some code ->
  (r ← dispatchL4 cfg env ipHdr data;
   match r with Some d => DataPool_Put d | None => mret tt end) w =
  (chanSend (DestinationUnreachablePacket (uint16 (MTU cfg)) ipHdr code) ;;
   DataPool_Put data) w.
Proof.
  unfold switchReply, dispatchL4, L4HeaderOf, DatagramFromData. simpl.
  destruct (L4Protocol ipHdr =? unix.IPPROTO_TCP); [discriminate|].
  destruct (L4Protocol ipHdr =? unix.IPPROTO_UDP).
  - destruct (isLinkLocal (Destination ipHdr)); [discriminate|].
    destruct (isSubnetZero (Destination ipHdr)).
    + intros [= <-]. apply send_ret_put.
    + destruct (blocked (SourcePort (l4 data)) || blocked (DestinationPort (l4 data)));
        [|discriminate].
      intros [= <-]. apply send_ret_put.
  - destruct (L4Protocol ipHdr =? unix.IPPROTO_ICMP); [discriminate|].
    destruct (L4Protocol ipHdr =? unix.IPPROTO_ICMPV6); [discriminate|].
    intros [= <-]. apply send_ret_put.
Qed.

(** X16: every destination-unreachable reply of [handlePacket] (must
    fragment, host, port or protocol unreachable) is built from the pool's
    MTU and the header of the packet and goes to the end of the outbound
    queue.  The send is a plain channel send: when the queue is full
    [handlePacket] blocks, also when the context is already cancelled. *)
Theorem unreachable_reply_backpressure cfg env data w ipHdr code :
  unreachableReply cfg data w = Some (ipHdr, code) ->
  let reply := DestinationUnreachablePacket (uint16 (MTU cfg)) ipHdr code in
  (hasRoom w ->
   exists w', handlePacket cfg env data w = Ret tt w' /\
              toTunCh (disp w') = toTunCh (disp w) ++ [reply]) /\
  (~ hasRoom w -> handlePacket cfg env data w = Blocked).
Proof.
  intros Hreply reply. unfold unreachableReply in Hreply.
  destruct (ParseHeader data) as [h|] eqn:Hparse; [|discriminate].
  destruct (PayloadLen h >? MTU cfg - HeaderLen h) eqn:Hbig.
  - injection Hreply as <- <-.
    assert (E : handlePacket cfg env data w = (chanSend reply ;; DataPool_Put data) w).
    { unfold handlePacket, handlePacketBody. rewrite Hparse, Hbig.
      apply send_ret_put. }
    rewrite E. split; intros Hroom.
    + rewrite send_then_put by assumption. eexists. split; reflexivity.
    + unfold mbind, M_bind. rewrite chanSend_full by assumption. reflexivity.
  - destruct (entersSwitch cfg data w) as [[[h' data'] w1]|] eqn:Hsw; [|discriminate].
    destruct (switchReply h' data') as [code'|] eqn:Hcode; [|discriminate].
    injection Hreply as -> ->.
    destruct (entersSwitch_registry _ _ _ _ _ _ Hsw) as (_ & _ & Hq).
    rewrite (handlePacket_switch _ _ _ _ _ _ _ Hsw).
    rewrite (dispatchL4_reply _ _ _ _ _ _ Hcode).
    split; intros Hroom.
    + rewrite send_then_put by (unfold hasRoom in *; rewrite Hq; assumption).
      eexists. split; [reflexivity|]. simpl. rewrite Hq. reflexivity.
    + unfold mbind, M_bind.
      rewrite chanSend_full by (unfold hasRoom in *; rewrite Hq; assumption).
      reflexivity.
Qed.

Lemma fullWorld_full : ~ hasRoom fullWorld.
Proof. unfold hasRoom. vm_compute. lia. Qed.

Lemma unreachable_reply_backpressure_witness :
  unreachableReply exampleConfig hugeData fullWorld = Some (hugeHeader, MustFragment) /\
  ~ hasRoom fullWorld /\
  handlePacket exampleConfig cancelledEnv hugeData fullWorld = Blocked.
Proof.
  split; [reflexivity|]. split; [exact fullWorld_full|].
  exact (proj2 (unreachable_reply_backpressure exampleConfig cancelledEnv hugeData
                  fullWorld hugeHeader MustFragment eq_refl) fullWorld_full).
Defined.

(** ** The device writer *)

Lemma writerIteration_write env w pkt rest :
  closing (disp w) < 2 -> ctxDone env = false ->
  toTunCh (disp w) = pkt :: rest ->
  writerIteration env None w =
    Ret Continue (withTrace (written [pkt]) (set_toTunCh rest (disp w)) w).
Proof.
  intros Hc Hctx Hq. unfold writerIteration. run_M.
  destruct (Z.ltb_spec (closing (disp w)) 2); [|lia].
  rewrite Hctx, Hq. simpl. unfold withTrace, written. simpl.
  rewrite <- !app_assoc. reflexivity.
Qed.

Lemma writerIteration_idle env writeErr w :
  closing (disp w) < 2 -> ctxDone env = false -> toTunCh (disp w) = [] ->
  writerIteration env writeErr w = Blocked.
Proof.
  intros Hc Hctx Hq. unfold writerIteration, block. run_M.
  destruct (Z.ltb_spec (closing (disp w)) 2); [|lia].
  rewrite Hctx, Hq. reflexivity.
Qed.

(** X17: left to itself (flag below closed, context not cancelled, device
    accepting the writes) the writer takes the packets in the order they
    were queued: [n] iterations write the first [n] packets of the queue,
    each one logged, written and then released, and leave the others in
    the queue; once the queue is empty the writer waits. *)
Theorem writer_drains_in_order cfg env : forall n s,
  closing (disp (world s)) < 2 ->
  writerDone s = false ->
  ctxDone env = false ->
  (n <= length (toTunCh (disp (world s))))%nat ->
  exists s',
    run cfg (replicate n (WriterStep env None)) s = Some s' /\
    toTunCh (disp (world s')) = drop n (toTunCh (disp (world s))) /\
    trace (world s') =
      trace (world s) ++ written (take n (toTunCh (disp (world s)))) /\
    writerDone s' = false /\
    (n = length (toTunCh (disp (world s))) ->
     forall writeErr, writerIteration env writeErr (world s') = Blocked).
Proof.
  induction n as [|n IH]; intros s Hc Hd Hctx Hn.
  - exists s. simpl. rewrite drop_0, app_nil_r. repeat split; try assumption.
    intros Hlen writeErr. apply writerIteration_idle; try assumption.
    destruct (toTunCh (disp (world s))); [reflexivity | discriminate].
  - destruct (toTunCh (disp (world s))) as [|pkt rest] eqn:Hq; [simpl in Hn; lia|].
    pose proof (writerIteration_write env (world s) pkt rest Hc Hctx Hq) as Hw.
    set (s1 := {| world := withTrace (written [pkt]) (set_toTunCh rest (disp (world s)))
                             (world s);
                  stopPC := stopPC s; readerPC := readerPC s; writerDone := false |}).
    destruct (IH s1) as (s' & Hrun & Hq' & Htr & Hd' & Hidle);
      [exact Hc | reflexivity | exact Hctx | simpl in *; lia |].
    exists s'. split.
    + cbn [replicate run sysStep]. rewrite Hd, Hw. exact Hrun.
    + simpl in Hq', Htr. split; [exact Hq'|]. split.
      * rewrite Htr. unfold written. simpl. rewrite <- app_assoc. reflexivity.
      * split; [exact Hd'|]. intros Hlen. apply Hidle. simpl in *. lia.
Qed.

Lemma writer_drains_in_order_witness :
  exists s',
    run exampleConfig (replicate 2 (WriterStep idleEnv None)) (startSystem queuedWorld)
      = Some s' /\
    toTunCh (disp (world s')) = [] /\
    trace (world s') = written twoQueued /\
    writerDone s' = false /\
    (2%nat = length (toTunCh (disp (world (startSystem queuedWorld)))) ->
     forall writeErr, writerIteration idleEnv writeErr (world s') = Blocked).
Proof.
  refine (writer_drains_in_order exampleConfig idleEnv 2 (startSystem queuedWorld)
            _ eq_refl eq_refl _).
  - simpl. lia.
  - simpl. lia.
Defined.

(** ** The manager connection, when the dial fails *)

(** X18: a dial that fails establishes nothing: [SetManagerInfo] returns
    the error (the timeout error once the deadline has passed) and leaves
    the dispatcher as it was, so the next call dials again, the port of its
    own manager info. *)
Theorem SetManagerInfo_dial_failure err dx mi w :
  managerClient (disp w) = None ->
  let w1 := withTrace [EvDial (GrpcPort mi)] (disp w) w in
  SetManagerInfo (Some err) dx mi w = Ret (Some (CheckTimeout dx err)) w1 /\
  forall dx' mi',
    SetManagerInfo None dx' mi' w1 =
      Ret None (withTrace [EvDial (GrpcPort mi')]
                  (set_managerClient (Some (NewManagerClient (GrpcPort mi'))) (disp w))
                  w1).
Proof.
  intros Hnone w1. split.
  - unfold SetManagerInfo. run_M. rewrite Hnone. reflexivity.
  - intros dx' mi'. unfold SetManagerInfo. run_M. rewrite Hnone. reflexivity.
Qed.

Lemma SetManagerInfo_dial_failure_witness :
  managerClient (disp freshWorld) = None /\
  SetManagerInfo (Some dial_Err) true {| GrpcPort := 8081 |} freshWorld =
    Ret (Some timeout_Err) (withTrace [EvDial 8081] (disp freshWorld) freshWorld).
Proof.
  split; [reflexivity|].
  exact (proj1 (SetManagerInfo_dial_failure dial_Err true {| GrpcPort := 8081 |}
                  freshWorld eq_refl)).
Defined.

(** ** Subnets *)

(** X19: [AddSubnets] announces and installs the subnets in order and
    stops at the first one the device refuses, returning that error.  The
    subnets before it stay installed (nothing is rolled back) and the ones
    after it are neither announced nor tried; without a refusal all are
    installed and the result is nil. *)
Theorem AddSubnets_stops_at_first_error accepts : forall subnets r,
  exists k,
    (k <= length subnets)%nat /\
    installed (AddSubnets accepts subnets r).1 = installed r ++ take k subnets /\
    match (AddSubnets accepts subnets r).2 with
    | None =>
        k = length subnets /\
        announced (AddSubnets accepts subnets r).1 = announced r ++ subnets
    | Some err =>
        announced (AddSubnets accepts subnets r).1 = announced r ++ take (S k) subnets /\
        exists sn, subnets !! k = Some sn /\
                   accepts (installed r ++ take k subnets) sn = Some err
    end.
Proof.
  induction subnets as [|sn rest IH]; intros r.
  - exists 0%nat. simpl. rewrite !app_nil_r. repeat split; lia.
  - cbn [AddSubnets]. unfold dev_AddSubnet. cbn [installed announced].
    destruct (accepts (installed r) sn) as [err|] eqn:Hacc.
    + exists 0%nat. cbn. rewrite app_nil_r. split; [lia|]. split; [reflexivity|].
      split; [reflexivity|]. exists sn. split; [reflexivity | exact Hacc].
    + destruct (IH {| installed := installed r ++ [sn];
                      announced := announced r ++ [sn] |})
        as (k & Hk & Hinst & Hres).
      exists (S k). cbn [length take]. split; [lia|].
      cbn [installed announced] in Hinst, Hres.
      rewrite <- !app_assoc in Hinst, Hres. cbn [app] in Hinst, Hres.
      split; [exact Hinst|].
      destruct (AddSubnets accepts rest _).2 as [err|].
      * destruct Hres as (Hann & sn' & Hlook & Hacc').
        rewrite <- ?app_assoc in Hacc'. rewrite <- ?app_assoc in Hann.
        cbn [app] in Hacc', Hann.
        split; [exact Hann|]. exists sn'. split; [exact Hlook | exact Hacc'].
      * destruct Hres as [-> Hann]. rewrite <- ?app_assoc in Hann.
        split; [reflexivity | exact Hann].
Qed.

Lemma AddSubnets_stops_at_first_error_witness :
  AddSubnets noDuplicates [subnetA; subnetA; subnetB] {| installed := []; announced := [] |}
    = ({| installed := [subnetA]; announced := [subnetA; subnetA] |}, Some io_Err) /\
  exists k,
    (k <= 3)%nat /\
    installed (AddSubnets noDuplicates [subnetA; subnetA; subnetB]
                 {| installed := []; announced := [] |}).1
      = take k [subnetA; subnetA; subnetB].
Proof.
  split; [reflexivity|].
  destruct (AddSubnets_stops_at_first_error noDuplicates [subnetA; subnetA; subnetB]
              {| installed := []; announced := [] |}) as (k & Hk & Hinst & _).
  exists k. split; [exact Hk | exact Hinst].
Defined.

(** * Properties of the shell quoting *)

(** ** Go's string functions *)

Lemma IndexByte_bounds s c : -1 <= strings_IndexByte s c < len s.
Proof.
  unfold len. induction s as [|x s IH]; simpl; [lia|].
  destruct (Ascii.eqb x c); [lia|].
  destruct (Z.ltb_spec (strings_IndexByte s c) 0); lia.
Qed.

Lemma IndexByte_absent s c : (strings_IndexByte s c < 0) <-> (c ∉ s).
Proof.
  induction s as [|x s IH]; simpl.
  - split; [intros _; apply not_elem_of_nil | lia].
  - destruct (Ascii.eqb x c) eqn:E.
    + apply Ascii.eqb_eq in E as ->. split; [lia|]. intros H. exfalso. apply H. left.
    + apply Ascii.eqb_neq in E.
      pose proof (IndexByte_bounds s c).
      destruct (Z.ltb_spec (strings_IndexByte s c) 0).
      * split; [|lia]. intros _. rewrite not_elem_of_cons. split; [congruence|].
        apply IH. lia.
      * split; [lia|]. intros Hn. rewrite not_elem_of_cons in Hn.
        destruct Hn as [_ Hn]. apply IH in Hn. lia.
Qed.

Lemma IndexByte_found s c :
  0 <= strings_IndexByte s c ->
  exists pre post,
    s = pre ++ c :: post /\ (c ∉ pre) /\ len pre = strings_IndexByte s c.
Proof.
  unfold len. induction s as [|x s IH]; simpl; [lia|].
  destruct (Ascii.eqb x c) eqn:E.
  - apply Ascii.eqb_eq in E as ->. intros _. exists [], s. split; [reflexivity|].
    split; [apply not_elem_of_nil | reflexivity].
  - apply Ascii.eqb_neq in E.
    destruct (Z.ltb_spec (strings_IndexByte s c) 0); [lia|]. intros _.
    destruct IH as (pre & post & -> & Hpre & Hlen); [lia|].
    exists (x :: pre), post. split; [reflexivity|]. split.
    + rewrite not_elem_of_cons. split; [congruence | assumption].
    + simpl length. lia.
Qed.

Lemma IndexByte_first pre post c :
  (c ∉ pre) -> strings_IndexByte (pre ++ c :: post) c = len pre.
Proof.
  intros Hpre. unfold len. induction pre as [|x pre IH]; simpl.
  - rewrite Ascii.eqb_refl. reflexivity.
  - rewrite not_elem_of_cons in Hpre. destruct Hpre as [Hx Hpre].
    destruct (Ascii.eqb x c) eqn:E; [apply Ascii.eqb_eq in E; congruence|].
    rewrite IH by assumption.
    destruct (Z.ltb_spec (Z.of_nat (length pre)) 0); lia.
Qed.

Lemma LastIndex_absent s c : (c ∉ s) -> strings_LastIndex s c = -1.
Proof.
  induction s as [|x s IH]; simpl; [reflexivity|].
  rewrite not_elem_of_cons. intros [Hx Hs]. rewrite IH by assumption. simpl.
  destruct (Ascii.eqb x c) eqn:E; [apply Ascii.eqb_eq in E; congruence | reflexivity].
Qed.

Lemma LastIndex_found pre post c :
  (c ∉ post) -> strings_LastIndex (pre ++ c :: post) c = len pre.
Proof.
  intros Hpost. unfold len. induction pre as [|x pre IH]; simpl.
  - rewrite LastIndex_absent by assumption. simpl. rewrite Ascii.eqb_refl. reflexivity.
  - rewrite IH. destruct (Z.leb_spec 0 (Z.of_nat (length pre))); lia.
Qed.

Lemma sliceTo_app pre post : sliceTo (pre ++ post) (len pre) = Some pre.
Proof.
  unfold sliceTo, len. rewrite length_app.
  destruct (Z.leb_spec 0 (Z.of_nat (length pre))); [|lia].
  destruct (Z.leb_spec (Z.of_nat (length pre)) (Z.of_nat (length pre + length post)));
    [|lia].
  simpl. rewrite Nat2Z.id, take_app_length. reflexivity.
Qed.

Lemma sliceFrom_app pre post : sliceFrom (pre ++ post) (len pre) = Some post.
Proof.
  unfold sliceFrom, len. rewrite length_app.
  destruct (Z.leb_spec 0 (Z.of_nat (length pre))); [|lia].
  destruct (Z.leb_spec (Z.of_nat (length pre)) (Z.of_nat (length pre + length post)));
    [|lia].
  simpl. rewrite Nat2Z.id, drop_app_length. reflexivity.
Qed.

(** ** Splitting on single quotes *)

Lemma splitOn_absent c s : (c ∉ s) -> splitOn c s = [s].
Proof.
  induction s as [|x s IH]; simpl; [reflexivity|].
  rewrite not_elem_of_cons. intros [Hx Hs].
  destruct (Ascii.eqb x c) eqn:E; [apply Ascii.eqb_eq in E; congruence|].
  rewrite IH by assumption. reflexivity.
Qed.

Lemma splitOn_found c pre post :
  (c ∉ pre) -> splitOn c (pre ++ c :: post) = pre :: splitOn c post.
Proof.
  induction pre as [|x pre IH]; simpl.
  - intros _. rewrite Ascii.eqb_refl. reflexivity.
  - rewrite not_elem_of_cons. intros [Hx Hs].
    destruct (Ascii.eqb x c) eqn:E; [apply Ascii.eqb_eq in E; congruence|].
    rewrite IH by assumption. reflexivity.
Qed.

Lemma splitOn_nonempty c s : splitOn c s <> [].
Proof.
  destruct s as [|x s]; simpl; [discriminate|].
  destruct (Ascii.eqb x c); [discriminate|].
  destruct (splitOn c s); discriminate.
Qed.

Lemma joinQuotes_cons seg rest :
  rest <> [] -> joinQuotes (seg :: rest) = seg ++ quote :: joinQuotes rest.
Proof. destruct rest; [congruence | reflexivity]. Qed.

Lemma splitOn_join s :
  joinQuotes (splitOn quote s) = s /\
  Forall (fun seg => quote ∉ seg) (splitOn quote s).
Proof.
  induction s as [|x s [IHj IHf]]; simpl.
  - split; [reflexivity|]. constructor; [apply not_elem_of_nil | constructor].
  - destruct (Ascii.eqb x quote) eqn:E.
    + apply Ascii.eqb_eq in E as ->.
      pose proof (splitOn_nonempty quote s) as Hne.
      destruct (splitOn quote s) as [|s1 ss] eqn:Es; [congruence|].
      split.
      * rewrite joinQuotes_cons by discriminate. rewrite IHj. reflexivity.
      * constructor; [apply not_elem_of_nil | assumption].
    + apply Ascii.eqb_neq in E.
      pose proof (splitOn_nonempty quote s) as Hne.
      destruct (splitOn quote s) as [|s1 ss] eqn:Es; [congruence|].
      apply Forall_cons in IHf as [H1 Hss].
      split.
      * destruct ss as [|s2 ss]; [cbn [joinQuotes] in *; congruence|].
        rewrite joinQuotes_cons in IHj |- * by discriminate.
        rewrite <- IHj. reflexivity.
      * constructor; [|assumption].
        rewrite not_elem_of_cons. split; [congruence | assumption].
Qed.

(** ** The loop of [quoteArg] *)

(** A segment without single quote is quoted in one call. *)
Lemma quoteArgN_segment fuel seg :
  seg <> [] -> (quote ∉ seg) -> quoteArgN (S fuel) seg = Some (quoteSegment seg).
Proof.
  intros Hne Hq. simpl. unfold quoteSegment.
  rewrite bool_decide_false by assumption.
  destruct (escape_MatchString seg); simpl; [|reflexivity].
  apply IndexByte_absent in Hq.
  destruct (Z.ltb_spec (strings_IndexByte seg quote) 0); [reflexivity | lia].
Qed.

(** The loop writes the segments of its argument, each quoted, with an
    escaped quote between them. *)
Lemma quoteLoop_segments fuel n : forall arg b,
  (length arg <= n)%nat ->
  0 <= strings_IndexByte arg quote ->
  quoteLoop (quoteArgN (S fuel)) n arg (strings_IndexByte arg quote) b =
    Some (b ++ joinEscaped (quoteSegment <$> splitOn quote arg)).
Proof.
  induction n as [|n IH]; intros arg b Hn Hqp.
  - destruct arg; [simpl in Hqp; lia | simpl in Hn; lia].
  - destruct (IndexByte_found _ _ Hqp) as (pre & post & Harg & Hpre & Hlen).
    rewrite <- Hlen. subst arg. clear Hqp Hlen.
    rewrite splitOn_found by assumption.
    cbn [quoteLoop].
    assert (Hb : (if 0 <? len pre
                  then pre0 ← sliceTo (pre ++ quote :: post) (len pre);
                       q ← quoteArgN (S fuel) pre0; Some (b ++ q)
                  else Some b) = Some (b ++ quoteSegment pre)).
    { destruct pre as [|x pre].
      - unfold quoteSegment. rewrite bool_decide_true by reflexivity.
        rewrite app_nil_r. reflexivity.
      - replace (0 <? len (x :: pre)) with true
          by (symmetry; apply Z.ltb_lt; unfold len; simpl length; lia).
        rewrite sliceTo_app. cbn [mbind option_bind].
        rewrite quoteArgN_segment by (assumption || discriminate). reflexivity. }
    rewrite Hb. clear Hb. cbn [mbind option_bind].
    assert (Hlen1 : len (pre ++ quote :: post) = len pre + 1 + len post).
    { unfold len. rewrite length_app. simpl length. lia. }
    destruct post as [|y post].
    + replace (len (pre ++ [quote]) <=? len pre + 1) with true
        by (symmetry; apply Z.leb_le; rewrite Hlen1; unfold len; simpl; lia).
      simpl. rewrite <- app_assoc. reflexivity.
    + replace (len (pre ++ quote :: y :: post) <=? len pre + 1) with false
        by (symmetry; apply Z.leb_gt; rewrite Hlen1; unfold len; simpl length; lia).
      replace (pre ++ quote :: y :: post) with ((pre ++ [quote]) ++ y :: post)
        by (rewrite <- app_assoc; reflexivity).
      replace (len pre + 1) with (len (pre ++ [quote]))
        by (unfold len; rewrite length_app; simpl; lia).
      rewrite sliceFrom_app. cbn [mbind option_bind].
      destruct (Z.ltb_spec (strings_IndexByte (y :: post) quote) 0) as [Hneg|Hpos].
      * apply IndexByte_absent in Hneg.
        replace (0 <? len (y :: post)) with true
          by (symmetry; apply Z.ltb_lt; unfold len; simpl length; lia).
        rewrite quoteArgN_segment by (assumption || discriminate).
        rewrite splitOn_absent by assumption. simpl.
        rewrite <- !app_assoc. reflexivity.
      * rewrite IH; [| rewrite length_app in Hn; simpl in Hn |- *; lia | assumption].
        f_equal.
        destruct (splitOn quote (y :: post)) as [|s1 ss] eqn:Es.
        { exfalso. simpl in Es. destruct (Ascii.eqb y quote); [discriminate|].
          destruct (splitOn quote post); discriminate. }
        simpl. rewrite <- !app_assoc. reflexivity.
Qed.

(** Any bound above the length of the argument is enough. *)
Lemma quoteArgN_enough fuel arg :
  (length arg < fuel)%nat -> quoteArgN fuel arg = Some (quoteBySegments arg).
Proof.
  intros Hfuel. destruct fuel as [|fuel]; [lia|].
  destruct arg as [|x arg]; [reflexivity|].
  unfold quoteBySegments. cbn [quoteArgN].
  rewrite !bool_decide_false by discriminate.
  destruct (negb (escape_MatchString (x :: arg))) eqn:Hsafe; [reflexivity|].
  destruct (Z.ltb_spec (strings_IndexByte (x :: arg) quote) 0) as [Hneg|Hpos].
  - apply IndexByte_absent in Hneg. rewrite splitOn_absent by assumption.
    cbn [fmap list_fmap joinEscaped]. unfold quoteSegment.
    rewrite bool_decide_false by discriminate. rewrite Hsafe. reflexivity.
  - destruct fuel as [|fuel]; [simpl in Hfuel; lia|].
    rewrite quoteLoop_segments by (lia || assumption). reflexivity.
Qed.

Lemma quoteArg_run arg : quoteArg arg = Some (quoteBySegments arg).
Proof. unfold quoteArg. apply quoteArgN_enough. lia. Qed.

(** X20: [quoteArg] returns for every string (no slice is out of range and
    its loop ends), and what it returns is what its comment describes: two
    quotes for the empty string, the string itself when it has no character
    to escape, and otherwise the string split on single quotes, each
    non-empty segment quoted on its own (in single quotes when it has a
    character to escape) and each single quote written as backslash-quote.
    The result does not depend on the bound of the model. *)
Theorem quoteArg_by_segments arg :
  quoteArg arg = Some (quoteBySegments arg) /\
  forall fuel, (length arg < fuel)%nat -> quoteArgN fuel arg = quoteArg arg.
Proof.
  assert (H : quoteArg arg = Some (quoteBySegments arg)).
  { unfold quoteArg. apply quoteArgN_enough. lia. }
  split; [exact H|]. intros fuel Hfuel. rewrite H. apply quoteArgN_enough. exact Hfuel.
Qed.

Lemma quoteArg_by_segments_witness :
  quoteArg (str "it's a test") = Some (str "it\''s a test'").
Proof. exact (proj1 (quoteArg_by_segments (str "it's a test"))). Defined.

(** ** What the quoting leaves unchanged *)

Lemma quoteSegment_length seg : (length seg <= length (quoteSegment seg))%nat.
Proof.
  unfold quoteSegment. destruct seg as [|c seg]; [simpl; lia|].
  rewrite bool_decide_false by discriminate.
  destruct (negb (escape_MatchString (c :: seg))); cbv iota; [lia|].
  rewrite !length_app. simpl. lia.
Qed.

Lemma joinEscaped_length : forall segs,
  segs <> [] ->
  (length (joinQuotes segs) + length segs <=
     S (length (joinEscaped (quoteSegment <$> segs))))%nat.
Proof.
  induction segs as [|seg segs IH]; intros Hne; [congruence|].
  destruct segs as [|seg2 segs].
  - cbn [fmap list_fmap joinEscaped joinQuotes length].
    pose proof (quoteSegment_length seg). lia.
  - change (joinEscaped (quoteSegment <$> seg :: seg2 :: segs))
      with (quoteSegment seg ++ [backslash; quote]
              ++ joinEscaped (quoteSegment <$> seg2 :: segs)).
    rewrite (joinQuotes_cons seg) by discriminate.
    specialize (IH ltac:(discriminate)).
    pose proof (quoteSegment_length seg).
    rewrite !length_app. cbn [length] in *. lia.
Qed.

Lemma quoteBySegments_longer arg :
  arg = [] \/ escape_MatchString arg = true ->
  (length arg < length (quoteBySegments arg))%nat.
Proof.
  intros H. unfold quoteBySegments.
  destruct arg as [|c arg]; [simpl; lia|].
  destruct H as [H|H]; [discriminate|].
  rewrite bool_decide_false by discriminate. rewrite H. cbn [negb].
  destruct (splitOn_join (c :: arg)) as [Hj Hf].
  pose proof (splitOn_nonempty quote (c :: arg)) as Hne.
  pose proof (joinEscaped_length _ Hne) as Hlen. rewrite Hj in Hlen.
  destruct (splitOn quote (c :: arg)) as [|s1 [|s2 ss]] eqn:Es; [congruence| |].
  - cbn [joinQuotes] in Hj. subst s1.
    cbn [fmap list_fmap joinEscaped]. unfold quoteSegment.
    rewrite bool_decide_false by discriminate. rewrite H. cbn [negb].
    rewrite !length_app. simpl. lia.
  - cbn [length] in Hlen |- *. lia.
Qed.

(** X21: [quoteArg] returns its argument unchanged exactly when the
    argument is not empty and has no character of the class [escape], that
    is, when it consists of letters, digits, underscores and the
    characters [!%+,-./:=@^]; every other argument comes back strictly
    longer. *)
Theorem quoteArg_unchanged_iff arg :
  (quoteArg arg = Some arg <-> arg <> [] /\ escape_MatchString arg = false) /\
  (arg = [] \/ escape_MatchString arg = true ->
   exists q, quoteArg arg = Some q /\ (length arg < length q)%nat).
Proof.
  rewrite quoteArg_run. split; [split|].
  - intros [= H].
    destruct arg as [|c arg]; [discriminate H|].
    split; [discriminate|].
    destruct (escape_MatchString (c :: arg)) eqn:Hesc; [|reflexivity].
    pose proof (quoteBySegments_longer (c :: arg) (or_intror Hesc)) as Hlen.
    rewrite H in Hlen. lia.
  - intros [Hne Hsafe]. unfold quoteBySegments.
    rewrite bool_decide_false by assumption. rewrite Hsafe. reflexivity.
  - intros Hother. exists (quoteBySegments arg).
    split; [reflexivity | apply quoteBySegments_longer; exact Hother].
Qed.

Lemma quoteArg_unchanged_iff_witness :
  quoteArg (str "--set=a/b.c:1") = Some (str "--set=a/b.c:1") /\
  exists q, quoteArg (str "a b") = Some q /\ (length (str "a b") < length q)%nat.
Proof.
  split.
  - apply (proj2 (proj1 (quoteArg_unchanged_iff (str "--set=a/b.c:1")))).
    split; [discriminate | reflexivity].
  - apply (proj2 (quoteArg_unchanged_iff (str "a b"))). right. reflexivity.
Defined.

(** ** The two renderings *)

Lemma ShellString_loop_run : forall args b,
  ShellString_loop args b = Some (b ++ rendered args).
Proof.
  induction args as [|a args IH]; intros b; cbn [ShellString_loop].
  - unfold rendered. simpl. rewrite app_nil_r. reflexivity.
  - rewrite quoteArg_run. cbn [mbind option_bind]. rewrite IH.
    unfold rendered. cbn [fmap list_fmap concat]. rewrite <- !app_assoc. reflexivity.
Qed.

Lemma ShellArgsString_loop_run : forall args i b,
  0 < i -> ShellArgsString_loop i args b = Some (b ++ rendered args).
Proof.
  induction args as [|a args IH]; intros i b Hi; cbn [ShellArgsString_loop].
  - unfold rendered. simpl. rewrite app_nil_r. reflexivity.
  - rewrite quoteArg_run. cbn [mbind option_bind].
    rewrite IH by lia.
    replace (0 <? i) with true by (symmetry; apply Z.ltb_lt; lia).
    unfold rendered. cbn [fmap list_fmap concat]. rewrite <- !app_assoc. reflexivity.
Qed.

Lemma ShellString_run exe args :
  ShellString exe args = Some (quoteBySegments exe ++ rendered args).
Proof.
  unfold ShellString. rewrite quoteArg_run. cbn [mbind option_bind].
  apply ShellString_loop_run.
Qed.

Lemma ShellArgsString_run a args :
  ShellArgsString (a :: args) = Some (quoteBySegments a ++ rendered args).
Proof.
  unfold ShellArgsString. cbn [ShellArgsString_loop].
  rewrite quoteArg_run. cbn [mbind option_bind].
  change (0 <? 0) with false. cbn [app].
  apply ShellArgsString_loop_run. lia.
Qed.

(** X22: [ShellString] and [ShellArgsString] agree: quoting a command and
    its arguments gives the same line as quoting the list that starts with
    the command. *)
Theorem ShellString_ShellArgsString exe args :
  ShellString exe args = ShellArgsString (exe :: args).
Proof. rewrite ShellString_run, ShellArgsString_run. reflexivity. Qed.

(** ** Reading the quoted form back *)

Lemma safe_literal c :
  escapeClass c = false ->
  Ascii.eqb c space = false /\ Ascii.eqb c quote = false /\
  Ascii.eqb c backslash = false /\ shSpecial c = false.
Proof.
  destruct c as [[] [] [] [] [] [] [] []]; vm_compute; intros H;
    try discriminate H; repeat split.
Qed.

Lemma extend_cons cur c seg : extend (addChar cur c) seg = extend cur (c :: seg).
Proof.
  unfold extend, addChar. destruct seg as [|y seg]; simpl.
  - reflexivity.
  - rewrite <- app_assoc. reflexivity.
Qed.

Lemma lex_safe tail : forall seg cur,
  escape_MatchString seg = false ->
  shLex Unquoted cur (seg ++ tail) = shLex Unquoted (extend cur seg) tail.
Proof.
  induction seg as [|c seg IH]; intros cur Hsafe; [reflexivity|].
  simpl in Hsafe. apply orb_false_iff in Hsafe as [Hc Hseg].
  destruct (safe_literal c Hc) as (Hsp & Hq & Hb & Hs).
  cbn [app shLex]. rewrite Hsp, Hq, Hb, Hs.
  rewrite IH by assumption. rewrite extend_cons. reflexivity.
Qed.

Lemma lex_inside tail : forall seg w,
  (quote ∉ seg) ->
  shLex SingleQuoted (Some w) (seg ++ quote :: tail) =
    shLex Unquoted (Some (w ++ seg)) tail.
Proof.
  induction seg as [|c seg IH]; intros w Hq.
  - cbn [app shLex]. rewrite Ascii.eqb_refl, app_nil_r. reflexivity.
  - rewrite not_elem_of_cons in Hq. destruct Hq as [Hc Hq].
    cbn [app shLex].
    destruct (Ascii.eqb c quote) eqn:E; [apply Ascii.eqb_eq in E; congruence|].
    unfold addChar. cbn [default]. rewrite IH by assumption.
    rewrite <- app_assoc. reflexivity.
Qed.

Lemma lex_open cur rest :
  shLex Unquoted cur (quote :: rest) = shLex SingleQuoted (Some (default [] cur)) rest.
Proof. reflexivity. Qed.

Lemma lex_segment tail seg cur :
  (quote ∉ seg) ->
  shLex Unquoted cur (quoteSegment seg ++ tail) = shLex Unquoted (extend cur seg) tail.
Proof.
  intros Hq. unfold quoteSegment.
  destruct seg as [|c seg]; [reflexivity|].
  rewrite bool_decide_false by discriminate.
  destruct (escape_MatchString (c :: seg)) eqn:Hesc; cbn [negb].
  - rewrite <- !app_assoc.
    change ([quote] ++ (c :: seg) ++ [quote] ++ tail)
      with (quote :: ((c :: seg) ++ quote :: tail)).
    rewrite lex_open, lex_inside by assumption. reflexivity.
  - apply lex_safe. assumption.
Qed.

Lemma lex_escaped_quote cur tail :
  shLex Unquoted cur (backslash :: quote :: tail) =
    shLex Unquoted (addChar cur quote) tail.
Proof. reflexivity. Qed.

Lemma lex_join tail : forall segs cur,
  segs <> [] ->
  Forall (fun seg => quote ∉ seg) segs ->
  shLex Unquoted cur (joinEscaped (quoteSegment <$> segs) ++ tail) =
    shLex Unquoted (extend cur (joinQuotes segs)) tail.
Proof.
  induction segs as [|seg segs IH]; intros cur Hne Hall; [congruence|].
  apply Forall_cons in Hall as [Hseg Hall].
  destruct segs as [|seg2 segs].
  - cbn [fmap list_fmap joinEscaped joinQuotes]. apply lex_segment. assumption.
  - change (joinEscaped (quoteSegment <$> seg :: seg2 :: segs))
      with (quoteSegment seg ++ [backslash; quote]
              ++ joinEscaped (quoteSegment <$> seg2 :: segs)).
    rewrite <- !app_assoc. rewrite lex_segment by assumption.
    cbn [app]. rewrite lex_escaped_quote.
    rewrite IH by (discriminate || assumption).
    rewrite (joinQuotes_cons seg) by discriminate.
    generalize (joinQuotes (seg2 :: segs)). intros rest.
    f_equal. rewrite extend_cons.
    destruct seg as [|c seg]; [reflexivity|].
    unfold extend. cbn [app default from_option id]. f_equal.
    rewrite <- app_assoc. reflexivity.
Qed.

(** The shell reads the quoted form of an argument as that argument. *)
Lemma lex_quoted arg tail :
  shLex Unquoted None (quoteBySegments arg ++ tail) = shLex Unquoted (Some arg) tail.
Proof.
  unfold quoteBySegments.
  destruct arg as [|c arg]; [reflexivity|].
  rewrite bool_decide_false by discriminate.
  destruct (escape_MatchString (c :: arg)) eqn:Hesc; cbn [negb].
  - destruct (splitOn_join (c :: arg)) as [Hj Hf].
    rewrite lex_join by (apply splitOn_nonempty || assumption).
    rewrite Hj. reflexivity.
  - rewrite lex_safe by assumption. reflexivity.
Qed.

Lemma lex_rendered : forall args w,
  shLex Unquoted (Some w) (rendered args) = Some (w :: args).
Proof.
  induction args as [|a args IH]; intros w; [reflexivity|].
  unfold rendered. cbn [fmap list_fmap concat app].
  change (shLex Unquoted (Some w) (space :: ?rest))
    with (ws ← shLex Unquoted None rest; Some (option_list (Some w) ++ ws)).
  fold (rendered args). rewrite lex_quoted, IH. reflexivity.
Qed.

Lemma lex_line a args :
  shWords (quoteBySegments a ++ rendered args) = Some (a :: args).
Proof. unfold shWords. rewrite lex_quoted. apply lex_rendered. Qed.

(** X23: a shell reads the line back as the words that went in.  The line
    [ShellString] makes of a command and its arguments, split into words
    the way the POSIX shell does (single quotes, backslash escapes, spaces
    between words), is the command followed by the arguments, byte for
    byte; so is the line of [ShellArgsString].  In particular no character
    with a meaning to the shell is left unquoted. *)
Theorem shell_round_trip exe args :
  ShellString exe args ≫= shWords = Some (exe :: args) /\
  ShellArgsString args ≫= shWords = Some args.
Proof.
  split.
  - rewrite ShellString_run. cbn [mbind option_bind]. apply lex_line.
  - destruct args as [|a args]; [reflexivity|].
    rewrite ShellArgsString_run. cbn [mbind option_bind]. apply lex_line.
Qed.

Lemma shell_round_trip_witness :
  ShellString (str "echo") sampleArgs = Some (str "echo 'hello world' '' don\'t a=b") /\
  ShellString (str "echo") sampleArgs ≫= shWords = Some (str "echo" :: sampleArgs).
Proof.
  split; [reflexivity|].
  exact (proj1 (shell_round_trip (str "echo") sampleArgs)).
Defined.

(** X24: two lists of arguments that [ShellArgsString] renders as the same
    line are the same list: the empty argument, an argument with spaces or
    quotes and the boundaries between arguments all stay distinguishable. *)
Theorem ShellArgsString_injective args1 args2 :
  ShellArgsString args1 = ShellArgsString args2 -> args1 = args2.
Proof.
  intros H.
  assert (Hback : forall args, ShellArgsString args ≫= shWords = Some args).
  { intros [|a args]; [reflexivity|].
    rewrite ShellArgsString_run. cbn [mbind option_bind]. apply lex_line. }
  pose proof (Hback args1) as H1. rewrite H, Hback in H1. congruence.
Qed.

Lemma ShellArgsString_injective_witness :
  ShellArgsString sampleArgs = Some (str "'hello world' '' don\'t a=b") /\
  forall args, ShellArgsString args = ShellArgsString sampleArgs -> args = sampleArgs.
Proof.
  split; [reflexivity|].
  intros args H. exact (ShellArgsString_injective args sampleArgs H).
Defined.

(** * Properties of [callerPackage] *)

Lemma absent_by_index s c : strings_IndexByte s c = -1 -> c ∉ s.
Proof. intros H. apply IndexByte_absent. lia. Qed.

(** X25: for a function name that ends in a directory, a slash, a package
    name without dot, a dot and a function part without slash,
    [callerPackage] gives the name up to the package: it cuts at the first
    dot after the last slash, so dots in the directories stay. *)
Theorem callerPackage_trims dir pkg fn :
  (slashChar ∉ pkg) -> (slashChar ∉ fn) -> (dotChar ∉ pkg) ->
  callerPackage (dir ++ [slashChar] ++ pkg ++ [dotChar] ++ fn)
    = Some (dir ++ [slashChar] ++ pkg).
Proof.
  intros Hp Hf Hd. unfold callerPackage, strings_Index.
  assert (Hlast : strings_LastIndex (dir ++ [slashChar] ++ pkg ++ [dotChar] ++ fn)
                    slashChar = len dir).
  { apply LastIndex_found. cbn [app]. rewrite not_elem_of_app, not_elem_of_cons.
    split; [assumption|]. split; [discriminate | assumption]. }
  rewrite Hlast. rewrite sliceFrom_app. cbn [mbind option_bind].
  change ([slashChar] ++ pkg ++ [dotChar] ++ fn)
    with ((slashChar :: pkg) ++ dotChar :: fn).
  rewrite IndexByte_first
    by (rewrite not_elem_of_cons; split; [discriminate | assumption]).
  replace (len dir + len (slashChar :: pkg)) with (len (dir ++ slashChar :: pkg))
    by (unfold len; rewrite length_app; lia).
  replace (dir ++ (slashChar :: pkg) ++ dotChar :: fn)
    with ((dir ++ slashChar :: pkg) ++ dotChar :: fn)
    by (rewrite <- app_assoc; reflexivity).
  apply sliceTo_app.
Qed.

Lemma callerPackage_trims_witness :
  callerPackage sampleFuncName = Some (str "foo.bar/baz/pkg").
Proof.
  refine (callerPackage_trims (str "foo.bar/baz") (str "pkg") (str "func1.func2")
            _ _ _); apply absent_by_index; reflexivity.
Defined.

(** X26: [callerPackage] relies on the slash of an import path.  For a
    function name without slash (a function of package main, say) the
    slice [name[slash:]] is out of range and the call panics; for a name
    with a slash but no dot after the last one, the result is not the
    package: the call panics when the slash comes first, and otherwise
    returns the name cut one byte before the slash. *)
Theorem callerPackage_malformed :
  (forall name, (slashChar ∉ name) -> callerPackage name = None) /\
  (forall dir rest,
     (slashChar ∉ rest) -> (dotChar ∉ rest) ->
     callerPackage (dir ++ slashChar :: rest) = sliceTo dir (len dir - 1)).
Proof.
  split.
  - intros name H. unfold callerPackage. rewrite LastIndex_absent by assumption.
    reflexivity.
  - intros dir rest Hs Hd. unfold callerPackage, strings_Index.
    rewrite LastIndex_found by assumption.
    rewrite sliceFrom_app. cbn [mbind option_bind].
    assert (Hdot : strings_IndexByte (slashChar :: rest) dotChar = -1).
    { pose proof (IndexByte_bounds (slashChar :: rest) dotChar) as Hb.
      assert (Hn : dotChar ∉ slashChar :: rest)
        by (rewrite not_elem_of_cons; split; [discriminate | assumption]).
      apply IndexByte_absent in Hn. lia. }
    rewrite Hdot. unfold sliceTo.
    replace (len dir + -1) with (len dir - 1) by lia.
    assert (Hlen : len (dir ++ slashChar :: rest) = len dir + 1 + len rest)
      by (unfold len; rewrite length_app; simpl length; lia).
    assert (Hnn : 0 <= len rest) by (unfold len; lia).
    destruct (Z.leb_spec 0 (len dir - 1)) as [Hge|Hlt]; [|reflexivity].
    replace (len dir - 1 <=? len (dir ++ slashChar :: rest)) with true
      by (symmetry; apply Z.leb_le; lia).
    replace (len dir - 1 <=? len dir) with true by (symmetry; apply Z.leb_le; lia).
    cbn [andb]. f_equal. apply take_app_le. unfold len in *. lia.
Qed.

Lemma callerPackage_malformed_witness :
  callerPackage (str "main.main") = None /\
  callerPackage (str "abc/b") = Some (str "ab").
Proof.
  split.
  - apply (proj1 callerPackage_malformed). apply absent_by_index. reflexivity.
  - exact (proj2 callerPackage_malformed (str "abc") (str "b")
             (absent_by_index (str "b") slashChar eq_refl)
             (absent_by_index (str "b") dotChar eq_refl)).
Defined.
